(** * xsharp: a shallow embedding of the compiler pipeline of [main.go]

    The program is a three-stage pipeline: [tokenize] (a lexer driven by one
    combined regular expression), [Parser.parse] (recursive descent over the
    token slice) and [CodeGenerator.generate] (tree-to-text emission of C).

    Go strings are byte sequences: they are modelled as [string], whose
    characters ([ascii]) are exactly the 256 byte values.  Go [int] is 64 bits
    wide; every [int] of the program is a line number or an offset bounded by
    the length of the input, so it is modelled as [Z] without wrap-around. *)

From Stdlib Require Import Strings.String Strings.Ascii.
From Stdlib Require Import ZArith NArith List Bool Lia.
Import ListNotations.

Open Scope string_scope.
Open Scope Z_scope.

(** The double quote and the newline, written by their decimal codes. *)
Definition dquote : string := String "034"%char EmptyString.
Definition nl : string := String "010"%char EmptyString.

(** [s[n:]] of Go, on bytes. *)
Fixpoint drop (n : nat) (s : string) : string :=
  match n, s with
  | O, _ => s
  | S _, EmptyString => EmptyString
  | S n', String _ s' => drop n' s'
  end.

(** [s[a:b]] of Go, on bytes (Go panics unless [0 <= a <= b <= len(s)]; the
    lexer only slices at match bounds, see [allMatches_chain]). *)
Definition slice (s : string) (a b : Z) : string :=
  substring (Z.to_nat a) (Z.to_nat (b - a)) s.

(** ** unicode/utf8 *)

Module utf8.

Definition RuneError : N := 65533%N.

Definition byte (c : ascii) : N := N_of_ascii c.

(** Continuation bytes are [0x80..0xBF]. *)
Definition locb : N := 128%N.
Definition hicb : N := 191%N.

(** The [first] table joined with [acceptRanges]: for a leading byte, the size
    of the encoding and the range accepted for the second byte; [None] for a
    byte that cannot start a multi-byte encoding. *)
Definition first (b0 : N) : option (nat * N * N) :=
  (if (194 <=? b0) && (b0 <=? 223) then Some (2%nat, locb, hicb)
   else if b0 =? 224 then Some (3%nat, 160, hicb)
   else if (225 <=? b0) && (b0 <=? 236) then Some (3%nat, locb, hicb)
   else if b0 =? 237 then Some (3%nat, locb, 159)
   else if (238 <=? b0) && (b0 <=? 239) then Some (3%nat, locb, hicb)
   else if b0 =? 240 then Some (4%nat, 144, hicb)
   else if (241 <=? b0) && (b0 <=? 243) then Some (4%nat, locb, hicb)
   else if b0 =? 244 then Some (4%nat, locb, 143)
   else None)%N.

Definition inRange (lo hi b : N) : bool := ((lo <=? b) && (b <=? hi))%N.

(** [utf8.DecodeRuneInString]: the first rune of [s] and its width in bytes;
    [(RuneError, 0)] on the empty string, [(RuneError, 1)] on an invalid
    encoding. *)
Definition DecodeRuneInString (s : string) : N * nat :=
  match s with
  | EmptyString => (RuneError, 0%nat)
  | String c0 t0 =>
    let s0 := byte c0 in
    if (s0 <? 128)%N then (s0, 1%nat)
    else
      match first s0 with
      | None => (RuneError, 1%nat)
      | Some (sz, lo, hi) =>
        match t0 with
        | EmptyString => (RuneError, 1%nat)
        | String c1 t1 =>
          let s1 := byte c1 in
          if negb (inRange lo hi s1) then (RuneError, 1%nat)
          else if (sz <=? 2)%nat then
            (N.lor (N.shiftl (N.land s0 31) 6) (N.land s1 63), 2%nat)
          else
            match t1 with
            | EmptyString => (RuneError, 1%nat)
            | String c2 t2 =>
              let s2 := byte c2 in
              if negb (inRange locb hicb s2) then (RuneError, 1%nat)
              else if (sz <=? 3)%nat then
                (N.lor (N.lor (N.shiftl (N.land s0 15) 12)
                              (N.shiftl (N.land s1 63) 6))
                       (N.land s2 63), 3%nat)
              else
                match t2 with
                | EmptyString => (RuneError, 1%nat)
                | String c3 _ =>
                  let s3 := byte c3 in
                  if negb (inRange locb hicb s3) then (RuneError, 1%nat)
                  else
                    (N.lor (N.lor (N.lor (N.shiftl (N.land s0 7) 18)
                                         (N.shiftl (N.land s1 63) 12))
                                  (N.shiftl (N.land s2 63) 6))
                           (N.land s3 63), 4%nat)
                end
            end
        end
      end
  end.

End utf8.

(** ** regexp/syntax and regexp

    The lexer is driven by Go's [regexp] package.  The part of the package
    that [tokenize] uses is modelled here: the parser of the pattern syntax
    that occurs in [tokenSpecs], the leftmost-first (backtracking order)
    matcher with submatch positions, and [FindAllStringSubmatchIndex]. *)

Module regexp.

(** The parsed expression ([syntax.Regexp]); [OpCapture] carries the capture
    index that the parser assigns. *)
Inductive Regexp : Type :=
| OpEmptyMatch
| OpLiteral (r : N)
| OpCharClass (negated : bool) (ranges : list (N * N))
| OpAnyCharNotNL
| OpCapture (cap : nat) (name : string) (sub : Regexp)
| OpStar (sub : Regexp)
| OpPlus (sub : Regexp)
| OpQuest (sub : Regexp)
| OpConcat (a b : Regexp)
| OpAlternate (a b : Regexp).

(** *** Parsing a pattern

    The parser state is the rest of the pattern and [numCap], the number of
    capturing groups opened so far.  Every opening parenthesis that is not a
    non-capturing [(?:] increments [numCap] and takes the new value as its
    index, whether the group is named, [(?P<name>re)], or not, [(re)]: groups
    are numbered by the order of their opening parentheses. *)

Definition pstate (A : Type) : Type := option (A * string * nat).

(** A rune of a pattern after a backslash, outside and inside a class. *)
Definition escaped (c : ascii) : N :=
  if Ascii.eqb c "n" then 10%N
  else if Ascii.eqb c "t" then 9%N
  else utf8.byte c.

(** One member of a character class: a byte, or a backslash escape. *)
Definition classRune (s : string) : option (N * string) :=
  match s with
  | String "\" (String c s') => Some (escaped c, s')
  | String "\" EmptyString => None
  | String c s' => Some (utf8.byte c, s')
  | EmptyString => None
  end.

(** The members of a class up to the closing bracket: single runes and
    ranges [lo-hi]. *)
Fixpoint parseClassItems (fuel : nat) (s : string)
  : option (list (N * N) * string) :=
  match fuel with
  | O => None
  | S fuel' =>
    match s with
    | String "]" s' => Some ([], s')
    | _ =>
      match classRune s with
      | None => None
      | Some (lo, s1) =>
        match s1 with
        | String "-" (String c2 s2) =>
          if Ascii.eqb c2 "]" then
            match parseClassItems fuel' s1 with
            | Some (rs, s3) => Some ((lo, lo) :: rs, s3)
            | None => None
            end
          else
            match classRune (String c2 s2) with
            | None => None
            | Some (hi, s3) =>
              match parseClassItems fuel' s3 with
              | Some (rs, s4) => Some ((lo, hi) :: rs, s4)
              | None => None
              end
            end
        | _ =>
          match parseClassItems fuel' s1 with
          | Some (rs, s3) => Some ((lo, lo) :: rs, s3)
          | None => None
          end
        end
      end
    end
  end.

Definition parseClass (s : string) : option (Regexp * string) :=
  let '(negated, s0) :=
    match s with
    | String "^" s' => (true, s')
    | _ => (false, s)
    end in
  match parseClassItems (S (String.length s0)) s0 with
  | Some (rs, s1) => Some (OpCharClass negated rs, s1)
  | None => None
  end.

(** The name of a named group, up to [>]. *)
Fixpoint parseName (s : string) : option (string * string) :=
  match s with
  | EmptyString => None
  | String ">" s' => Some (EmptyString, s')
  | String c s' =>
    match parseName s' with
    | Some (n, s'') => Some (String c n, s'')
    | None => None
    end
  end.

(** Postfix repetition operators applied to an atom. *)
Fixpoint parseRepeat (fuel : nat) (re : Regexp) (s : string)
  : Regexp * string :=
  match fuel with
  | O => (re, s)
  | S fuel' =>
    match s with
    | String "*" s' => parseRepeat fuel' (OpStar re) s'
    | String "+" s' => parseRepeat fuel' (OpPlus re) s'
    | String "?" s' => parseRepeat fuel' (OpQuest re) s'
    | _ => (re, s)
    end
  end.

Definition concat2 (a b : Regexp) : Regexp :=
  match b with
  | OpEmptyMatch => a
  | _ => OpConcat a b
  end.

(** Alternation, concatenation and atoms.  [\d] is the Perl class [[0-9]];
    [.] is any rune but the newline (the flag [s] is off); a brace that does
    not start a repetition count is a literal. *)
Fixpoint parseAlternate (fuel : nat) (s : string) (numCap : nat)
  : pstate Regexp :=
  match fuel with
  | O => None
  | S fuel' =>
    match parseConcat fuel' s numCap with
    | Some (a, String "|" s', numCap') =>
      match parseAlternate fuel' s' numCap' with
      | Some (b, s'', numCap'') => Some (OpAlternate a b, s'', numCap'')
      | None => None
      end
    | r => r
    end
  end
with parseConcat (fuel : nat) (s : string) (numCap : nat) : pstate Regexp :=
  match fuel with
  | O => None
  | S fuel' =>
    match s with
    | EmptyString => Some (OpEmptyMatch, s, numCap)
    | String "|" _ => Some (OpEmptyMatch, s, numCap)
    | String ")" _ => Some (OpEmptyMatch, s, numCap)
    | _ =>
      match parseAtom fuel' s numCap with
      | Some (a, s', numCap') =>
        let '(a', s'') := parseRepeat (String.length s') a s' in
        match parseConcat fuel' s'' numCap' with
        | Some (b, s3, numCap3) => Some (concat2 a' b, s3, numCap3)
        | None => None
        end
      | None => None
      end
    end
  end
with parseAtom (fuel : nat) (s : string) (numCap : nat) : pstate Regexp :=
  match fuel with
  | O => None
  | S fuel' =>
    match s with
    | String "(" (String "?" (String "P" (String "<" s'))) =>
      match parseName s' with
      | Some (name, s'') =>
        let cap := S numCap in
        match parseAlternate fuel' s'' cap with
        | Some (sub, String ")" s3, numCap') =>
          Some (OpCapture cap name sub, s3, numCap')
        | _ => None
        end
      | None => None
      end
    | String "(" (String "?" _) => None
    | String "(" s' =>
      let cap := S numCap in
      match parseAlternate fuel' s' cap with
      | Some (sub, String ")" s3, numCap') =>
        Some (OpCapture cap EmptyString sub, s3, numCap')
      | _ => None
      end
    | String "[" s' =>
      match parseClass s' with
      | Some (re, s'') => Some (re, s'', numCap)
      | None => None
      end
    | String "." s' => Some (OpAnyCharNotNL, s', numCap)
    | String "\" (String "d" s') =>
      Some (OpCharClass false [(48%N, 57%N)], s', numCap)
    | String "\" (String c s') => Some (OpLiteral (escaped c), s', numCap)
    | String "*" _ => None
    | String "+" _ => None
    | String "?" _ => None
    | String c s' => Some (OpLiteral (utf8.byte c), s', numCap)
    | EmptyString => None
    end
  end.

(** [SubexpNames]: the names of the parenthesized subexpressions in the
    order of their indices, the empty string for an unnamed one and,
    first, for the whole expression. *)
Fixpoint capNames (re : Regexp) : list string :=
  match re with
  | OpCapture _ name sub => name :: capNames sub
  | OpStar sub | OpPlus sub | OpQuest sub => capNames sub
  | OpConcat a b | OpAlternate a b => (capNames a ++ capNames b)%list
  | _ => []
  end.

Definition SubexpNames (re : Regexp) : list string :=
  EmptyString :: capNames re.

(** A compiled expression: the parsed pattern and its number of capturing
    groups ([NumSubexp]). *)
Record Compiled : Type := { expr : Regexp; numSubexp : nat }.

(** [regexp.Compile]; [None] where [regexp.MustCompile] panics. *)
Definition Compile (pattern : string) : option Compiled :=
  match parseAlternate (3 * S (String.length pattern)) pattern 0 with
  | Some (re, EmptyString, n) => Some {| expr := re; numSubexp := n |}
  | _ => None
  end.

(** *** Matching

    A match of the whole expression is searched in backtracking order
    (leftmost-first): of two alternatives the left one is preferred, and the
    repetitions are greedy.  The matcher is written in continuation-passing
    style; [k] is what remains to be matched after the current node, and is
    given the rest of the input, the offset reached and the submatch
    positions recorded so far. *)

(** The index array of a match: for the group [i] the offsets of its start
    and end at [2*i] and [2*i+1], and [-1] at both for a group that did not
    take part in the match.  The group [0] is the whole match, the group
    [i] the [i]-th parenthesized subexpression. *)
Definition Match : Type := list Z.

Fixpoint set (i : nat) (v : Z) (m : Match) : Match :=
  match m, i with
  | [], _ => []
  | _ :: m', O => v :: m'
  | x :: m', S i' => x :: set i' v m'
  end.

Definition setCap (i : nat) (b e : Z) (m : Match) : Match :=
  set (2 * i + 1) e (set (2 * i) b m).

(** [m[i]] of Go (the lexer reads below [len(m)], see [Match_length]). *)
Definition idx (m : Match) (i : nat) : Z := nth i m (-1).

Definition cont : Type := string -> Z -> Match -> option Match.

Fixpoint inRanges (rs : list (N * N)) (r : N) : bool :=
  match rs with
  | [] => false
  | (lo, hi) :: rs' => utf8.inRange lo hi r || inRanges rs' r
  end.

(** One rune of the input that satisfies [p]. *)
Definition rune1 (p : N -> bool) (s : string) (pos : Z) (m : Match) (k : cont)
  : option Match :=
  let '(r, w) := utf8.DecodeRuneInString s in
  match w with
  | O => None
  | _ => if p r then k (drop w s) (pos + Z.of_nat w) m else None
  end.

(** Greedy iteration of [body]: one more iteration is tried before the
    continuation.  An iteration has to consume input; at most
    [String.length s] of them fit, which is the [fuel] given by [run], and
    a larger one changes nothing ([star_fuel]). *)
Fixpoint star (body : string -> Z -> Match -> cont -> option Match)
              (fuel : nat) (s : string) (pos : Z) (m : Match) (k : cont)
  : option Match :=
  match fuel with
  | O => k s pos m
  | S fuel' =>
    match body s pos m
            (fun s' pos' m' =>
               if pos <? pos' then star body fuel' s' pos' m' k else None)
    with
    | Some r => Some r
    | None => k s pos m
    end
  end.

Fixpoint run (re : Regexp) (s : string) (pos : Z) (m : Match) (k : cont)
  : option Match :=
  match re with
  | OpEmptyMatch => k s pos m
  | OpLiteral c => rune1 (N.eqb c) s pos m k
  | OpCharClass negated rs =>
    rune1 (fun r => xorb negated (inRanges rs r)) s pos m k
  | OpAnyCharNotNL => rune1 (fun r => negb (N.eqb r 10)) s pos m k
  | OpCapture cap _ sub =>
    run sub s pos m (fun s' pos' m' => k s' pos' (setCap cap pos pos' m'))
  | OpStar sub => star (run sub) (String.length s) s pos m k
  | OpPlus sub =>
    run sub s pos m
        (fun s' pos' m' => star (run sub) (String.length s') s' pos' m' k)
  | OpQuest sub =>
    match run sub s pos m k with
    | Some r => Some r
    | None => k s pos m
    end
  | OpConcat a b => run a s pos m (fun s' pos' m' => run b s' pos' m' k)
  | OpAlternate a b =>
    match run a s pos m k with
    | Some r => Some r
    | None => run b s pos m k
    end
  end.

(** A match of [re] that starts at the offset [pos], where [s] is the input
    from [pos] on. *)
Definition matchAt (re : Compiled) (s : string) (pos : Z) : option Match :=
  run (expr re) s pos (repeat (-1) (2 * (numSubexp re + 1)))
      (fun _ pos' m => Some (setCap 0 pos pos' m)).

(** [doExecute]: the leftmost match that starts at [pos] or later; the
    candidate start moves forward rune by rune. *)
Fixpoint doExecute (fuel : nat) (re : Compiled) (s : string) (pos : Z)
  : option Match :=
  match matchAt re s pos with
  | Some m => Some m
  | None =>
    match fuel with
    | O => None
    | S fuel' =>
      match snd (utf8.DecodeRuneInString s) with
      | O => None
      | w => doExecute fuel' re (drop w s) (pos + Z.of_nat w)
      end
    end
  end.

(** The loop of [allMatches]: successive non-overlapping matches.  After an
    empty match the search moves one rune forward, and an empty match that
    abuts the preceding match is not delivered. *)
Fixpoint allMatches (fuel : nat) (re : Compiled) (code : string)
                    (pos prevMatchEnd : Z) : list Match :=
  match fuel with
  | O => []
  | S fuel' =>
    if Z.of_nat (String.length code) <? pos then []
    else
      match doExecute (String.length code) re (drop (Z.to_nat pos) code) pos with
      | None => []
      | Some m =>
        let b := idx m 0 in
        let e := idx m 1 in
        if e =? pos then
          let w := snd (utf8.DecodeRuneInString (drop (Z.to_nat pos) code)) in
          let pos' :=
            match w with
            | O => Z.of_nat (String.length code) + 1
            | _ => pos + Z.of_nat w
            end in
          if b =? prevMatchEnd then allMatches fuel' re code pos' e
          else m :: allMatches fuel' re code pos' e
        else m :: allMatches fuel' re code e e
      end
  end.

(** [re.FindAllStringSubmatchIndex(code, -1)].  Every round of the loop
    moves [pos] forward, so [len(code) + 2] rounds are enough. *)
Definition FindAllStringSubmatchIndex (re : Compiled) (code : string)
  : list Match :=
  allMatches (String.length code + 2) re code 0 (-1).

End regexp.

(** ** strings *)

Module strings.

(** [strings.Join(elems, sep)]. *)
Fixpoint Join (elems : list string) (sep : string) : string :=
  match elems with
  | [] => EmptyString
  | [e] => e
  | e :: rest => e ++ sep ++ Join rest sep
  end.

End strings.

(** ** Tokenizer / lexer section *)

(** Token holds the type, value and location of each token (its field
    [Type] is written [Type_] here). *)
Record Token : Type := mkToken {
  Type_ : string;
  Value : string;
  Line : Z;
  Column : Z
}.

(** The error of [tokenize]: [fmt.Errorf("unexpected token %q at line %d,
    col %d", value, line, col)], kept as its three arguments. *)
Record LexError : Type := mkLexError {
  errValue : string;
  errLine : Z;
  errCol : Z
}.

(** What a call of [tokenize] comes to: the token slice with a nil error, a
    nil slice with the error, or the panic of [regexp.MustCompile]. *)
Inductive LexResult : Type :=
| Tokens (tokens : list Token)
| LexErr (err : LexError)
| CompilePanic.

(** tokenSpecs defines the regex pattern of each type of token. *)
Definition tokenSpecs : list (string * string) :=
  [ ("NUMBER", "\d+(\.\d*)?");
    ("STRING", dquote ++ "([^" ++ dquote ++ "\\]|\\.)*" ++ dquote);
    ("ID", "[A-Za-z_][A-Za-z0-9_]*");
    ("OP", "[+\-*/=<>!]");
    ("LPAREN", "\(");
    ("RPAREN", "\)");
    ("LBRACE", "{");
    ("RBRACE", "}");
    ("LANGLE", "<");
    ("RANGLE", ">");
    ("COLON", ":");
    ("SEMICOLON", ";");
    ("COMMA", ",");
    ("NEWLINE", "\n");
    ("SKIP", "[ \t]+");
    ("MISMATCH", ".") ].

(** [fmt.Sprintf("(?P<%s>%s)", spec.Type, spec.Regex)] for every spec. *)
Definition patterns : list string :=
  map (fun spec => "(?P<" ++ fst spec ++ ">" ++ snd spec ++ ")") tokenSpecs.

(** The combined pattern and its compilation. *)
Definition regex : option regexp.Compiled :=
  regexp.Compile (strings.Join patterns "|").

(** The inner loop of [tokenize]: the type of the first spec [i] for which
    the match has both positions of the group [i+1] set, [match[2*(i+1)]]
    and [match[2*(i+1)+1]]; [tokType] keeps its zero value, the empty
    string, when there is none.  The groups of the array are the groups of
    the combined pattern, see [regexp.SubexpNames]. *)
Fixpoint tokTypeFrom (i : nat) (specs : list (string * string))
                     (m : regexp.Match) : string :=
  match specs with
  | [] => EmptyString
  | spec :: specs' =>
    let start := regexp.idx m (2 * (i + 1)) in
    let end_ := regexp.idx m (2 * (i + 1) + 1) in
    if negb (start =? -1) && negb (end_ =? -1) then fst spec
    else tokTypeFrom (S i) specs' m
  end.

Definition tokType (m : regexp.Match) : string := tokTypeFrom 0 tokenSpecs m.

(** The loop of [tokenize] over the matches, with the local variables
    [line], [lineStart] and [tokens] as its state. *)
Fixpoint tokenizeLoop (code : string) (matches : list regexp.Match)
                      (line lineStart : Z) (tokens : list Token) : LexResult :=
  match matches with
  | [] =>
    Tokens (tokens ++ [mkToken "EOF" EmptyString line 0])%list
  | m :: matches' =>
    let fullStart := regexp.idx m 0 in
    let fullEnd := regexp.idx m 1 in
    let value := slice code fullStart fullEnd in
    let tokType := tokType m in
    let col := fullStart - lineStart in
    if String.eqb tokType "SKIP" then
      tokenizeLoop code matches' line lineStart tokens
    else if String.eqb tokType "NEWLINE" then
      tokenizeLoop code matches' (line + 1) fullEnd tokens
    else if String.eqb tokType "MISMATCH" then
      LexErr (mkLexError value line col)
    else
      tokenizeLoop code matches' line lineStart
                   (tokens ++ [mkToken tokType value line col])%list
  end.

(** tokenize scans the input code and produces a slice of Tokens. *)
Definition tokenize (code : string) : LexResult :=
  match regex with
  | None => CompilePanic
  | Some regex =>
    let matches := regexp.FindAllStringSubmatchIndex regex code in
    tokenizeLoop code matches 1 0 []
  end.

(** ** Abstract syntax tree section *)

(** Param represents a function parameter (the fields [Type] and [Name]). *)
Record Param : Type := mkParam {
  ParamType : string;
  ParamName : string
}.

(** Expression represents a literal expression. *)
Record Expression : Type := mkExpression {
  ExprValue : string
}.

(** [Node] is the empty interface: a node is a value of any dynamic type.
    The type switches of the program tell apart [FunctionDecl], [ClassDecl],
    [VarDecl] and [Statement]; a value of any other dynamic type (a
    [Program], a [Param], an [Expression], a pointer to a declaration, ...)
    and the nil interface, which no case of a type switch matches either,
    are [OtherNode], with the name of the type. *)
#[warnings="-register-all"]
Inductive Node : Type :=
| FunctionDecl (RetType Name : string) (Params : list Param) (Body : list Node)
| ClassDecl (Name Parent : string) (Members : list Node)
| VarDecl (VarType Name : string) (Default : Expression)
| Statement (Expr : Expression)
| OtherNode (dynamicType : string).

(** Program is the root node holding all top-level declarations. *)
Record Program : Type := mkProgram {
  Declarations : list Node
}.

(** ** Parser section *)

(** The panics that unwind [parse]: the two explicit ones, of [consume] and
    of [parseExpression], kept as the arguments of their messages, and the
    run-time panic of an index outside the token slice. *)
Inductive Fault : Type :=
| Expected (expectedType : list string) (tok : Token)
| UnexpectedTokenInExpression (tok : Token)
| IndexOutOfRange (index : nat).

(** What a parser method comes to, from a cursor position: a value and the
    new position, or a panic.  [OutOfFuel] is the bound of the model's loops,
    and is never reached when the bound is the number of tokens
    ([parse_fuel]). *)
Inductive Outcome (A : Type) : Type :=
| Done (a : A) (pos : nat)
| Panic (f : Fault)
| OutOfFuel.
Arguments Done {A} a pos.
Arguments Panic {A} f.
Arguments OutOfFuel {A}.

Module Parser.

(** A method of [*Parser]: [p.tokens] is fixed, [p.pos] is threaded. *)
Definition M (A : Type) : Type := nat -> Outcome A.

Definition ret {A} (a : A) : M A := fun pos => Done a pos.

Definition bind {A B} (m : M A) (f : A -> M B) : M B :=
  fun pos =>
    match m pos with
    | Done a pos' => f a pos'
    | Panic e => Panic e
    | OutOfFuel => OutOfFuel
    end.

Definition panic {A} (e : Fault) : M A := fun _ => Panic e.

Notation "x <- m ;; k" := (bind m (fun x => k))
  (at level 61, m at next level, right associativity).
Notation "m ;;; k" := (bind m (fun _ => k))
  (at level 61, right associativity).

Section WithTokens.

Variable tokens : list Token.

(** [p.tokens[i]]. *)
Definition tokenAt (i : nat) : M Token :=
  fun pos =>
    match nth_error tokens i with
    | Some tok => Done tok pos
    | None => Panic (IndexOutOfRange i)
    end.

(** current returns the current token. *)
Definition current : M Token := fun pos => tokenAt pos pos.

(** [p.pos]. *)
Definition getPos : M nat := fun pos => Done pos pos.

(** [p.pos++]. *)
Definition advance : M unit := fun pos => Done tt (S pos).

(** consume moves to the next token and optionally checks the expected
    token type(s), against the token's type or its literal value. *)
Definition consume (expectedType : list string) : M Token :=
  tok <- current ;;
  if (0 <? length expectedType)%nat
     && negb (existsb (fun typ => String.eqb (Type_ tok) typ
                                  || String.eqb (Value tok) typ)
                      expectedType)
  then panic (Expected expectedType tok)
  else advance ;;; ret tok.

(** parseExpression processes a simple literal expression. *)
Definition parseExpression : M Expression :=
  tok <- consume [] ;;
  if String.eqb (Type_ tok) "NUMBER" || String.eqb (Type_ tok) "STRING"
     || String.eqb (Type_ tok) "ID"
  then ret (mkExpression (Value tok))
  else panic (UnexpectedTokenInExpression tok).

(** The lookahead of [parseStatement]: the token after the current one is
    read only when the current one is an ID. *)
Definition twoIDs : M bool :=
  tok <- current ;;
  if String.eqb (Type_ tok) "ID" then
    pos <- getPos ;;
    next <- tokenAt (pos + 1) ;;
    ret (String.eqb (Type_ next) "ID")
  else ret false.

(** parseStatement distinguishes between variable declarations and
    expression statements. *)
Definition parseStatement : M Node :=
  isDecl <- twoIDs ;;
  if isDecl then
    varType <- consume ["ID"] ;;
    varName <- consume ["ID"] ;;
    tok <- current ;;
    def <- (if String.eqb (Value tok) "=" then
              consume ["OP"] ;;; parseExpression
            else ret (mkExpression EmptyString)) ;;
    consume ["SEMICOLON"] ;;;
    ret (VarDecl (Value varType) (Value varName) def)
  else
    expr <- parseExpression ;;
    consume ["SEMICOLON"] ;;;
    ret (Statement expr).

(** The loop of [parseBlock], with [stmts] as its state. *)
Fixpoint parseBlockLoop (fuel : nat) (stmts : list Node) : M (list Node) :=
  tok <- current ;;
  if negb (String.eqb (Type_ tok) "RBRACE") then
    match fuel with
    | O => fun _ => OutOfFuel
    | S fuel' =>
      stmt <- parseStatement ;;
      parseBlockLoop fuel' (stmts ++ [stmt])%list
    end
  else ret stmts.

(** parseBlock processes a block of code enclosed in braces. *)
Definition parseBlock : M (list Node) :=
  consume ["LBRACE"] ;;;
  stmts <- parseBlockLoop (length tokens) [] ;;
  consume ["RBRACE"] ;;;
  ret stmts.

(** The loop of [parseParams], with [params] as its state. *)
Fixpoint parseParamsLoop (fuel : nat) (params : list Param) : M (list Param) :=
  paramType <- consume ["ID"] ;;
  paramName <- consume ["ID"] ;;
  let params' := (params ++ [mkParam (Value paramType) (Value paramName)])%list in
  tok <- current ;;
  if String.eqb (Type_ tok) "COMMA" then
    consume ["COMMA"] ;;;
    match fuel with
    | O => fun _ => OutOfFuel
    | S fuel' => parseParamsLoop fuel' params'
    end
  else ret params'.

(** parseParams processes function parameters separated by commas. *)
Definition parseParams : M (list Param) :=
  tok <- current ;;
  if String.eqb (Type_ tok) "RPAREN" then ret []
  else parseParamsLoop (length tokens) [].

(** parseFunction handles [retType name ( params ) { body }]. *)
Definition parseFunction : M Node :=
  retType <- consume ["ID"] ;;
  name <- consume ["ID"] ;;
  consume ["LPAREN"] ;;;
  params <- parseParams ;;
  consume ["RPAREN"] ;;;
  body <- parseBlock ;;
  ret (FunctionDecl (Value retType) (Value name) params body).

(** parseClass handles [class ClassName [: Parent] { members }]. *)
Definition parseClass : M Node :=
  consume ["ID"] ;;;
  name <- consume ["ID"] ;;
  tok <- current ;;
  parent <- (if String.eqb (Type_ tok) "COLON" then
               consume ["COLON"] ;;;
               parentTok <- consume ["ID"] ;;
               ret (Value parentTok)
             else ret EmptyString) ;;
  members <- parseBlock ;;
  ret (ClassDecl (Value name) parent members).

(** The loop of [parse], with [decls] as its state. *)
Fixpoint parseLoop (fuel : nat) (decls : list Node) : M (list Node) :=
  tok <- current ;;
  if negb (String.eqb (Type_ tok) "EOF") then
    match fuel with
    | O => fun _ => OutOfFuel
    | S fuel' =>
      decl <- (if String.eqb (Value tok) "class" then parseClass
               else parseFunction) ;;
      parseLoop fuel' (decls ++ [decl])%list
    end
  else ret decls.

End WithTokens.

(** [NewParser(tokens).parse()]: parse starts the parsing process at
    position 0 and returns the Program AST node. *)
Definition parse (tokens : list Token) : Outcome Program :=
  match parseLoop tokens (length tokens) [] 0%nat with
  | Done decls pos => Done (mkProgram decls) pos
  | Panic e => Panic e
  | OutOfFuel => OutOfFuel
  end.

End Parser.

(** ** Code generator section *)

(** The generator: the AST, the output built so far ([strings.Builder]) and
    the current indentation string. *)
Record CodeGenerator : Type := mkCodeGenerator {
  ast : Program;
  code : string;
  indent : string
}.

(** NewCodeGenerator returns a new CodeGenerator. *)
Definition NewCodeGenerator (ast : Program) : CodeGenerator :=
  mkCodeGenerator ast EmptyString EmptyString.

(** [cg.code.WriteString(s)]. *)
Definition WriteString (s : string) (cg : CodeGenerator) : CodeGenerator :=
  mkCodeGenerator (ast cg) (code cg ++ s) (indent cg).

(** [cg.indent = s]. *)
Definition setIndent (s : string) (cg : CodeGenerator) : CodeGenerator :=
  mkCodeGenerator (ast cg) (code cg) s.

Section Emit.

(** Whether [strconv.ParseFloat(s, 64)] returns a nil error.  The package is
    not part of the program; [emitStatement] appends the same text on both
    sides of the test. *)
Variable ParseFloatOk : string -> bool.

(** emitIncludes writes the necessary C library includes. *)
Definition includes : string :=
  "#include <stdio.h>" ++ nl ++ "#include <stdlib.h>" ++ nl
  ++ "#include <string.h>" ++ nl ++ nl.

Definition emitIncludes (cg : CodeGenerator) : CodeGenerator :=
  WriteString includes cg.

(** emitStatement generates C code for a single statement. *)
Definition emitStatement (stmt : Node) (cg : CodeGenerator) : CodeGenerator :=
  match stmt with
  | VarDecl VarType Name Default =>
    let line := indent cg ++ VarType ++ " " ++ Name in
    let line :=
      if negb (String.eqb (ExprValue Default) EmptyString) then
        if ParseFloatOk (ExprValue Default)
        then line ++ " = " ++ ExprValue Default
        else line ++ " = " ++ ExprValue Default
      else line in
    let line := line ++ ";" ++ nl in
    WriteString line cg
  | Statement Expr =>
    WriteString (indent cg ++ ExprValue Expr ++ ";" ++ nl) cg
  | _ =>
    WriteString (indent cg ++ "// Unknown statement" ++ nl) cg
  end.

(** [for _, stmt := range body { cg.emitStatement(stmt) }]. *)
Definition emitBody (body : list Node) (cg : CodeGenerator) : CodeGenerator :=
  fold_left (fun cg stmt => emitStatement stmt cg) body cg.

(** [fmt.Sprintf("%s %s", param.Type, param.Name)] for every parameter. *)
Definition paramStrings (params : list Param) : list string :=
  map (fun param => ParamType param ++ " " ++ ParamName param) params.

(** emitFunction generates C code for a function declaration. *)
Definition emitFunction (RetType Name : string) (Params : list Param)
                        (Body : list Node) (cg : CodeGenerator)
  : CodeGenerator :=
  let params := paramStrings Params in
  let cg := WriteString (RetType ++ " " ++ Name ++ "("
                         ++ strings.Join params ", " ++ ") {" ++ nl) cg in
  let cg := setIndent "    " cg in
  let cg := emitBody Body cg in
  WriteString ("}" ++ nl ++ nl) cg.

(** The body of the first loop of [emitClass]: a struct field for a member
    that is a [VarDecl]. *)
Definition emitField (mem : Node) (cg : CodeGenerator) : CodeGenerator :=
  match mem with
  | VarDecl VarType Name _ =>
    WriteString ("    " ++ VarType ++ " " ++ Name ++ ";" ++ nl) cg
  | _ => cg
  end.

(** The body of the second loop of [emitClass]: a function for a member
    that is a [FunctionDecl], with a pointer to the class instance as its
    first parameter. *)
Definition emitMethod (clsName : string) (mem : Node) (cg : CodeGenerator)
  : CodeGenerator :=
  match mem with
  | FunctionDecl RetType Name Params Body =>
    let params := cons (clsName ++ "* this") (paramStrings Params) in
    let cg := WriteString (RetType ++ " " ++ clsName ++ "_" ++ Name ++ "("
                           ++ strings.Join params ", " ++ ") {" ++ nl) cg in
    let cg := setIndent "    " cg in
    let cg := emitBody Body cg in
    WriteString ("}" ++ nl ++ nl) cg
  | _ => cg
  end.

(** emitClass generates C code for a class declaration: a C struct for the
    class and functions for its methods. *)
Definition emitClass (Name : string) (Members : list Node)
                     (cg : CodeGenerator) : CodeGenerator :=
  let cg := WriteString ("typedef struct " ++ Name ++ " {" ++ nl) cg in
  let cg := fold_left (fun cg mem => emitField mem cg) Members cg in
  let cg := WriteString ("} " ++ Name ++ ";" ++ nl ++ nl) cg in
  fold_left (fun cg mem => emitMethod Name mem cg) Members cg.

(** The type switch of [generate] on one top-level declaration; it has no
    default case. *)
Definition emitDecl (decl : Node) (cg : CodeGenerator) : CodeGenerator :=
  match decl with
  | FunctionDecl RetType Name Params Body =>
    emitFunction RetType Name Params Body cg
  | ClassDecl Name _ Members => emitClass Name Members cg
  | _ => cg
  end.

(** generate starts the code generation process. *)
Definition generateFrom (cg : CodeGenerator) : string :=
  let cg := emitIncludes cg in
  let cg := fold_left (fun cg decl => emitDecl decl cg)
                      (Declarations (ast cg)) cg in
  code cg.

(** [NewCodeGenerator(ast).generate()]. *)
Definition generate (ast : Program) : string :=
  generateFrom (NewCodeGenerator ast).

(** ** Main function

    What [main] does with the text of the input file: lexing, parsing with
    the panic of the parser recovered, and code generation.  The text of
    the output file on success; [Crash] stands for a panic that [main] does
    not recover, and for the bound of the model's loops ([regex_compiled]
    and [parse_fuel]: neither happens). *)
Inductive Compilation : Type :=
| LexingError (err : LexError)
| ParsingError (f : Fault)
| Generated (cCode : string)
| Crash.

Definition compile (code : string) : Compilation :=
  match tokenize code with
  | LexErr err => LexingError err
  | CompilePanic => Crash
  | Tokens tokens =>
    match Parser.parse tokens with
    | Panic f => ParsingError f
    | OutOfFuel => Crash
    | Done ast _ => Generated (generate ast)
    end
  end.

End Emit.

(** * Notions used in the statements *)

Import regexp.

(** ** The matcher *)

(** An expression that can match the empty string. *)
Fixpoint nullable (re : Regexp) : bool :=
  match re with
  | OpEmptyMatch | OpStar _ | OpQuest _ => true
  | OpLiteral _ | OpCharClass _ _ | OpAnyCharNotNL => false
  | OpCapture _ _ sub | OpPlus sub => nullable sub
  | OpConcat a b => nullable a && nullable b
  | OpAlternate a b => nullable a || nullable b
  end.

(** What a successful run tells: the continuation was entered after [n]
    bytes of the input, [n] positive when [nonempty] is set, with a
    submatch array of the same length. *)
Definition consumes (nonempty : bool) (s : string) (pos : Z) (m : Match)
                    (k : cont) (r : Match) : Prop :=
  exists (n : nat) (m' : Match),
    (n <= String.length s)%nat
    /\ (nonempty = true -> (0 < n)%nat)
    /\ length m' = length m
    /\ k (drop n s) (pos + Z.of_nat n) m' = Some r.

(** ** The combined expression of the lexer *)

Definition digit : Regexp := OpCharClass false [(48, 57)]%N.
Definition letter_ : Regexp :=
  OpCharClass false [(65, 90); (97, 122); (95, 95)]%N.
Definition alnum_ : Regexp :=
  OpCharClass false [(65, 90); (97, 122); (48, 57); (95, 95)]%N.

(** The last three alternatives: NEWLINE, SKIP and MISMATCH. *)
Definition lastAlternatives : Regexp :=
  OpAlternate (OpCapture 16 "NEWLINE" (OpLiteral 10))
    (OpAlternate
       (OpCapture 17 "SKIP" (OpPlus (OpCharClass false [(32, 32); (9, 9)]%N)))
       (OpCapture 18 "MISMATCH" OpAnyCharNotNL)).

(** The combined pattern as parsed ([regex_compiled]).  The two unnamed
    groups, inside the NUMBER and the STRING patterns, take the indices 2
    and 4: the named group of [tokenSpecs[i]] has the index [i+1] for NUMBER
    only, [i+2] for STRING, and [i+3] from ID on. *)
Definition combined : Regexp :=
  OpAlternate
    (OpCapture 1 "NUMBER"
       (OpConcat (OpPlus digit)
          (OpQuest (OpCapture 2 "" (OpConcat (OpLiteral 46) (OpStar digit))))))
  (OpAlternate
    (OpCapture 3 "STRING"
       (OpConcat (OpLiteral 34)
          (OpConcat
             (OpStar
                (OpCapture 4 ""
                   (OpAlternate
                      (OpCharClass true [(34, 34); (92, 92)]%N)
                      (OpConcat (OpLiteral 92) OpAnyCharNotNL))))
             (OpLiteral 34))))
  (OpAlternate (OpCapture 5 "ID" (OpConcat letter_ (OpStar alnum_)))
  (OpAlternate
    (OpCapture 6 "OP"
       (OpCharClass false
          [(43, 43); (45, 45); (42, 42); (47, 47); (61, 61); (60, 60);
           (62, 62); (33, 33)]%N))
  (OpAlternate (OpCapture 7 "LPAREN" (OpLiteral 40))
  (OpAlternate (OpCapture 8 "RPAREN" (OpLiteral 41))
  (OpAlternate (OpCapture 9 "LBRACE" (OpLiteral 123))
  (OpAlternate (OpCapture 10 "RBRACE" (OpLiteral 125))
  (OpAlternate (OpCapture 11 "LANGLE" (OpLiteral 60))
  (OpAlternate (OpCapture 12 "RANGLE" (OpLiteral 62))
  (OpAlternate (OpCapture 13 "COLON" (OpLiteral 58))
  (OpAlternate (OpCapture 14 "SEMICOLON" (OpLiteral 59))
  (OpAlternate (OpCapture 15 "COMMA" (OpLiteral 44))
     lastAlternatives)))))))))))).

Definition compiled : Compiled := {| expr := combined; numSubexp := 18 |}.

(** The matches of the combined expression in [code]. *)
Definition matches (code : string) : list Match :=
  FindAllStringSubmatchIndex compiled code.

(** The matches are contiguous from [pos] to [e], none is empty, and every
    index array has its 38 entries. *)
Fixpoint chain (pos : Z) (ms : list Match) (e : Z) : Prop :=
  match ms with
  | [] => pos = e
  | m :: ms' =>
    idx m 0 = pos /\ pos < idx m 1 <= e /\ length m = 38%nat
    /\ chain (idx m 1) ms' e
  end.

(** [value := code[fullStart:fullEnd]]. *)
Definition value (code : string) (m : Match) : string :=
  slice code (idx m 0) (idx m 1).

(** Concatenation of a list of texts. *)
Fixpoint cat (texts : list string) : string :=
  match texts with
  | [] => EmptyString
  | t :: texts' => t ++ cat texts'
  end.

(** ** The loop of the lexer, match by match *)

(** The matches that the switch of [tokenize] takes as NEWLINE, and the ones
    it leaves out of the token slice. *)
Definition isNEWLINE (m : Match) : bool := String.eqb (tokType m) "NEWLINE".
Definition isMISMATCH (m : Match) : bool := String.eqb (tokType m) "MISMATCH".
Definition discarded (m : Match) : bool :=
  String.eqb (tokType m) "SKIP" || String.eqb (tokType m) "NEWLINE".

(** The line counter and the column origin after the matches [pre]: one
    plus the number of the matches taken as NEWLINE, and the end of the
    last of them. *)
Definition lineOf (pre : list Match) : Z :=
  1 + Z.of_nat (length (filter isNEWLINE pre)).
Definition lineStartOf (pre : list Match) : Z :=
  last (map (fun m => idx m 1) (filter isNEWLINE pre)) 0.

(** The token of the match [m] that comes after the matches [pre]. *)
Definition tokenOf (code : string) (pre : list Match) (m : Match) : Token :=
  mkToken (tokType m) (value code m) (lineOf pre) (idx m 0 - lineStartOf pre).

(** The tokens of the matches [ms] that come after [pre]. *)
Fixpoint tokensOf (code : string) (pre ms : list Match) : list Token :=
  match ms with
  | [] => []
  | m :: ms' =>
    ((if discarded m then [] else [tokenOf code pre m])
     ++ tokensOf code (pre ++ [m]) ms')%list
  end.

(** A text that the lexer is meant to leave out of the token slice, in the
    words of the comments of [tokenSpecs]: a run of spaces and tabs (SKIP),
    or a newline (NEWLINE). *)
Fixpoint blanks (s : string) : bool :=
  match s with
  | EmptyString => true
  | String c s' => (Ascii.eqb c " " || Ascii.eqb c "009") && blanks s'
  end.

Definition blankText (text : string) : bool :=
  (negb (String.eqb text EmptyString) && blanks text) || String.eqb text nl.

(** The number of newline characters of a text. *)
Fixpoint newlines (s : string) : nat :=
  match s with
  | EmptyString => O
  | String c s' => ((if Ascii.eqb c "010" then 1 else 0) + newlines s')%nat
  end.

(** ** The text of a node *)

(** The line that [emitStatement] writes for a statement at the
    indentation [ind]. *)
Definition stmtText (ind : string) (stmt : Node) : string :=
  match stmt with
  | VarDecl VarType Name Default =>
    ind ++ VarType ++ " " ++ Name
    ++ (if String.eqb (ExprValue Default) EmptyString then EmptyString
        else " = " ++ ExprValue Default)
    ++ ";" ++ nl
  | Statement Expr => ind ++ ExprValue Expr ++ ";" ++ nl
  | _ => ind ++ "// Unknown statement" ++ nl
  end.

(** The text of a function: signature, body at one indent unit, closing
    brace and a blank line. *)
Definition functionText (RetType Name : string) (params : list string)
                        (Body : list Node) : string :=
  RetType ++ " " ++ Name ++ "(" ++ strings.Join params ", " ++ ") {" ++ nl
  ++ cat (map (stmtText "    ") Body) ++ "}" ++ nl ++ nl.

(** The struct field and the function that a class member gives. *)
Definition fieldText (mem : Node) : string :=
  match mem with
  | VarDecl VarType Name _ => "    " ++ VarType ++ " " ++ Name ++ ";" ++ nl
  | _ => EmptyString
  end.

Definition methodText (clsName : string) (mem : Node) : string :=
  match mem with
  | FunctionDecl RetType Name Params Body =>
    functionText RetType (clsName ++ "_" ++ Name)
                 (cons (clsName ++ "* this") (paramStrings Params)) Body
  | _ => EmptyString
  end.

(** The text of a top-level declaration. *)
Definition declText (decl : Node) : string :=
  match decl with
  | FunctionDecl RetType Name Params Body =>
    functionText RetType Name (paramStrings Params) Body
  | ClassDecl Name _ Members =>
    "typedef struct " ++ Name ++ " {" ++ nl
    ++ cat (map fieldText Members)
    ++ "} " ++ Name ++ ";" ++ nl ++ nl
    ++ cat (map (methodText Name) Members)
  | _ => EmptyString
  end.

(** The dynamic types that each type switch of the generator knows. *)
Definition isStatementNode (n : Node) : bool :=
  match n with
  | VarDecl _ _ _ | Statement _ => true
  | _ => false
  end.

Definition isDeclarationNode (n : Node) : bool :=
  match n with
  | FunctionDecl _ _ _ _ | ClassDecl _ _ _ => true
  | _ => false
  end.

Definition isMemberNode (n : Node) : bool :=
  match n with
  | VarDecl _ _ _ | FunctionDecl _ _ _ _ => true
  | _ => false
  end.

(** The comment that stands for an unhandled statement. *)
Definition placeholder : string := "// Unknown statement".

(** A [strconv.ParseFloat] that accepts nothing, for the closed examples
    (the generated text does not depend on it, [generate_text]). *)
Definition noFloat (s : string) : bool := false.

(** ** Outcomes of the parser *)

(** The two panics that the parser raises itself. *)
Definition explicit (f : Fault) : Prop :=
  match f with
  | IndexOutOfRange _ => False
  | _ => True
  end.

(** A condition on each way a parser method can end: [Q] on the value and
    the new position, [E] on a panic, [T] when the bound of a loop of the
    model is hit. *)
Definition post {A : Type} (Q : A -> nat -> Prop) (E : Fault -> Prop)
                (T : Prop) (o : Outcome A) : Prop :=
  match o with
  | Done a pos => Q a pos
  | Panic f => E f
  | OutOfFuel => T
  end.

(** The expectations of [consume] that the end marker cannot meet: neither
    its kind nor its empty text is among them. *)
Definition notEOF (expectedType : list string) : bool :=
  (0 <? length expectedType)%nat
  && negb (existsb (fun typ => String.eqb "EOF" typ
                               || String.eqb EmptyString typ)
                   expectedType).

(** ** Shapes of the parsed tree *)

(** A declaration as the parser builds it: a function or a class whose
    body holds statements only. *)
Definition parsedDecl (decl : Node) : bool :=
  match decl with
  | FunctionDecl _ _ _ Body => forallb isStatementNode Body
  | ClassDecl _ _ Members => forallb isStatementNode Members
  | _ => false
  end.

(** All the nodes of a tree. *)
Fixpoint nodes (n : Node) : list Node :=
  n :: match n with
       | FunctionDecl _ _ _ Body => flat_map nodes Body
       | ClassDecl _ _ Members => flat_map nodes Members
       | _ => []
       end.

(** ** Sample inputs *)

(** The tokens of [int add(int a, int b) { return a; }] with the kinds that
    [tokenSpecs] names for their texts. *)
Definition add_source : string := "int add(int a, int b) { return a; }".

Definition add_tokens : list Token :=
  [ mkToken "ID" "int" 1 0; mkToken "ID" "add" 1 4; mkToken "LPAREN" "(" 1 7;
    mkToken "ID" "int" 1 8; mkToken "ID" "a" 1 12; mkToken "COMMA" "," 1 13;
    mkToken "ID" "int" 1 15; mkToken "ID" "b" 1 19;
    mkToken "RPAREN" ")" 1 20; mkToken "LBRACE" "{" 1 22;
    mkToken "ID" "return" 1 24; mkToken "ID" "a" 1 31;
    mkToken "SEMICOLON" ";" 1 32; mkToken "RBRACE" "}" 1 34;
    mkToken "EOF" EmptyString 1 0 ].

(** The same for [class Foo : Bar { int x; int get() { x; } }]. *)
Definition Foo_source : string :=
  "class Foo : Bar { int x; int get() { x; } }".

Definition Foo_tokens : list Token :=
  [ mkToken "ID" "class" 1 0; mkToken "ID" "Foo" 1 6;
    mkToken "COLON" ":" 1 10; mkToken "ID" "Bar" 1 12;
    mkToken "LBRACE" "{" 1 16; mkToken "ID" "int" 1 18;
    mkToken "ID" "x" 1 22; mkToken "SEMICOLON" ";" 1 23;
    mkToken "ID" "int" 1 25; mkToken "ID" "get" 1 29;
    mkToken "LPAREN" "(" 1 32; mkToken "RPAREN" ")" 1 33;
    mkToken "LBRACE" "{" 1 35; mkToken "ID" "x" 1 37;
    mkToken "SEMICOLON" ";" 1 38; mkToken "RBRACE" "}" 1 40;
    mkToken "RBRACE" "}" 1 42; mkToken "EOF" EmptyString 1 0 ].

(** The tree that the class-split property of the specification describes
    for it. *)
Definition Foo_program : Program :=
  mkProgram
    [ ClassDecl "Foo" "Bar"
        [ VarDecl "int" "x" (mkExpression EmptyString);
          FunctionDecl "int" "get" [] [Statement (mkExpression "x")] ] ].

(** A class with two fields, as tokens. *)
Definition Point_tokens : list Token :=
  [ mkToken "ID" "class" 1 0; mkToken "ID" "Point" 1 6;
    mkToken "LBRACE" "{" 1 12; mkToken "ID" "int" 1 14;
    mkToken "ID" "x" 1 18; mkToken "SEMICOLON" ";" 1 19;
    mkToken "ID" "y" 1 21; mkToken "SEMICOLON" ";" 1 22;
    mkToken "RBRACE" "}" 1 24; mkToken "EOF" EmptyString 1 0 ].

(** A text that the pipeline accepts: the identifiers [ID] and [SEMICOLON]
    have the texts that [consume] expects, a string literal is given the
    kind ID, an identifier the kind LPAREN, an operator the kind RPAREN and
    the parentheses the kinds of the braces. *)
Definition accepted_source : string :=
  "ID" ++ dquote ++ "f" ++ dquote ++ "x+(" ++ dquote ++ "s" ++ dquote
  ++ "SEMICOLON)".
(** * Notions used in the further properties *)

(** ** The groups of a match *)

(** The indices of the capturing groups of an expression. *)
Fixpoint groups (re : Regexp) : list nat :=
  match re with
  | OpCapture cap _ sub => cap :: groups sub
  | OpStar sub | OpPlus sub | OpQuest sub => groups sub
  | OpConcat a b | OpAlternate a b => (groups a ++ groups b)%list
  | _ => []
  end.

(** The entries of the index array outside the groups [gs] are the same in
    [m] and [m']. *)
Definition untouched (gs : list nat) (m m' : Match) : Prop :=
  forall j : nat,
    (forall g, In g gs -> j <> (2 * g)%nat /\ j <> (2 * g + 1)%nat) ->
    idx m' j = idx m j.

(** What a successful run tells about the submatch array that reaches the
    continuation. *)
Definition frames (re : Regexp) (s : string) (pos : Z) (m : Match)
                  (k : cont) (r : Match) : Prop :=
  exists (n : nat) (m' : Match),
    (n <= String.length s)%nat
    /\ length m' = length m
    /\ untouched (groups re) m m'
    /\ k (drop n s) (pos + Z.of_nat n) m' = Some r.

(** An expression that matches at every position, whatever follows. *)
Fixpoint total (re : Regexp) : bool :=
  match re with
  | OpEmptyMatch | OpStar _ | OpQuest _ => true
  | OpCapture _ _ sub => total sub
  | OpConcat a b => total a && total b
  | _ => false
  end.

(** The test on one rune that a node makes. *)
Definition runeTest (re : Regexp) : option (N -> bool) :=
  match re with
  | OpLiteral c => Some (N.eqb c)
  | OpCharClass negated rs => Some (fun r => xorb negated (inRanges rs r))
  | OpAnyCharNotNL => Some (fun r => negb (N.eqb r 10))
  | _ => None
  end.

(** An expression whose match is decided by the first rune: it matches
    exactly when that rune passes the test. *)
Fixpoint headTest (re : Regexp) : option (N -> bool) :=
  match re with
  | OpCapture _ _ sub => headTest sub
  | OpPlus sub => runeTest sub
  | OpConcat a b => if total b then headTest a else None
  | _ => runeTest re
  end.

(** A continuation that never fails. *)
Definition neverFails (k : cont) : Prop :=
  forall s pos m, exists r, k s pos m = Some r.

(** ** The kind of a lexeme *)

(** The kind that [tokenize] gives to a match, by the code of the first
    byte of its text and whether the text is that byte alone: a digit (48
    to 57); the double quote (34), alone or opening a string literal; a
    letter or the underscore; one of the operator characters; the
    parentheses (40, 41), the braces (123, 125), the colon (58), the
    semicolon (59), the comma (44) and the newline (10); the empty kind for
    any other byte.  NEWLINE and SKIP are the kinds that the switch
    discards, MISMATCH the one it reports. *)
Definition kindOfByte (b : N) (single : bool) : string :=
  if inRanges [(48, 57)]%N b then "NUMBER"
  else if N.eqb 34 b then (if single then EmptyString else "ID")
  else if inRanges [(65, 90); (97, 122); (95, 95)]%N b then "LPAREN"
  else if inRanges [(43, 43); (45, 45); (42, 42); (47, 47); (61, 61);
                    (60, 60); (62, 62); (33, 33)]%N b then "RPAREN"
  else if N.eqb 40 b then "LBRACE"
  else if N.eqb 41 b then "RBRACE"
  else if N.eqb 123 b then "LANGLE"
  else if N.eqb 125 b then "RANGLE"
  else if N.eqb 58 b then "COMMA"
  else if N.eqb 59 b then "NEWLINE"
  else if N.eqb 44 b then "SKIP"
  else if N.eqb 10 b then "MISMATCH"
  else EmptyString.

Definition kindOfText (text : string) : string :=
  match text with
  | EmptyString => EmptyString
  | String ch rest => kindOfByte (utf8.byte ch) (String.eqb rest EmptyString)
  end.

(** The continuation of [matchAt]: the whole match is recorded. *)
Definition whole (pos : Z) : cont :=
  fun _ pos' m => Some (setCap 0 pos pos' m).

(** The kinds that the lexer gives to the matches of one character only:
    the operator characters, the parentheses, the braces, the colon, the
    semicolon, the comma and the newline. *)
Definition oneByteKinds : list string :=
  [ "RPAREN"; "LBRACE"; "RBRACE"; "LANGLE"; "RANGLE"; "COMMA"; "NEWLINE";
    "SKIP"; "MISMATCH" ].

(** A match that the matcher finds at an offset inside [code]. *)
Definition origin (code : string) (m : Match) : Prop :=
  exists pos : Z,
    0 <= pos < Z.of_nat (String.length code)
    /\ matchAt compiled (drop (Z.to_nat pos) code) pos = Some m.

(** The types that a token of [tokenize] can have. *)
Definition lexedKinds : list string :=
  [ "NUMBER"; "ID"; "LPAREN"; "RPAREN"; "LBRACE"; "RBRACE"; "LANGLE";
    "RANGLE"; "COMMA"; EmptyString; "EOF" ].

(** A text that [tokenize] matches and leaves out of the token slice. *)
Definition droppedText (text : string) : bool :=
  String.eqb text ";" || String.eqb text ",".

(** A text of one line with a number, an identifier, an operator, both
    parentheses, a blank, a comma and a semicolon. *)
Definition line_source : string := "f(x1, 2.5) ;".

(** ** Texts without a newline *)

(** An expression that no text with a newline matches: it has no literal
    newline, and no class that holds the newline (a negated class does). *)
Fixpoint clean (re : Regexp) : bool :=
  match re with
  | OpEmptyMatch | OpAnyCharNotNL => true
  | OpLiteral c => negb (N.eqb c 10)
  | OpCharClass negated rs => negb negated && negb (inRanges rs 10)
  | OpCapture _ _ sub | OpStar sub | OpPlus sub | OpQuest sub => clean sub
  | OpConcat a b | OpAlternate a b => clean a && clean b
  end.

(** What a successful run of such an expression tells: the continuation
    was entered after [n] bytes that hold no newline. *)
Definition cleanly (s : string) (pos : Z) (k : cont) (r : Match) : Prop :=
  exists (n : nat) (m' : Match),
    (n <= String.length s)%nat
    /\ newlines (substring 0 n s) = 0%nat
    /\ k (drop n s) (pos + Z.of_nat n) m' = Some r.

(** The number of double quotes of a text. *)
Fixpoint quotes (s : string) : nat :=
  match s with
  | EmptyString => O
  | String c s' => ((if Ascii.eqb c "034" then 1 else 0) + quotes s')%nat
  end.

(** ** The trees that the pipeline can build *)

(** A text that starts with a double quote, and one that starts with a
    digit. *)
Definition quoted (s : string) : bool :=
  match s with
  | String ch _ => N.eqb 34 (utf8.byte ch)
  | EmptyString => false
  end.

Definition numeric (s : string) : bool :=
  match s with
  | String ch _ => inRanges [(48, 57)]%N (utf8.byte ch)
  | EmptyString => false
  end.

(** A token as [tokenize] builds it: the end marker, or a token with the
    type that its text decides. *)
Definition lexedToken (t : Token) : Prop :=
  (Type_ t = "EOF" /\ Value t = EmptyString)
  \/ Type_ t = kindOfText (Value t).

(** The texts that [consume("ID")] lets through among such tokens: a text
    that starts with a double quote, which has the type ID, and the text
    [ID] itself. *)
Definition lexedName (s : string) : bool := quoted s || String.eqb s "ID".

Definition lexedParam (param : Param) : bool :=
  lexedName (ParamType param) && lexedName (ParamName param).

(** A statement over such tokens: an expression that starts with a double
    quote or a digit, or a declaration without a default value. *)
Definition lexedStatement (stmt : Node) : bool :=
  match stmt with
  | Statement Expr => quoted (ExprValue Expr) || numeric (ExprValue Expr)
  | VarDecl VarType Name Default =>
    lexedName VarType && lexedName Name
    && String.eqb (ExprValue Default) EmptyString
  | _ => false
  end.

(** A declaration over such tokens: a function. *)
Definition lexedDecl (decl : Node) : bool :=
  match decl with
  | FunctionDecl RetType Name Params Body =>
    lexedName RetType && lexedName Name && forallb lexedParam Params
    && forallb lexedStatement Body
  | _ => false
  end.

(** The tokens that [tokenize] returns for [accepted_source], and the tree
    that [parse] builds from them. *)
Definition accepted_tokens : list Token :=
  [ mkToken "LPAREN" "ID" 1 0;
    mkToken "ID" (dquote ++ "f" ++ dquote) 1 2;
    mkToken "LPAREN" "x" 1 5; mkToken "RPAREN" "+" 1 6;
    mkToken "LBRACE" "(" 1 7;
    mkToken "ID" (dquote ++ "s" ++ dquote) 1 8;
    mkToken "LPAREN" "SEMICOLON" 1 11; mkToken "RBRACE" ")" 1 20;
    mkToken "EOF" EmptyString 1 0 ].

Definition accepted_program : Program :=
  mkProgram
    [ FunctionDecl "ID" (dquote ++ "f" ++ dquote) []
        [Statement (mkExpression (dquote ++ "s" ++ dquote))] ].

(** ** The tokens of a tree *)

(** What the parser reads of a token: its type and its text. *)
Definition kv (t : Token) : string * string := (Type_ t, Value t).

(** The tokens from the cursor on start with the types and the texts
    [l]. *)
Definition ahead (tokens : list Token) (pos : nat)
                 (l : list (string * string)) : Prop :=
  exists rest, map kv (skipn pos tokens) = (l ++ rest)%list.

(** The kind that [tokenSpecs] names for the text of an expression. *)
Definition exprKind (e : Expression) : string :=
  if quoted (ExprValue e) then "STRING"
  else if numeric (ExprValue e) then "NUMBER"
  else "ID".

(** The types and the texts of the tokens that spell a statement of a
    block, in the grammar of the comments of the parser:
    [type name [= default] ;] and [expression ;]. *)
Definition spellStatement (stmt : Node) : list (string * string) :=
  match stmt with
  | VarDecl VarType Name Default =>
    [("ID", VarType); ("ID", Name)]
    ++ (if String.eqb (ExprValue Default) EmptyString then []
        else [("OP", "="); (exprKind Default, ExprValue Default)])
    ++ [("SEMICOLON", ";")]
  | Statement Expr => [(exprKind Expr, ExprValue Expr); ("SEMICOLON", ";")]
  | _ => []
  end.

(** [type name , type name , ...]. *)
Fixpoint spellParams (params : list Param) : list (string * string) :=
  match params with
  | [] => []
  | param :: params' =>
    [("ID", ParamType param); ("ID", ParamName param)]
    ++ match params' with
       | [] => []
       | _ => ("COMMA", ",") :: spellParams params'
       end
  end.

(** [{ statements }]. *)
Definition spellBlock (body : list Node) : list (string * string) :=
  [("LBRACE", "{")] ++ flat_map spellStatement body ++ [("RBRACE", "}")].

(** [retType name ( params ) { body }] and
    [class ClassName [: Parent] { members }]. *)
Definition spellDecl (decl : Node) : list (string * string) :=
  match decl with
  | FunctionDecl RetType Name Params Body =>
    [("ID", RetType); ("ID", Name); ("LPAREN", "(")]
    ++ spellParams Params ++ [("RPAREN", ")")] ++ spellBlock Body
  | ClassDecl Name Parent Members =>
    [("ID", "class"); ("ID", Name)]
    ++ (if String.eqb Parent EmptyString then []
        else [("COLON", ":"); ("ID", Parent)])
    ++ spellBlock Members
  | _ => []
  end.

Definition spell (p : Program) : list (string * string) :=
  flat_map spellDecl (Declarations p).

(** A declaration that the grammar can spell: a function whose return type
    is not the text [class], or a class, with statements in its block. *)
Definition spellable (decl : Node) : bool :=
  match decl with
  | FunctionDecl RetType _ _ Body =>
    negb (String.eqb RetType "class") && forallb isStatementNode Body
  | ClassDecl _ _ Members => forallb isStatementNode Members
  | _ => false
  end.

(** The tree that [parse] builds from [add_tokens]. *)
Definition add_program : Program :=
  mkProgram
    [ FunctionDecl "int" "add" [mkParam "int" "a"; mkParam "int" "b"]
        [VarDecl "return" "a" (mkExpression EmptyString)] ].

(** ** What the generator does not read *)

(** A class member without the default value of a field, and a declaration
    without the parent of a class and the default values of its fields. *)
Definition eraseDefault (mem : Node) : Node :=
  match mem with
  | VarDecl VarType Name _ => VarDecl VarType Name (mkExpression EmptyString)
  | _ => mem
  end.

Definition eraseParent (decl : Node) : Node :=
  match decl with
  | ClassDecl Name _ Members =>
    ClassDecl Name EmptyString (map eraseDefault Members)
  | _ => decl
  end.

(** ** The panics of the parser *)

(** Whether a token meets one of the expectations of [consume]. *)
Definition meets (expectedType : list string) (tok : Token) : bool :=
  existsb (fun typ => String.eqb (Type_ tok) typ
                      || String.eqb (Value tok) typ)
          expectedType.

(** A panic that tells the truth about the token slice: the token of an
    explicit panic is a token of the slice, which does not meet the
    expectations that the message lists, or which is none of the literals
    of an expression; the index of a run-time panic is outside the
    slice. *)
Definition truthful (tokens : list Token) (f : Fault) : Prop :=
  match f with
  | Expected expectedType tok =>
    In tok tokens /\ expectedType <> [] /\ meets expectedType tok = false
  | UnexpectedTokenInExpression tok =>
    In tok tokens /\ Type_ tok <> "NUMBER" /\ Type_ tok <> "STRING"
    /\ Type_ tok <> "ID"
  | IndexOutOfRange index => (length tokens <= index)%nat
  end.

(** * Properties *)

(** ** Strings *)

Lemma drop_length (n : nat) (s : string) :
  String.length (drop n s) = (String.length s - n)%nat.
Proof.
  revert s; induction n as [|n IH]; intros [|c s]; simpl; auto.
Qed.

Lemma drop_drop (a b : nat) (s : string) : drop b (drop a s) = drop (a + b) s.
Proof.
  revert s; induction a as [|a IH]; intros s; simpl; auto.
  destruct s as [|c s]; simpl; auto.
  destruct b; reflexivity.
Qed.

Lemma drop_all (n : nat) (s : string) :
  (String.length s <= n)%nat -> drop n s = EmptyString.
Proof.
  revert s; induction n as [|n IH]; intros [|c s]; simpl; intros H;
    auto; try lia.
  apply IH; lia.
Qed.

Lemma append_nil_r (s : string) : s ++ EmptyString = s.
Proof. induction s; simpl; congruence. Qed.

Lemma append_assoc (a b c : string) : (a ++ b) ++ c = a ++ (b ++ c).
Proof. induction a; simpl; congruence. Qed.

Lemma substring_drop (a n : nat) (s : string) :
  (a + n <= String.length s)%nat ->
  substring a n s ++ drop (a + n) s = drop a s.
Proof.
  revert s; induction a as [|a IH]; intros s H.
  - simpl. revert s H; induction n as [|n IHn]; intros [|c s] H; simpl in *;
      auto; try lia.
    rewrite IHn by lia. reflexivity.
  - destruct s as [|c s]; simpl in *; [lia|].
    apply IH; lia.
Qed.

(** ** Runes *)

Lemma DecodeRuneInString_width (s : string) :
  (snd (utf8.DecodeRuneInString s) <= String.length s)%nat
  /\ (s <> EmptyString -> (0 < snd (utf8.DecodeRuneInString s))%nat).
Proof.
  unfold utf8.DecodeRuneInString.
  destruct s as [|c0 [|c1 [|c2 [|c3 t]]]]; cbn [String.length];
    repeat match goal with
           | |- context [if ?b then _ else _] => destruct b
           | |- context [match ?x with Some _ => _ | None => _ end] =>
             destruct x as [[[? ?] ?]|]
           end; cbn [snd]; split; intros; try lia; congruence.
Qed.

(** ** The matcher *)

Lemma set_length (i : nat) (v : Z) (m : Match) :
  length (set i v m) = length m.
Proof.
  revert i; induction m as [|x m IH]; intros [|i]; simpl; auto.
Qed.

Lemma setCap_length (i : nat) (b e : Z) (m : Match) :
  length (setCap i b e m) = length m.
Proof. unfold setCap. now rewrite !set_length. Qed.

Lemma setCap_0 (b e : Z) (m : Match) :
  (2 <= length m)%nat ->
  idx (setCap 0 b e m) 0 = b /\ idx (setCap 0 b e m) 1 = e.
Proof.
  destruct m as [|x [|y m]]; simpl; intros H; try lia.
  split; reflexivity.
Qed.

Lemma rune1_sound (p : N -> bool) s pos m k r :
  rune1 p s pos m k = Some r -> consumes true s pos m k r.
Proof.
  unfold rune1.
  destruct (utf8.DecodeRuneInString s) as [c w] eqn:E.
  pose proof (DecodeRuneInString_width s) as [Hle _]. rewrite E in Hle.
  simpl in Hle.
  destruct w as [|w]; [discriminate|].
  destruct (p c); [|discriminate].
  intros H. exists (S w), m. repeat split; auto; lia.
Qed.

Section Star.

Variable body : string -> Z -> Match -> cont -> option Match.
Hypothesis body_sound :
  forall s pos m k r, body s pos m k = Some r -> consumes false s pos m k r.

Lemma star_sound fuel s pos m k r :
  star body fuel s pos m k = Some r -> consumes false s pos m k r.
Proof.
  revert s pos m.
  induction fuel as [|fuel IH]; intros s pos m; simpl.
  - intros H. exists O, m. rewrite Z.add_0_r. repeat split; auto; lia.
  - destruct (body s pos m _) as [r'|] eqn:E.
    + intros [= ->].
      apply body_sound in E. destruct E as (n1 & m1 & Hn1 & _ & Hl1 & Hk).
      destruct (pos <? pos + Z.of_nat n1); [|discriminate].
      apply IH in Hk. destruct Hk as (n2 & m2 & Hn2 & _ & Hl2 & Hk).
      rewrite drop_length in Hn2. rewrite drop_drop in Hk.
      exists (n1 + n2)%nat, m2. repeat split; try lia; try congruence.
      rewrite Nat2Z.inj_add, Z.add_assoc. exact Hk.
    + intros H. exists O, m. rewrite Z.add_0_r. repeat split; auto; lia.
Qed.

End Star.

Lemma consumes_weaken b s pos m k r :
  consumes b s pos m k r -> consumes false s pos m k r.
Proof.
  intros (n & m' & ? & ? & ? & ?). exists n, m'. repeat split; auto.
  discriminate.
Qed.

Lemma run_sound re : forall s pos m k r,
  run re s pos m k = Some r -> consumes (negb (nullable re)) s pos m k r.
Proof.
  induction re as [ | c | neg rs | | cap name sub IH | sub IH | sub IH
                    | sub IH | a IHa b IHb | a IHa b IHb ];
    intros s pos m k r; simpl.
  - intros H. exists O, m. rewrite Z.add_0_r.
    repeat split; auto; try lia; try discriminate.
  - apply rune1_sound.
  - apply rune1_sound.
  - apply rune1_sound.
  - intros H. apply IH in H. destruct H as (n & m' & Hn & Hp & Hl & Hk).
    exists n, (setCap cap pos (pos + Z.of_nat n) m').
    rewrite setCap_length. repeat split; auto.
  - intros H. apply star_sound in H; auto.
    intros; eapply consumes_weaken; eauto.
  - intros H. apply IH in H. destruct H as (n1 & m1 & Hn1 & Hp1 & Hl1 & Hk).
    apply star_sound in Hk;
      [|intros; eapply consumes_weaken; eauto].
    destruct Hk as (n2 & m2 & Hn2 & _ & Hl2 & Hk).
    rewrite drop_length in Hn2. rewrite drop_drop in Hk.
    exists (n1 + n2)%nat, m2. repeat split; try lia; try congruence.
    + intros E. specialize (Hp1 E). lia.
    + rewrite Nat2Z.inj_add, Z.add_assoc. exact Hk.
  - destruct (run sub s pos m k) as [r'|] eqn:E.
    + intros [= ->]. apply IH in E. eapply consumes_weaken; eauto.
    + intros H. exists O, m. rewrite Z.add_0_r.
      repeat split; auto; try lia; try discriminate.
  - intros H. apply IHa in H. destruct H as (n1 & m1 & Hn1 & Hp1 & Hl1 & Hk).
    apply IHb in Hk. destruct Hk as (n2 & m2 & Hn2 & Hp2 & Hl2 & Hk).
    rewrite drop_length in Hn2. rewrite drop_drop in Hk.
    exists (n1 + n2)%nat, m2. repeat split; try lia; try congruence.
    + rewrite negb_andb. intros E. apply orb_true_iff in E.
      destruct E as [E|E]; [specialize (Hp1 E)|specialize (Hp2 E)]; lia.
    + rewrite Nat2Z.inj_add, Z.add_assoc. exact Hk.
  - rewrite negb_orb.
    destruct (run a s pos m k) as [r'|] eqn:E.
    + intros [= ->]. apply IHa in E.
      destruct E as (n & m' & ? & Hp & ? & ?). exists n, m'.
      repeat split; auto. intros E'. apply andb_true_iff in E'. tauto.
    + intros H. apply IHb in H.
      destruct H as (n & m' & ? & Hp & ? & ?). exists n, m'.
      repeat split; auto. intros E'. apply andb_true_iff in E'. tauto.
Qed.

(** A match found at [pos] spans [pos .. pos+n] inside the input, and its
    array has a pair of positions for the whole match and for every
    group. *)
Lemma matchAt_sound (re : Compiled) s pos r :
  matchAt re s pos = Some r ->
  exists n : nat,
    (n <= String.length s)%nat
    /\ (nullable (expr re) = false -> (0 < n)%nat)
    /\ length r = (2 * (numSubexp re + 1))%nat
    /\ idx r 0 = pos /\ idx r 1 = pos + Z.of_nat n.
Proof.
  unfold matchAt. intros H. apply run_sound in H.
  destruct H as (n & m' & Hn & Hp & Hl & Hk).
  injection Hk as <-. rewrite repeat_length in Hl.
  exists n. rewrite setCap_length.
  destruct (setCap_0 pos (pos + Z.of_nat n) m') as [H0 H1]; [lia|].
  repeat split; auto.
  intros E. apply Hp. now rewrite E.
Qed.

(** ** The matches of the lexer *)

(** [regexp.MustCompile] does not panic on the pattern of [tokenSpecs], and
    [combined] is the expression it gives: 18 capturing groups for the 16
    specs. *)
Lemma regex_compiled : regex = Some compiled.
Proof. vm_compute. reflexivity. Qed.

(** The subexpressions of the combined pattern: the loop of [tokenize] reads
    [tokenSpecs[i]] at the index [i+1] of this list. *)
Lemma regex_SubexpNames :
  option_map (fun re => SubexpNames (expr re)) regex
  = Some [ ""; "NUMBER"; ""; "STRING"; ""; "ID"; "OP"; "LPAREN"; "RPAREN";
           "LBRACE"; "RBRACE"; "LANGLE"; "RANGLE"; "COLON"; "SEMICOLON";
           "COMMA"; "NEWLINE"; "SKIP"; "MISMATCH" ].
Proof. vm_compute. reflexivity. Qed.

Lemma tokenize_matches (code : string) :
  tokenize code = tokenizeLoop code (matches code) 1 0 [].
Proof. unfold tokenize. rewrite regex_compiled. reflexivity. Qed.

Lemma alternate_r a b s pos m k :
  (exists r, run b s pos m k = Some r) ->
  exists r, run (OpAlternate a b) s pos m k = Some r.
Proof.
  intros [r H]. simpl. destruct (run a s pos m k) as [r'|]; eauto.
Qed.

(** On a nonempty input one of NEWLINE and MISMATCH matches the first rune,
    whatever it is. *)
Lemma lastAlternatives_match s pos m k :
  s <> EmptyString ->
  (forall s' pos' m', exists r, k s' pos' m' = Some r) ->
  exists r, run lastAlternatives s pos m k = Some r.
Proof.
  intros Hs Hk. unfold lastAlternatives.
  pose proof (DecodeRuneInString_width s) as [_ Hw]. specialize (Hw Hs).
  destruct (utf8.DecodeRuneInString s) as [c w] eqn:E. simpl in Hw.
  destruct w as [|w]; [lia|].
  destruct (N.eqb 10 c) eqn:Ec.
  - simpl. unfold rune1 at 1. rewrite E, Ec.
    destruct (Hk (drop (S w) s) (pos + Z.of_nat (S w))
                 (setCap 16 pos (pos + Z.of_nat (S w)) m)) as [r Hr].
    rewrite Hr. eauto.
  - apply alternate_r, alternate_r. simpl. unfold rune1. rewrite E.
    rewrite N.eqb_sym, Ec. simpl. apply Hk.
Qed.

Lemma matchAt_nonempty s pos :
  s <> EmptyString -> exists m, matchAt compiled s pos = Some m.
Proof.
  intros Hs. unfold matchAt, compiled, combined; cbn [expr numSubexp].
  do 13 apply alternate_r.
  apply lastAlternatives_match; eauto.
Qed.

Lemma matchAt_empty pos : matchAt compiled EmptyString pos = None.
Proof. reflexivity. Qed.

Lemma doExecute_eq fuel re s pos :
  doExecute fuel re s pos =
  match matchAt re s pos with
  | Some m => Some m
  | None =>
    match fuel with
    | O => None
    | S fuel' =>
      match snd (utf8.DecodeRuneInString s) with
      | O => None
      | w => doExecute fuel' re (drop w s) (pos + Z.of_nat w)
      end
    end
  end.
Proof. destruct fuel; reflexivity. Qed.

(** One round of [allMatches] where a match starts at [pos]. *)
Lemma allMatches_step fuel code pos prev m :
  0 <= pos ->
  matchAt compiled (drop (Z.to_nat pos) code) pos = Some m ->
  allMatches (S fuel) compiled code pos prev
  = m :: allMatches fuel compiled code (idx m 1) (idx m 1).
Proof.
  intros Hpos Hm. cbn [allMatches]. rewrite doExecute_eq, Hm.
  apply matchAt_sound in Hm.
  destruct Hm as (n & Hn & Hp & Hl & H0 & H1).
  specialize (Hp eq_refl). rewrite drop_length in Hn.
  destruct (Z.ltb_spec (Z.of_nat (String.length code)) pos) as [?|_]; [lia|].
  rewrite H1.
  destruct (Z.eqb_spec (pos + Z.of_nat n) pos) as [?|_]; [lia|].
  reflexivity.
Qed.

Lemma allMatches_chain fuel code : forall pos prev,
  0 <= pos <= Z.of_nat (String.length code) ->
  Z.of_nat (String.length code) - pos < Z.of_nat fuel ->
  chain pos (allMatches fuel compiled code pos prev)
        (Z.of_nat (String.length code)).
Proof.
  induction fuel as [|fuel IH]; intros pos prev Hpos Hfuel; [simpl in *; lia|].
  destruct (Z.eq_dec pos (Z.of_nat (String.length code))) as [Heq|Hne].
  - cbn [allMatches].
    destruct (Z.ltb_spec (Z.of_nat (String.length code)) pos) as [?|_]; [lia|].
    rewrite doExecute_eq.
    rewrite (drop_all (Z.to_nat pos)) by lia.
    rewrite matchAt_empty.
    destruct (String.length code); simpl; auto.
  - destruct (matchAt_nonempty (drop (Z.to_nat pos) code) pos) as [m Hm].
    { intros E. apply (f_equal String.length) in E.
      rewrite drop_length in E. simpl in E. lia. }
    rewrite (allMatches_step _ _ _ _ m) by (auto; lia).
    apply matchAt_sound in Hm.
    destruct Hm as (n & Hn & Hp & Hl & H0 & H1).
    specialize (Hp eq_refl). rewrite drop_length in Hn.
    cbn [chain]. rewrite H0, H1. repeat split; auto; try lia.
    apply IH; lia.
Qed.

Lemma matches_chain (code : string) :
  chain 0 (matches code) (Z.of_nat (String.length code)).
Proof.
  unfold matches, FindAllStringSubmatchIndex.
  apply allMatches_chain; lia.
Qed.

(** Every index array that [tokenize] reads has 38 entries: the reads at
    [2*(i+1)+1 <= 33] are inside it. *)
Lemma Match_length (code : string) :
  Forall (fun m => length m = 38%nat) (matches code).
Proof.
  pose proof (matches_chain code) as H. revert H.
  generalize 0, (matches code). intros pos ms; revert pos.
  induction ms as [|m ms IH]; intros pos; simpl; auto.
  intros (_ & _ & Hl & H). constructor; eauto.
Qed.

Lemma chain_cat (code : string) (ms : list Match) : forall pos,
  0 <= pos ->
  chain pos ms (Z.of_nat (String.length code)) ->
  cat (map (value code) ms) = drop (Z.to_nat pos) code.
Proof.
  induction ms as [|m ms IH]; intros pos Hpos; simpl.
  - intros ->. rewrite Nat2Z.id. symmetry. apply drop_all. lia.
  - intros (H0 & H1 & _ & H). rewrite (IH (idx m 1)) by (auto; lia).
    unfold value, slice. rewrite H0.
    replace (Z.to_nat (idx m 1))
      with (Z.to_nat pos + Z.to_nat (idx m 1 - pos))%nat by lia.
    apply substring_drop. lia.
Qed.

(** The matches of the combined expression partition the input. *)
Lemma matches_partition (code : string) :
  cat (map (value code) (matches code)) = code.
Proof.
  rewrite (chain_cat code _ 0); [reflexivity|lia|apply matches_chain].
Qed.

(** *** The bound of the greedy iteration

    [star] is given the length of the input as its bound.  The result is the
    same for every larger bound: the matcher only looks at its continuation
    after some bytes of the input, and an iteration has to consume one. *)

Lemma agree_here s pos m (k1 k2 : cont) :
  (forall n m', (n <= String.length s)%nat ->
     k1 (drop n s) (pos + Z.of_nat n) m' = k2 (drop n s) (pos + Z.of_nat n) m') ->
  k1 s pos m = k2 s pos m.
Proof.
  intros H. specialize (H O m (Nat.le_0_l _)).
  simpl in H. now rewrite Z.add_0_r in H.
Qed.

Lemma rune1_ext (p : N -> bool) s pos m (k1 k2 : cont) :
  (forall n m', (n <= String.length s)%nat ->
     k1 (drop n s) (pos + Z.of_nat n) m' = k2 (drop n s) (pos + Z.of_nat n) m') ->
  rune1 p s pos m k1 = rune1 p s pos m k2.
Proof.
  intros H. unfold rune1.
  pose proof (DecodeRuneInString_width s) as [Hle _].
  destruct (utf8.DecodeRuneInString s) as [c w]. simpl in Hle.
  destruct w; auto. destruct (p c); auto.
Qed.

Lemma star_ext (body : string -> Z -> Match -> cont -> option Match) :
  (forall s pos m k1 k2,
     (forall n m', (n <= String.length s)%nat ->
        k1 (drop n s) (pos + Z.of_nat n) m'
        = k2 (drop n s) (pos + Z.of_nat n) m') ->
     body s pos m k1 = body s pos m k2) ->
  forall fuel s pos m k1 k2,
    (forall n m', (n <= String.length s)%nat ->
       k1 (drop n s) (pos + Z.of_nat n) m'
       = k2 (drop n s) (pos + Z.of_nat n) m') ->
    star body fuel s pos m k1 = star body fuel s pos m k2.
Proof.
  intros Hbody fuel.
  induction fuel as [|fuel IH]; intros s pos m k1 k2 H; simpl.
  - now apply agree_here.
  - rewrite (Hbody s pos m _
               (fun s' pos' m' =>
                  if pos <? pos' then star body fuel s' pos' m' k2 else None)).
    + destruct (body s pos m _); auto.
      now apply agree_here.
    + intros n m' Hn. destruct (pos <? pos + Z.of_nat n); auto.
      apply IH. intros n2 m2 Hn2. rewrite drop_length in Hn2.
      rewrite drop_drop, <- Z.add_assoc, <- Nat2Z.inj_add.
      apply H. lia.
Qed.

Lemma run_ext re : forall s pos m k1 k2,
  (forall n m', (n <= String.length s)%nat ->
     k1 (drop n s) (pos + Z.of_nat n) m' = k2 (drop n s) (pos + Z.of_nat n) m') ->
  run re s pos m k1 = run re s pos m k2.
Proof.
  induction re as [ | c | neg rs | | cap name sub IH | sub IH | sub IH
                    | sub IH | a IHa b IHb | a IHa b IHb ];
    intros s pos m k1 k2 H; simpl;
    try (now apply rune1_ext).
  - now apply agree_here.
  - apply IH. intros n m' Hn. now apply H.
  - now apply star_ext.
  - apply IH. intros n m' Hn. apply star_ext; auto.
    intros n2 m2 Hn2. rewrite drop_length in Hn2.
    rewrite drop_drop, <- Z.add_assoc, <- Nat2Z.inj_add. apply H. lia.
  - rewrite (IH s pos m k1 k2 H). destruct (run sub s pos m k2); auto.
    now apply agree_here.
  - apply IHa. intros n m' Hn. apply IHb.
    intros n2 m2 Hn2. rewrite drop_length in Hn2.
    rewrite drop_drop, <- Z.add_assoc, <- Nat2Z.inj_add. apply H. lia.
  - rewrite (IHa s pos m k1 k2 H), (IHb s pos m k1 k2 H). reflexivity.
Qed.

Lemma star_fuel (re : Regexp) : forall fuel1 fuel2 s pos m k,
  (String.length s <= fuel1)%nat -> (String.length s <= fuel2)%nat ->
  star (run re) fuel1 s pos m k = star (run re) fuel2 s pos m k.
Proof.
  assert (Hstop : forall fuel pos m k,
             star (run re) fuel EmptyString pos m k = k EmptyString pos m).
  { intros [|fuel] pos m k; simpl; auto.
    destruct (run re EmptyString pos m _) as [r|] eqn:E; auto.
    apply run_sound in E. destruct E as (n & m' & Hn & _ & _ & Hk).
    simpl in Hn. replace n with O in Hk by lia.
    rewrite Z.add_0_r, Z.ltb_irrefl in Hk. discriminate. }
  induction fuel1 as [|fuel1 IH]; intros fuel2 s pos m k H1 H2.
  - destruct s; [|simpl in H1; lia]. now rewrite !Hstop.
  - destruct fuel2 as [|fuel2].
    + destruct s; [|simpl in H2; lia]. now rewrite !Hstop.
    + simpl.
      rewrite (run_ext re s pos m _
                 (fun s' pos' m' =>
                    if pos <? pos' then star (run re) fuel2 s' pos' m' k
                    else None)); auto.
      intros n m' Hn.
      destruct (Z.ltb_spec pos (pos + Z.of_nat n)); auto.
      apply IH; rewrite drop_length; lia.
Qed.

(** ** The loop of the lexer *)

Lemma lineOf_snoc (pre : list Match) (m : Match) :
  lineOf (pre ++ [m]) = if isNEWLINE m then lineOf pre + 1 else lineOf pre.
Proof.
  unfold lineOf. rewrite filter_app, length_app. cbn [filter].
  destruct (isNEWLINE m); cbn [length]; lia.
Qed.

Lemma lineStartOf_snoc (pre : list Match) (m : Match) :
  lineStartOf (pre ++ [m])
  = if isNEWLINE m then idx m 1 else lineStartOf pre.
Proof.
  unfold lineStartOf. rewrite filter_app. simpl.
  destruct (isNEWLINE m); simpl.
  - rewrite map_app. simpl. apply last_last.
  - now rewrite app_nil_r.
Qed.

(** The kind that the inner loop gives is the type of a spec, or empty. *)
Lemma tokTypeFrom_cases (m : Match) (specs : list (string * string)) :
  forall i, tokTypeFrom i specs m = EmptyString
            \/ In (tokTypeFrom i specs m) (map fst specs).
Proof.
  induction specs as [|spec specs IH]; intros i; simpl; auto.
  destruct (_ && _); auto.
  destruct (IH (S i)); auto.
Qed.

Lemma tokType_not_EOF (m : Match) : tokType m <> "EOF".
Proof.
  destruct (tokTypeFrom_cases m tokenSpecs 0) as [E|E]; unfold tokType.
  - rewrite E. discriminate.
  - intros E'. rewrite E' in E. simpl in E.
    repeat (destruct E as [E|E]; [discriminate|]). exact E.
Qed.

(** A run of the loop that ends with a token slice met no match taken as
    MISMATCH, and appended the tokens of the matches that are not discarded
    and the end marker. *)
Lemma tokenizeLoop_Tokens (code : string) (ms : list Match) :
  forall pre toks out,
  tokenizeLoop code ms (lineOf pre) (lineStartOf pre) toks = Tokens out ->
  out = (toks ++ tokensOf code pre ms
         ++ [mkToken "EOF" EmptyString (lineOf (pre ++ ms)) 0])%list
  /\ Forall (fun m => isMISMATCH m = false) ms.
Proof.
  induction ms as [|m ms IH]; intros pre toks out; cbn [tokenizeLoop].
  - intros [= <-]. rewrite app_nil_r. simpl. auto.
  - pose proof (lineOf_snoc pre m) as HL.
    pose proof (lineStartOf_snoc pre m) as HS.
    unfold isNEWLINE in HL, HS.
    cbn [tokensOf]. unfold discarded, isMISMATCH at 1.
    replace (pre ++ m :: ms)%list with ((pre ++ [m]) ++ ms)%list
      by (now rewrite <- app_assoc).
    destruct (String.eqb (tokType m) "SKIP") eqn:Eskip.
    { apply String.eqb_eq in Eskip. rewrite Eskip in *. simpl in HL, HS.
      rewrite <- HL, <- HS. intros H. apply IH in H. destruct H as [-> H].
      split; [reflexivity|]. constructor; auto. now rewrite Eskip. }
    destruct (String.eqb (tokType m) "NEWLINE") eqn:Enl.
    { rewrite <- HL, <- HS. intros H. apply IH in H. destruct H as [-> H].
      split; [reflexivity|]. constructor; auto.
      apply String.eqb_eq in Enl. now rewrite Enl. }
    destruct (String.eqb (tokType m) "MISMATCH") eqn:Emis; [discriminate|].
    rewrite <- HL, <- HS. intros H. apply IH in H. destruct H as [-> H].
    split; [|constructor; auto].
    unfold tokenOf, value. rewrite <- HL, <- HS, <- app_assoc. reflexivity.
Qed.

(** The texts of the tokens are the texts of the matches that are not
    discarded, in order. *)
Lemma tokensOf_Values (code : string) (ms : list Match) : forall pre,
  map Value (tokensOf code pre ms)
  = map (value code) (filter (fun m => negb (discarded m)) ms).
Proof.
  induction ms as [|m ms IH]; intros pre; simpl; auto.
  rewrite map_app, IH. destruct (discarded m); reflexivity.
Qed.

(** What a successful [tokenize] returns. *)
Lemma tokenize_Tokens (code : string) (toks : list Token) :
  tokenize code = Tokens toks ->
  toks = (tokensOf code [] (matches code)
          ++ [mkToken "EOF" EmptyString (lineOf (matches code)) 0])%list
  /\ Forall (fun m => isMISMATCH m = false) (matches code).
Proof.
  rewrite tokenize_matches. intros H.
  apply (tokenizeLoop_Tokens code (matches code) []) in H. exact H.
Qed.

(** ** The properties of the lexer *)

(** C4, the code at the failing inputs.  The matches of [a;b] partition
    the text, and none of them is a run of blanks or a newline; [tokenize]
    leaves the semicolon out, so the texts of its tokens give [ab], and
    there is no match of blanks or of a newline to put back: the input is
    not reproduced.  On [a b] the blank is not left out: it comes back as a
    token, of the empty kind. *)
Theorem round_trip_semicolon :
  map (value "a;b") (matches "a;b") = ["a"; ";"; "b"]
  /\ filter blankText (map (value "a;b") (matches "a;b")) = []
  /\ tokenize "a;b"
     = Tokens [ mkToken "LPAREN" "a" 1 0; mkToken "LPAREN" "b" 2 0;
                mkToken "EOF" EmptyString 2 0 ]
  /\ cat (map Value
              (removelast
                 [ mkToken "LPAREN" "a" 1 0; mkToken "LPAREN" "b" 2 0;
                   mkToken "EOF" EmptyString 2 0 ]))
     <> "a;b"
  /\ tokenize "a b"
     = Tokens [ mkToken "LPAREN" "a" 1 0; mkToken EmptyString " " 1 1;
                mkToken "LPAREN" "b" 1 2; mkToken "EOF" EmptyString 1 0 ]
  /\ blankText " " = true.
Proof.
  split; [vm_compute; reflexivity|]. split; [vm_compute; reflexivity|].
  split; [vm_compute; reflexivity|]. split; [vm_compute; discriminate|].
  split; vm_compute; reflexivity.
Qed.

(** C6, the code at the failing inputs.  The line counter moves on a
    semicolon and not on a newline: [a;b] has no newline, and its second
    token and its end marker are on line 2; the newline of the two lines
    [a] and [b] is reported as the unexpected token, so that no line is
    counted; and a newline inside a string literal is part of the token,
    which leaves the end marker on line 1. *)
Theorem tokenize_semicolon_line :
  tokenize "a;b"
  = Tokens [ mkToken "LPAREN" "a" 1 0; mkToken "LPAREN" "b" 2 0;
             mkToken "EOF" EmptyString 2 0 ]
  /\ newlines "a;b" = 0%nat
  /\ tokenize ("a" ++ nl ++ "b") = LexErr (mkLexError nl 1 1)
  /\ tokenize (dquote ++ nl ++ dquote)
     = Tokens [ mkToken "ID" (dquote ++ nl ++ dquote) 1 0;
                mkToken "EOF" EmptyString 1 0 ]
  /\ newlines (dquote ++ nl ++ dquote) = 1%nat.
Proof. vm_compute. repeat split; reflexivity. Qed.

(** C5, the code at the failing input: a character that only the
    catch-all matches is returned as a token of the empty kind, with no
    error. *)
Theorem tokenize_at_sign :
  tokenize "@"
  = Tokens [mkToken EmptyString "@" 1 0; mkToken "EOF" EmptyString 1 0].
Proof. vm_compute. reflexivity. Qed.

(** And a newline, which the NEWLINE category matches, is reported as the
    unexpected token. *)
Lemma tokenize_newline :
  tokenize ("a" ++ nl ++ "bb") = LexErr (mkLexError nl 1 1).
Proof. vm_compute. reflexivity. Qed.

(** C9, the code at the failing input: the braces come out with the kinds
    LANGLE and RANGLE. *)
Theorem tokenize_braces :
  tokenize "{}"
  = Tokens [mkToken "LANGLE" "{" 1 0; mkToken "RANGLE" "}" 1 1;
            mkToken "EOF" EmptyString 1 0].
Proof. vm_compute. reflexivity. Qed.

(** The kind that [tokenize] gives to a match of each category: the group
    read for [tokenSpecs[i]] is the group [i+1], which is the named group of
    an earlier spec from STRING on. *)
Lemma tokenize_kinds :
  tokenize ("7" ++ dquote ++ "s" ++ dquote ++ "x+(){}<>:")
  = Tokens [mkToken "NUMBER" "7" 1 0;
            mkToken "ID" (dquote ++ "s" ++ dquote) 1 1;
            mkToken "LPAREN" "x" 1 4; mkToken "RPAREN" "+" 1 5;
            mkToken "LBRACE" "(" 1 6; mkToken "RBRACE" ")" 1 7;
            mkToken "LANGLE" "{" 1 8; mkToken "RANGLE" "}" 1 9;
            mkToken "RPAREN" "<" 1 10; mkToken "RPAREN" ">" 1 11;
            mkToken "COMMA" ":" 1 12; mkToken "EOF" EmptyString 1 0]
  /\ tokenize "a;b,c d@"
     = Tokens [mkToken "LPAREN" "a" 1 0; mkToken "LPAREN" "b" 2 0;
               mkToken "LPAREN" "c" 2 2; mkToken EmptyString " " 2 3;
               mkToken "LPAREN" "d" 2 4; mkToken EmptyString "@" 2 5;
               mkToken "EOF" EmptyString 2 0].
Proof. vm_compute. split; reflexivity. Qed.

(** A run of the loop that ends with an error stopped at the first match
    taken as MISMATCH, and reports its text, the line counter and the
    offset of the match from the column origin. *)
Lemma tokenizeLoop_LexErr (code : string) (ms : list Match) :
  forall pre toks err,
  tokenizeLoop code ms (lineOf pre) (lineStartOf pre) toks = LexErr err ->
  exists ms1 m ms2,
    ms = (ms1 ++ m :: ms2)%list
    /\ Forall (fun m => isMISMATCH m = false) ms1
    /\ isMISMATCH m = true
    /\ err = mkLexError (value code m) (lineOf (pre ++ ms1))
                        (idx m 0 - lineStartOf (pre ++ ms1)).
Proof.
  induction ms as [|m ms IH]; intros pre toks err; cbn [tokenizeLoop];
    [discriminate|].
  pose proof (lineOf_snoc pre m) as HL.
  pose proof (lineStartOf_snoc pre m) as HS.
  unfold isNEWLINE in HL, HS.
  assert (Hnext : forall toks',
             isMISMATCH m = false ->
             tokenizeLoop code ms (lineOf (pre ++ [m]))
                          (lineStartOf (pre ++ [m])) toks' = LexErr err ->
             exists ms1 m' ms2,
               (m :: ms = ms1 ++ m' :: ms2)%list
               /\ Forall (fun m => isMISMATCH m = false) ms1
               /\ isMISMATCH m' = true
               /\ err = mkLexError (value code m') (lineOf (pre ++ ms1))
                                   (idx m' 0 - lineStartOf (pre ++ ms1))).
  { intros toks' Hm H. apply IH in H.
    destruct H as (ms1 & m' & ms2 & -> & H1 & H2 & ->).
    exists (m :: ms1), m', ms2. rewrite <- !app_assoc.
    repeat split; auto. }
  unfold isMISMATCH in Hnext at 1.
  destruct (String.eqb (tokType m) "SKIP") eqn:Eskip.
  { apply String.eqb_eq in Eskip. rewrite Eskip in *. simpl in HL, HS.
    rewrite <- HL, <- HS. now apply Hnext. }
  destruct (String.eqb (tokType m) "NEWLINE") eqn:Enl.
  { rewrite <- HL, <- HS. apply Hnext.
    apply String.eqb_eq in Enl. now rewrite Enl. }
  destruct (String.eqb (tokType m) "MISMATCH") eqn:Emis.
  - intros [= <-]. exists [], m, ms. rewrite app_nil_r.
    repeat split; auto.
  - rewrite <- HL, <- HS. now apply Hnext.
Qed.

(** What a failing [tokenize] returns. *)
Lemma tokenize_LexErr (code : string) (err : LexError) :
  tokenize code = LexErr err ->
  exists ms1 m ms2,
    matches code = (ms1 ++ m :: ms2)%list
    /\ Forall (fun m => isMISMATCH m = false) ms1
    /\ isMISMATCH m = true
    /\ err = mkLexError (value code m) (lineOf ms1)
                        (idx m 0 - lineStartOf ms1).
Proof.
  rewrite tokenize_matches. intros H.
  apply (tokenizeLoop_LexErr code (matches code) []) in H. exact H.
Qed.

(** [tokenize] never ends with the panic of [regexp.MustCompile]. *)
Lemma tokenize_no_panic (code : string) : tokenize code <> CompilePanic.
Proof.
  rewrite tokenize_matches. generalize 1, 0, (@nil Token).
  induction (matches code) as [|m ms IH]; intros line ls toks; simpl;
    [discriminate|].
  repeat match goal with
         | |- context [if ?b then _ else _] => destruct b
         end; auto; discriminate.
Qed.

(** ** The code generator *)

Section EmitFacts.

Variable ParseFloatOk : string -> bool.

Lemma cat_app (l1 l2 : list string) : cat (l1 ++ l2) = cat l1 ++ cat l2.
Proof.
  induction l1 as [|t l1 IH]; simpl; auto.
  now rewrite IH, append_assoc.
Qed.

(** Both sides are concatenations of the same pieces. *)
Ltac same_text :=
  unfold nl; repeat (progress (rewrite ?append_assoc; simpl));
  try reflexivity.

Lemma emitStatement_text (stmt : Node) (cg : CodeGenerator) :
  emitStatement ParseFloatOk stmt cg
  = WriteString (stmtText (indent cg) stmt) cg.
Proof.
  destruct stmt as [ | | VarType Name [v] | [v] | ]; simpl; auto.
  f_equal.
  destruct (String.eqb v EmptyString); simpl.
  - same_text.
  - destruct (ParseFloatOk v); same_text.
Qed.

Lemma emitBody_text (body : list Node) : forall cg,
  emitBody ParseFloatOk body cg
  = WriteString (cat (map (stmtText (indent cg)) body)) cg.
Proof.
  unfold emitBody.
  induction body as [|stmt body IH]; intros [a c i]; simpl.
  - unfold WriteString; simpl. now rewrite append_nil_r.
  - rewrite IH, emitStatement_text. unfold WriteString; simpl.
    now rewrite append_assoc.
Qed.

Lemma emitFunction_text RetType Name Params Body (cg : CodeGenerator) :
  emitFunction ParseFloatOk RetType Name Params Body cg
  = setIndent "    "
      (WriteString (functionText RetType Name (paramStrings Params) Body) cg).
Proof.
  unfold emitFunction. rewrite emitBody_text.
  destruct cg as [a c i]. unfold WriteString, setIndent, functionText; simpl.
  f_equal. same_text.
Qed.

Lemma emitField_text (mem : Node) (cg : CodeGenerator) :
  code (emitField mem cg) = code cg ++ fieldText mem
  /\ ast (emitField mem cg) = ast cg.
Proof.
  destruct mem; simpl; rewrite ?append_nil_r; auto.
Qed.

Lemma emitFields_text (Members : list Node) : forall cg,
  code (fold_left (fun cg mem => emitField mem cg) Members cg)
  = code cg ++ cat (map fieldText Members)
  /\ ast (fold_left (fun cg mem => emitField mem cg) Members cg) = ast cg.
Proof.
  induction Members as [|mem Members IH]; intros cg; simpl.
  - now rewrite append_nil_r.
  - destruct (IH (emitField mem cg)) as [-> ->].
    destruct (emitField_text mem cg) as [-> ->].
    now rewrite append_assoc.
Qed.

(** A method of a class: the text of the function. *)
Lemma emitMethod_text (clsName : string) (mem : Node) (cg : CodeGenerator) :
  code (emitMethod ParseFloatOk clsName mem cg)
  = code cg ++ methodText clsName mem
  /\ ast (emitMethod ParseFloatOk clsName mem cg) = ast cg.
Proof.
  destruct mem as [RetType Name Params Body | | | | ];
    try (simpl; rewrite ?append_nil_r; now auto).
  unfold emitMethod. rewrite emitBody_text.
  destruct cg as [a c i]. unfold WriteString, setIndent, methodText,
    functionText; simpl.
  split; [same_text|reflexivity].
Qed.

Lemma emitMethods_text (clsName : string) (Members : list Node) : forall cg,
  code (fold_left (fun cg mem => emitMethod ParseFloatOk clsName mem cg)
                  Members cg)
  = code cg ++ cat (map (methodText clsName) Members)
  /\ ast (fold_left (fun cg mem => emitMethod ParseFloatOk clsName mem cg)
                    Members cg) = ast cg.
Proof.
  induction Members as [|mem Members IH]; intros cg; simpl.
  - now rewrite append_nil_r.
  - destruct (IH (emitMethod ParseFloatOk clsName mem cg)) as [-> ->].
    destruct (emitMethod_text clsName mem cg) as [-> ->].
    now rewrite append_assoc.
Qed.

Lemma emitDecl_text (decl : Node) (cg : CodeGenerator) :
  code (emitDecl ParseFloatOk decl cg) = code cg ++ declText decl
  /\ ast (emitDecl ParseFloatOk decl cg) = ast cg.
Proof.
  destruct decl as [RetType Name Params Body | Name Parent Members | | | ];
    try (simpl; rewrite ?append_nil_r; now auto).
  - unfold emitDecl. rewrite emitFunction_text. destruct cg; simpl. auto.
  - unfold emitDecl, emitClass.
    match goal with
    | |- context [fold_left _ Members (WriteString ?s ?g)] =>
      destruct (emitMethods_text Name Members (WriteString s g)) as [-> ->]
    end.
    cbn [code ast WriteString].
    match goal with
    | |- context [fold_left _ Members ?g] =>
      destruct (emitFields_text Members g) as [-> ->]
    end.
    cbn [code ast WriteString declText]. split; [|reflexivity].
    rewrite !append_assoc. reflexivity.
Qed.

Lemma emitDecls_text (decls : list Node) : forall cg,
  code (fold_left (fun cg decl => emitDecl ParseFloatOk decl cg) decls cg)
  = code cg ++ cat (map declText decls).
Proof.
  induction decls as [|decl decls IH]; intros cg; simpl.
  - now rewrite append_nil_r.
  - rewrite IH. destruct (emitDecl_text decl cg) as [-> _].
    now rewrite append_assoc.
Qed.

(** The output of the generator is the include prelude followed by the
    text of each top-level declaration, whatever [strconv.ParseFloat]
    answers. *)
Lemma generate_text (p : Program) :
  generate ParseFloatOk p = includes ++ cat (map declText (Declarations p)).
Proof.
  unfold generate, generateFrom, emitIncludes. rewrite emitDecls_text.
  reflexivity.
Qed.

End EmitFacts.

(** C7, as amended.  [generate] has no failure path: for every Program,
    also one with nodes of other dynamic types, it returns the include
    prelude followed by the text of each top-level declaration.  A node of
    a function body that is neither a VarDecl nor a Statement gives the
    placeholder comment line; a top-level declaration that is neither a
    FunctionDecl nor a ClassDecl gives no text, and a class member of
    another type gives neither a field nor a function. *)
Theorem generate_total (ParseFloatOk : string -> bool) (p : Program) :
  generate ParseFloatOk p = includes ++ cat (map declText (Declarations p))
  /\ (forall ind stmt, isStatementNode stmt = false ->
        stmtText ind stmt = ind ++ placeholder ++ nl)
  /\ (forall decl, isDeclarationNode decl = false ->
        declText decl = EmptyString)
  /\ (forall cls mem, isMemberNode mem = false ->
        fieldText mem = EmptyString /\ methodText cls mem = EmptyString).
Proof.
  split; [apply generate_text|].
  repeat split; intros;
    match goal with
    | H : _ ?n = false |- _ => destruct n; try discriminate; reflexivity
    end.
Qed.

(** ** Lexing the generated text *)

(** The first line of the include prelude gives nine matches, and the
    switch takes the ninth, the newline, as MISMATCH. *)
Lemma tokenize_includes (rest : string) :
  tokenize (includes ++ rest) = LexErr (mkLexError nl 1 18).
Proof.
  rewrite tokenize_matches. unfold matches, FindAllStringSubmatchIndex.
  set (code := includes ++ rest).
  assert (Hfuel : exists fuel,
             (String.length code + 2 = 9 + fuel)%nat).
  { exists (String.length code - 7)%nat. subst code. simpl. lia. }
  destruct Hfuel as [fuel ->].
  cbn [Nat.add].
  do 9 (erewrite allMatches_step;
        [ | vm_compute; discriminate | subst code; vm_compute; reflexivity ];
        cbn [idx nth]).
  generalize (allMatches fuel compiled code 19 19). intros tl.
  subst code. vm_compute. reflexivity.
Qed.

(** ** The parser *)

Import Parser.

Lemma post_bind {A B : Type} (m : M A) (f : A -> M B) (pos : nat)
      (Q1 : A -> nat -> Prop) (Q2 : B -> nat -> Prop)
      (E : Fault -> Prop) (T : Prop) :
  post Q1 E T (m pos) ->
  (forall a p, Q1 a p -> post Q2 E T (f a p)) ->
  post Q2 E T (bind m f pos).
Proof.
  unfold bind. destruct (m pos); simpl; auto.
Qed.

Lemma post_weaken {A : Type} (Q1 Q2 : A -> nat -> Prop)
      (E : Fault -> Prop) (T : Prop) (o : Outcome A) :
  post Q1 E T o -> (forall a p, Q1 a p -> Q2 a p) -> post Q2 E T o.
Proof. destruct o; simpl; auto. Qed.

(** *** The shapes of the parsed nodes *)

Section Shapes.

Variable tokens : list Token.

(** Nothing is asked of a panic, nor of the bound of the model. *)
Abbreviation shaped Q := (post Q (fun _ => True) True).

Lemma shaped_any {A : Type} (o : Outcome A) : shaped (fun _ _ => True) o.
Proof. destruct o; simpl; auto. Qed.

(** One step of a method whose intermediate value is not constrained. *)
Ltac skip_step :=
  eapply post_bind; [apply shaped_any | intros ? ? _].

Lemma parseStatement_shape (pos : nat) :
  shaped (fun stmt _ => isStatementNode stmt = true)
         (parseStatement tokens pos).
Proof.
  unfold parseStatement.
  eapply post_bind; [apply shaped_any | intros isDecl p _].
  destruct isDecl; repeat skip_step; reflexivity.
Qed.

Lemma parseBlockLoop_shape (fuel : nat) : forall stmts pos,
  forallb isStatementNode stmts = true ->
  shaped (fun stmts' _ => forallb isStatementNode stmts' = true)
         (parseBlockLoop tokens fuel stmts pos).
Proof.
  induction fuel as [|fuel IH]; intros stmts pos Hs; cbn [parseBlockLoop];
    (eapply post_bind; [apply shaped_any | intros tok p _]);
    destruct (negb _); simpl; auto.
  eapply post_bind; [apply parseStatement_shape | intros stmt p' Hstmt].
  apply IH. rewrite forallb_app, Hs. simpl. now rewrite Hstmt.
Qed.

Lemma parseBlock_shape (pos : nat) :
  shaped (fun stmts _ => forallb isStatementNode stmts = true)
         (parseBlock tokens pos).
Proof.
  unfold parseBlock. skip_step.
  eapply post_bind; [now apply parseBlockLoop_shape | intros stmts p' Hs].
  skip_step. exact Hs.
Qed.

Lemma parseFunction_shape (pos : nat) :
  shaped (fun decl _ => parsedDecl decl = true) (parseFunction tokens pos).
Proof.
  unfold parseFunction. do 5 skip_step.
  eapply post_bind; [apply parseBlock_shape | intros stmts p' Hs].
  exact Hs.
Qed.

Lemma parseClass_shape (pos : nat) :
  shaped (fun decl _ => parsedDecl decl = true) (parseClass tokens pos).
Proof.
  unfold parseClass. do 4 skip_step.
  eapply post_bind; [apply parseBlock_shape | intros stmts p' Hs].
  exact Hs.
Qed.

Lemma parseLoop_shape (fuel : nat) : forall decls pos,
  forallb parsedDecl decls = true ->
  shaped (fun decls' _ => forallb parsedDecl decls' = true)
         (parseLoop tokens fuel decls pos).
Proof.
  induction fuel as [|fuel IH]; intros decls pos Hd; cbn [parseLoop];
    (eapply post_bind; [apply shaped_any | intros tok p _]);
    destruct (negb _); simpl; auto.
  eapply post_bind with (Q1 := fun decl _ => parsedDecl decl = true).
  - destruct (String.eqb (Value tok) "class");
      [apply parseClass_shape | apply parseFunction_shape].
  - intros decl p' Hdecl. apply IH.
    rewrite forallb_app, Hd. simpl. now rewrite Hdecl.
Qed.

End Shapes.

(** Every declaration that [parse] returns is a function or a class whose
    body holds VarDecl and Statement nodes only. *)
Lemma parse_shape (tokens : list Token) (p : Program) (pos : nat) :
  parse tokens = Done p pos -> forallb parsedDecl (Declarations p) = true.
Proof.
  unfold parse.
  pose proof (parseLoop_shape tokens (length tokens) [] 0%nat eq_refl) as H.
  destruct (parseLoop tokens (length tokens) [] 0%nat); try discriminate.
  intros [= <- <-]. exact H.
Qed.

Lemma statement_nodes (stmt : Node) :
  isStatementNode stmt = true -> nodes stmt = [stmt].
Proof. destruct stmt; simpl; auto; discriminate. Qed.

Lemma statements_nodes (stmts : list Node) :
  forallb isStatementNode stmts = true -> flat_map nodes stmts = stmts.
Proof.
  induction stmts as [|stmt stmts IH]; simpl; auto.
  intros H. apply andb_true_iff in H. destruct H as [H1 H2].
  now rewrite statement_nodes, IH.
Qed.

(** C8.  In a Program that [parse] returns, on any token sequence, every
    member of every ClassDecl of the tree is a VarDecl or a Statement: no
    member is a FunctionDecl, and the branch of [emitClass] that emits the
    methods has nothing to emit. *)
Theorem parsed_class_members
        (tokens : list Token) (p : Program) (pos : nat) :
  parse tokens = Done p pos ->
  forall decl Name Parent Members mem,
    In decl (Declarations p) ->
    In (ClassDecl Name Parent Members) (nodes decl) ->
    In mem Members ->
    isStatementNode mem = true
    /\ (forall RetType Name' Params Body,
          mem <> FunctionDecl RetType Name' Params Body)
    /\ methodText Name mem = EmptyString.
Proof.
  intros Hparse decl Name Parent Members mem Hdecl Hcls Hmem.
  apply parse_shape in Hparse.
  rewrite forallb_forall in Hparse. specialize (Hparse decl Hdecl).
  assert (Hstmt : isStatementNode mem = true).
  { destruct decl as [r n ps body | n par ms | | | ]; try discriminate;
      simpl in Hparse, Hcls; rewrite (statements_nodes _ Hparse) in Hcls;
      destruct Hcls as [Hcls|Hcls].
    - discriminate.
    - rewrite forallb_forall in Hparse. apply Hparse in Hcls. discriminate.
    - injection Hcls as -> -> ->.
      rewrite forallb_forall in Hparse. auto.
    - rewrite forallb_forall in Hparse. apply Hparse in Hcls. discriminate. }
  split; [exact Hstmt|].
  destruct mem; try discriminate; split; try discriminate; reflexivity.
Qed.

(** C8 on a class with a field and an expression statement. *)
Lemma parsed_class_members_witness :
  parse Point_tokens
  = Done (mkProgram
            [ClassDecl "Point" ""
               [VarDecl "int" "x" (mkExpression EmptyString);
                Statement (mkExpression "y")]]) 9
  /\ isStatementNode (Statement (mkExpression "y")) = true
  /\ (forall RetType Name' Params Body,
        Statement (mkExpression "y") <> FunctionDecl RetType Name' Params Body)
  /\ methodText "Point" (Statement (mkExpression "y")) = EmptyString.
Proof.
  split; [reflexivity|].
  apply (parsed_class_members Point_tokens _ 9%nat eq_refl
           (ClassDecl "Point" ""
              [VarDecl "int" "x" (mkExpression EmptyString);
               Statement (mkExpression "y")])
           "Point" ""
           [VarDecl "int" "x" (mkExpression EmptyString);
            Statement (mkExpression "y")]
           (Statement (mkExpression "y")));
    simpl; auto.
Defined.

(** *** The bound of the loops of the parser

    On any token sequence, the loops of the model end before their bound:
    every round moves the cursor forward, and a round starts only with the
    cursor inside the slice. *)

Section Progress.

Variable tokens : list Token.

(** A value comes with the cursor moved as [Q] says; a panic may be any,
    and the bound is not hit. *)
Abbreviation moved Q := (post Q (fun _ => True) False).

Lemma current_moved (pos : nat) :
  moved (fun _ p => p = pos /\ (pos < length tokens)%nat)
        (current tokens pos).
Proof.
  unfold current, tokenAt.
  destruct (nth_error tokens pos) eqn:E; simpl; auto.
  split; auto. apply nth_error_Some. congruence.
Qed.

Lemma consume_moved (expectedType : list string) (pos : nat) :
  moved (fun _ p => p = S pos) (consume tokens expectedType pos).
Proof.
  unfold consume.
  eapply post_bind; [apply current_moved | intros tok p [-> _]].
  destruct (_ && _); simpl; auto.
Qed.

Lemma parseExpression_moved (pos : nat) :
  moved (fun _ p => p = S pos) (parseExpression tokens pos).
Proof.
  unfold parseExpression.
  eapply post_bind; [apply consume_moved | intros tok p ->].
  destruct (_ || _); simpl; auto.
Qed.

Lemma twoIDs_moved (pos : nat) :
  moved (fun _ p => p = pos) (twoIDs tokens pos).
Proof.
  unfold twoIDs.
  eapply post_bind; [apply current_moved | intros tok p [-> _]].
  destruct (String.eqb (Type_ tok) "ID"); simpl; auto.
  unfold bind, getPos, tokenAt.
  destruct (nth_error tokens (pos + 1)); simpl; auto.
Qed.

Lemma parseStatement_moved (pos : nat) :
  moved (fun _ p => (pos < p)%nat) (parseStatement tokens pos).
Proof.
  unfold parseStatement.
  eapply post_bind; [apply twoIDs_moved | intros isDecl p ->].
  destruct isDecl.
  - eapply post_bind; [apply consume_moved | intros ? p1 ->].
    eapply post_bind; [apply consume_moved | intros ? p2 ->].
    eapply post_bind; [apply current_moved | intros tok p3 [-> _]].
    eapply post_bind with (Q1 := fun _ p => (pos < p)%nat).
    + destruct (String.eqb (Value tok) "=").
      * eapply post_bind; [apply consume_moved | intros ? p4 ->].
        eapply post_weaken; [apply parseExpression_moved|].
        simpl. intros. lia.
      * simpl. lia.
    + intros def p5 H5.
      eapply post_bind; [apply consume_moved | intros ? p6 ->].
      simpl. lia.
  - eapply post_bind; [apply parseExpression_moved | intros e p1 ->].
    eapply post_bind; [apply consume_moved | intros ? p2 ->].
    simpl. lia.
Qed.

Lemma parseBlockLoop_moved (fuel : nat) : forall stmts pos,
  (length tokens <= fuel + pos)%nat ->
  moved (fun _ p => (pos <= p)%nat) (parseBlockLoop tokens fuel stmts pos).
Proof.
  induction fuel as [|fuel IH]; intros stmts pos Hfuel; cbn [parseBlockLoop];
    (eapply post_bind; [apply current_moved | intros tok p [-> Hpos]]);
    (destruct (negb _); [|simpl; lia]).
  - simpl in Hfuel. lia.
  - eapply post_bind; [apply parseStatement_moved | intros stmt p1 H1].
    cbv beta in H1.
    eapply post_weaken; [apply IH; lia|].
    simpl. intros. lia.
Qed.

Lemma parseBlock_moved (pos : nat) :
  moved (fun _ p => (pos < p)%nat) (parseBlock tokens pos).
Proof.
  unfold parseBlock.
  eapply post_bind; [apply consume_moved | intros ? p1 ->].
  eapply post_bind; [apply parseBlockLoop_moved; lia | intros stmts p2 H2].
  cbv beta in H2.
  eapply post_bind; [apply consume_moved | intros ? p3 ->].
  simpl. lia.
Qed.

Lemma parseParamsLoop_moved (fuel : nat) : forall params pos,
  (length tokens <= fuel + pos)%nat ->
  moved (fun _ p => (pos < p)%nat) (parseParamsLoop tokens fuel params pos).
Proof.
  induction fuel as [|fuel IH]; intros params pos Hfuel;
    cbn [parseParamsLoop];
    (eapply post_bind; [apply consume_moved | intros ? p1 ->]);
    (eapply post_bind; [apply consume_moved | intros ? p2 ->]);
    (eapply post_bind; [apply current_moved | intros tok p3 [-> Hpos]]);
    (destruct (String.eqb (Type_ tok) "COMMA"); [|simpl; lia]);
    (eapply post_bind; [apply consume_moved | intros ? p4 ->]).
  - simpl in Hfuel. lia.
  - eapply post_weaken; [apply IH; lia|].
    simpl. intros. lia.
Qed.

Lemma parseParams_moved (pos : nat) :
  moved (fun _ p => (pos <= p)%nat) (parseParams tokens pos).
Proof.
  unfold parseParams.
  eapply post_bind; [apply current_moved | intros tok p [-> _]].
  destruct (String.eqb (Type_ tok) "RPAREN"); [simpl; lia|].
  eapply post_weaken; [apply parseParamsLoop_moved; lia|].
  simpl. intros. lia.
Qed.

Lemma parseFunction_moved (pos : nat) :
  moved (fun _ p => (pos < p)%nat) (parseFunction tokens pos).
Proof.
  unfold parseFunction.
  eapply post_bind; [apply consume_moved | intros ? p1 ->].
  eapply post_bind; [apply consume_moved | intros ? p2 ->].
  eapply post_bind; [apply consume_moved | intros ? p3 ->].
  eapply post_bind; [apply parseParams_moved | intros ? p4 H4].
  cbv beta in H4.
  eapply post_bind; [apply consume_moved | intros ? p5 ->].
  eapply post_bind; [apply parseBlock_moved | intros ? p6 H6].
  cbv beta in H6. simpl. lia.
Qed.

Lemma parseClass_moved (pos : nat) :
  moved (fun _ p => (pos < p)%nat) (parseClass tokens pos).
Proof.
  unfold parseClass.
  eapply post_bind; [apply consume_moved | intros ? p1 ->].
  eapply post_bind; [apply consume_moved | intros ? p2 ->].
  eapply post_bind; [apply current_moved | intros tok p3 [-> _]].
  eapply post_bind with (Q1 := fun _ p => (pos < p)%nat).
  - destruct (String.eqb (Type_ tok) "COLON"); [|simpl; lia].
    eapply post_bind; [apply consume_moved | intros ? p4 ->].
    eapply post_bind; [apply consume_moved | intros ? p5 ->].
    simpl. lia.
  - intros parent p6 H6.
    eapply post_bind; [apply parseBlock_moved | intros members p7 H7].
    cbv beta in H7. simpl. lia.
Qed.

Lemma parseLoop_moved (fuel : nat) : forall decls pos,
  (length tokens <= fuel + pos)%nat ->
  moved (fun _ _ => True) (parseLoop tokens fuel decls pos).
Proof.
  induction fuel as [|fuel IH]; intros decls pos Hfuel; cbn [parseLoop];
    (eapply post_bind; [apply current_moved | intros tok p [-> Hpos]]);
    (destruct (negb _); [|simpl; auto]).
  - simpl in Hfuel. lia.
  - eapply post_bind with (Q1 := fun _ p => (pos < p)%nat).
    + destruct (String.eqb (Value tok) "class");
        [apply parseClass_moved | apply parseFunction_moved].
    + intros decl p1 H1. apply IH. lia.
Qed.

End Progress.

(** [parse] returns or panics on every token sequence: the bound of the
    model is never what ends it. *)
Lemma parse_fuel (tokens : list Token) : parse tokens <> OutOfFuel.
Proof.
  unfold parse.
  pose proof (parseLoop_moved tokens (length tokens) [] 0%nat) as H.
  specialize (H ltac:(lia)).
  destruct (parseLoop tokens (length tokens) [] 0%nat); simpl in *;
    auto; discriminate.
Qed.

(** *** The cursor stays inside the token slice *)

Section Bounds.

(** A token slice that ends with the end marker, as [tokenize] returns
    it. *)
Variable body : list Token.
Variables line column : Z.

Let eof : Token := mkToken "EOF" EmptyString line column.
Let tokens : list Token := (body ++ [eof])%list.
Let len : nat := length tokens.

(** No index panic, and the bound of the model is not hit. *)
Abbreviation safe Q := (post Q explicit False).

Lemma len_eq : len = S (length body).
Proof. unfold len, tokens. rewrite length_app. simpl. lia. Qed.

Lemma tokenAt_inside (i pos : nat) :
  (i < len)%nat ->
  exists tok, nth_error tokens i = Some tok
              /\ tokenAt tokens i pos = Done tok pos
              /\ (i = length body -> tok = eof).
Proof.
  intros Hi. unfold tokenAt.
  destruct (nth_error tokens i) as [tok|] eqn:E.
  - exists tok. repeat split. intros ->. unfold tokens in E.
    rewrite nth_error_app2, Nat.sub_diag in E by lia. now injection E.
  - apply nth_error_None in E. fold len in E. lia.
Qed.

Lemma current_safe (pos : nat) :
  (pos < len)%nat ->
  safe (fun tok p => p = pos /\ (pos = length body -> tok = eof))
       (current tokens pos).
Proof.
  intros Hpos. unfold current.
  destruct (tokenAt_inside pos pos Hpos) as (tok & _ & -> & H). simpl. auto.
Qed.

(** With an expectation, [consume] does not step over the end marker. *)
Lemma consume_safe (expectedType : list string) (pos : nat) :
  notEOF expectedType = true ->
  (pos < len)%nat ->
  safe (fun _ p => p = S pos /\ (S pos < len)%nat)
       (consume tokens expectedType pos).
Proof.
  intros Hexp Hpos. unfold consume.
  eapply post_bind; [now apply current_safe | intros tok p [-> Htok]].
  unfold notEOF in Hexp. apply andb_true_iff in Hexp.
  destruct Hexp as [Hne Hexp]. rewrite Hne. cbn [andb].
  match goal with
  | |- context [negb (existsb ?f expectedType)] =>
    destruct (existsb f expectedType) eqn:Ematch
  end; simpl; auto.
  split; auto.
  destruct (Nat.eq_dec pos (length body)) as [Heq|Hneq];
    [|rewrite len_eq in *; lia].
  rewrite (Htok Heq) in Ematch.
  change (existsb (fun typ => String.eqb "EOF" typ
                              || String.eqb EmptyString typ)
                  expectedType = true) in Ematch.
  rewrite Ematch in Hexp. discriminate.
Qed.

(** Without one, it steps over any token. *)
Lemma consume_any_safe (pos : nat) :
  (pos < len)%nat ->
  safe (fun tok p => p = S pos /\ (pos = length body -> tok = eof))
       (consume tokens [] pos).
Proof.
  intros Hpos. unfold consume.
  eapply post_bind; [now apply current_safe | intros tok p [-> Htok]].
  simpl. auto.
Qed.

Lemma parseExpression_safe (pos : nat) :
  (pos < len)%nat ->
  safe (fun _ p => p = S pos /\ (S pos < len)%nat)
       (parseExpression tokens pos).
Proof.
  intros Hpos. unfold parseExpression.
  eapply post_bind; [now apply consume_any_safe | intros tok p [-> Htok]].
  destruct (_ || _) eqn:E; simpl; auto.
  split; auto.
  destruct (Nat.eq_dec pos (length body)) as [Heq|Hneq];
    [|rewrite len_eq in *; lia].
  rewrite (Htok Heq) in E. discriminate.
Qed.

(** The lookahead reads the next token only when the current one is not
    the end marker. *)
Lemma twoIDs_safe (pos : nat) :
  (pos < len)%nat -> safe (fun _ p => p = pos) (twoIDs tokens pos).
Proof.
  intros Hpos. unfold twoIDs.
  eapply post_bind; [now apply current_safe | intros tok p [-> Htok]].
  destruct (String.eqb (Type_ tok) "ID") eqn:E; simpl; auto.
  assert (Hnext : (pos + 1 < len)%nat).
  { destruct (Nat.eq_dec pos (length body)) as [Heq|Hneq];
      [|rewrite len_eq in *; lia].
    rewrite (Htok Heq) in E. discriminate. }
  unfold bind, getPos.
  destruct (tokenAt_inside (pos + 1) pos Hnext) as (next & _ & -> & _).
  reflexivity.
Qed.

(** Arithmetic on the positions, with the conditions of the earlier
    steps unfolded. *)
Ltac arith := cbv beta in *; simpl; intros; lia.

Lemma parseStatement_safe (pos : nat) :
  (pos < len)%nat ->
  safe (fun _ p => (pos < p < len)%nat) (parseStatement tokens pos).
Proof.
  intros Hpos. unfold parseStatement.
  eapply post_bind; [now apply twoIDs_safe | intros isDecl p ->].
  destruct isDecl.
  - eapply post_bind; [now apply consume_safe | intros varType p1 [-> H1]].
    eapply post_bind; [now apply consume_safe | intros varName p2 [-> H2]].
    eapply post_bind; [now apply current_safe | intros tok p3 [-> _]].
    eapply post_bind
      with (Q1 := fun _ p => (S (S pos) <= p < len)%nat).
    + destruct (String.eqb (Value tok) "=").
      * eapply post_bind; [now apply consume_safe | intros ? p4 [-> H4]].
        eapply post_weaken; [now apply parseExpression_safe|].
        simpl. intros ? ? [-> ?]. arith.
      * simpl. arith.
    + intros def p5 H5.
      eapply post_bind;
        [apply consume_safe; [reflexivity|arith] | intros ? p6 [-> H6]].
      simpl. arith.
  - eapply post_bind; [now apply parseExpression_safe | intros e p1 [-> H1]].
    eapply post_bind; [now apply consume_safe | intros ? p2 [-> H2]].
    simpl. arith.
Qed.

Lemma parseBlockLoop_safe (fuel : nat) : forall stmts pos,
  (pos < len)%nat -> (len <= fuel + pos)%nat ->
  safe (fun _ p => (pos <= p < len)%nat)
       (parseBlockLoop tokens fuel stmts pos).
Proof.
  induction fuel as [|fuel IH]; intros stmts pos Hpos Hfuel; [arith|].
  cbn [parseBlockLoop].
  eapply post_bind; [now apply current_safe | intros tok p [-> _]].
  destruct (negb _); [|simpl; arith].
  eapply post_bind; [now apply parseStatement_safe | intros stmt p1 H1].
  eapply post_weaken; [apply IH; arith|].
  simpl. intros. arith.
Qed.

Lemma parseBlock_safe (pos : nat) :
  (pos < len)%nat ->
  safe (fun _ p => (pos < p < len)%nat) (parseBlock tokens pos).
Proof.
  intros Hpos. unfold parseBlock.
  eapply post_bind; [now apply consume_safe | intros ? p1 [-> H1]].
  eapply post_bind;
    [apply parseBlockLoop_safe; [exact H1 | fold len; arith]
    | intros stmts p2 H2].
  eapply post_bind;
    [apply consume_safe; [reflexivity|arith] | intros ? p3 [-> H3]].
  simpl. arith.
Qed.

Lemma parseParamsLoop_safe (fuel : nat) : forall params pos,
  (pos < len)%nat -> (len <= fuel + pos + 3)%nat ->
  safe (fun _ p => (pos < p < len)%nat)
       (parseParamsLoop tokens fuel params pos).
Proof.
  induction fuel as [|fuel IH]; intros params pos Hpos Hfuel;
    cbn [parseParamsLoop];
    (eapply post_bind; [now apply consume_safe | intros ? p1 [-> H1]]);
    (eapply post_bind; [now apply consume_safe | intros ? p2 [-> H2]]);
    (eapply post_bind; [now apply current_safe | intros tok p3 [-> _]]);
    (destruct (String.eqb (Type_ tok) "COMMA"); [|simpl; arith]);
    (eapply post_bind; [now apply consume_safe | intros ? p4 [-> H4]]).
  - arith.
  - eapply post_weaken; [apply IH; arith|].
    simpl. intros. arith.
Qed.

Lemma parseParams_safe (pos : nat) :
  (pos < len)%nat ->
  safe (fun _ p => (pos <= p < len)%nat) (parseParams tokens pos).
Proof.
  intros Hpos. unfold parseParams.
  eapply post_bind; [now apply current_safe | intros tok p [-> _]].
  destruct (String.eqb (Type_ tok) "RPAREN"); [simpl; arith|].
  eapply post_weaken; [apply parseParamsLoop_safe; [auto|fold len; arith]|].
  simpl. intros. arith.
Qed.

Lemma parseFunction_safe (pos : nat) :
  (pos < len)%nat ->
  safe (fun _ p => (pos < p < len)%nat) (parseFunction tokens pos).
Proof.
  intros Hpos. unfold parseFunction.
  eapply post_bind; [now apply consume_safe | intros ? p1 [-> H1]].
  eapply post_bind; [now apply consume_safe | intros ? p2 [-> H2]].
  eapply post_bind; [now apply consume_safe | intros ? p3 [-> H3]].
  eapply post_bind; [now apply parseParams_safe | intros ? p4 H4].
  eapply post_bind;
    [apply consume_safe; [reflexivity|arith] | intros ? p5 [-> H5]].
  eapply post_bind; [now apply parseBlock_safe | intros ? p6 H6].
  arith.
Qed.

Lemma parseClass_safe (pos : nat) :
  (pos < len)%nat ->
  safe (fun _ p => (pos < p < len)%nat) (parseClass tokens pos).
Proof.
  intros Hpos. unfold parseClass.
  eapply post_bind; [now apply consume_safe | intros ? p1 [-> H1]].
  eapply post_bind; [now apply consume_safe | intros ? p2 [-> H2]].
  eapply post_bind; [now apply current_safe | intros tok p3 [-> _]].
  eapply post_bind with (Q1 := fun _ p => (S (S pos) <= p < len)%nat).
  - destruct (String.eqb (Type_ tok) "COLON"); [|simpl; arith].
    eapply post_bind; [now apply consume_safe | intros ? p4 [-> H4]].
    eapply post_bind; [now apply consume_safe | intros ? p5 [-> H5]].
    simpl. arith.
  - intros parent p6 H6.
    eapply post_bind;
      [apply parseBlock_safe; arith | intros members p7 H7].
    simpl. arith.
Qed.

Lemma parseLoop_safe (fuel : nat) : forall decls pos,
  (pos < len)%nat -> (len <= fuel + pos)%nat ->
  safe (fun _ p => (p < len)%nat) (parseLoop tokens fuel decls pos).
Proof.
  induction fuel as [|fuel IH]; intros decls pos Hpos Hfuel; [arith|].
  cbn [parseLoop].
  eapply post_bind; [now apply current_safe | intros tok p [-> _]].
  destruct (negb _); [|simpl; arith].
  eapply post_bind with (Q1 := fun _ p => (pos < p < len)%nat).
  - destruct (String.eqb (Value tok) "class");
      [now apply parseClass_safe | now apply parseFunction_safe].
  - intros decl p1 H1. apply IH; arith.
Qed.

(** On a token slice that ends with the end marker, [parse] returns a
    Program with the cursor inside the slice, or raises one of its two
    explicit panics. *)
Lemma parse_safe : safe (fun _ p => (p < len)%nat) (parse tokens).
Proof.
  unfold parse.
  pose proof (parseLoop_safe (length tokens) [] 0%nat) as H.
  fold len in H. rewrite len_eq in H.
  specialize (H ltac:(lia) ltac:(lia)). rewrite <- len_eq in H.
  unfold len in H.
  destruct (parseLoop tokens (length tokens) [] 0%nat); simpl in *; auto.
Qed.

End Bounds.

(** C10.  On the token sequence of a successful [tokenize], which ends with
    the end marker, [parse] never reads outside the sequence: every read of
    the current token, every [consume] and the lookahead at [pos+1] are in
    bounds, so [parse] either returns a Program, with the cursor on a token
    of the sequence, or aborts with one of its explicit faults; the bound
    of the model's loops is not reached. *)
Theorem parse_in_bounds (code : string) (tokens : list Token) :
  tokenize code = Tokens tokens ->
  match parse tokens with
  | Done _ pos => (pos < length tokens)%nat
  | Panic f => explicit f
  | OutOfFuel => False
  end.
Proof.
  intros H. apply tokenize_Tokens in H. destruct H as [-> _].
  exact (parse_safe _ _ _).
Qed.

(** C10 on a text that [tokenize] and [parse] both accept. *)
Lemma parse_in_bounds_witness :
  tokenize accepted_source
  = Tokens [ mkToken "LPAREN" "ID" 1 0;
             mkToken "ID" (dquote ++ "f" ++ dquote) 1 2;
             mkToken "LPAREN" "x" 1 5; mkToken "RPAREN" "+" 1 6;
             mkToken "LBRACE" "(" 1 7;
             mkToken "ID" (dquote ++ "s" ++ dquote) 1 8;
             mkToken "LPAREN" "SEMICOLON" 1 11; mkToken "RBRACE" ")" 1 20;
             mkToken "EOF" EmptyString 1 0 ]
  /\ match parse [ mkToken "LPAREN" "ID" 1 0;
                   mkToken "ID" (dquote ++ "f" ++ dquote) 1 2;
                   mkToken "LPAREN" "x" 1 5; mkToken "RPAREN" "+" 1 6;
                   mkToken "LBRACE" "(" 1 7;
                   mkToken "ID" (dquote ++ "s" ++ dquote) 1 8;
                   mkToken "LPAREN" "SEMICOLON" 1 11;
                   mkToken "RBRACE" ")" 1 20;
                   mkToken "EOF" EmptyString 1 0 ] with
     | Done _ pos => (pos < 9)%nat
     | Panic f => explicit f
     | OutOfFuel => False
     end.
Proof.
  assert (H : tokenize accepted_source
              = Tokens [ mkToken "LPAREN" "ID" 1 0;
                         mkToken "ID" (dquote ++ "f" ++ dquote) 1 2;
                         mkToken "LPAREN" "x" 1 5; mkToken "RPAREN" "+" 1 6;
                         mkToken "LBRACE" "(" 1 7;
                         mkToken "ID" (dquote ++ "s" ++ dquote) 1 8;
                         mkToken "LPAREN" "SEMICOLON" 1 11;
                         mkToken "RBRACE" ")" 1 20;
                         mkToken "EOF" EmptyString 1 0 ])
    by (vm_compute; reflexivity).
  split; [exact H|].
  exact (parse_in_bounds accepted_source _ H).
Defined.

(** The pipeline on that text: a function named by a string literal. *)
Lemma compile_accepted :
  compile noFloat accepted_source
  = Generated (includes ++ "ID " ++ dquote ++ "f" ++ dquote ++ "() {" ++ nl
               ++ "    " ++ dquote ++ "s" ++ dquote ++ ";" ++ nl
               ++ "}" ++ nl ++ nl).
Proof. vm_compute. reflexivity. Qed.

(** ** The pipeline on the sample inputs *)

(** C3, as amended.  For every Program, lexing the text that the generator
    returns for it ends with a LexError on line 1: the text starts with the
    include prelude, whose first line the lexer does not accept. *)
Theorem relex_generated (ParseFloatOk : string -> bool) (p : Program) :
  exists err,
    tokenize (generate ParseFloatOk p) = LexErr err /\ errLine err = 1.
Proof.
  rewrite generate_text, tokenize_includes. eauto.
Qed.

(** C3 as stated fails, already on the empty Program. *)
Lemma relex_generated_counterexample :
  tokenize (generate noFloat (mkProgram [])) = LexErr (mkLexError nl 1 18).
Proof. vm_compute. reflexivity. Qed.

(** C7 as stated fails: a top-level node and a class member of
    an unknown dynamic type leave no placeholder in the output. *)
Lemma placeholder_counterexample :
  generate noFloat
    (mkProgram [OtherNode "Expression"; ClassDecl "C" "" [OtherNode "Param"]])
  = includes ++ "typedef struct C {" ++ nl ++ "} C;" ++ nl ++ nl
  /\ index 0 placeholder
       (generate noFloat
          (mkProgram [OtherNode "Expression";
                      ClassDecl "C" "" [OtherNode "Param"]]))
     = None.
Proof. vm_compute. split; reflexivity. Qed.

(** The amended C7 on a Program with an unknown statement and an unknown
    declaration. *)
Lemma generate_total_witness :
  generate noFloat
    (mkProgram [FunctionDecl "void" "f" [] [OtherNode "Param"];
                OtherNode "Expression"])
  = includes ++ "void f() {" ++ nl ++ "    " ++ placeholder ++ nl
    ++ "}" ++ nl ++ nl
  /\ isStatementNode (OtherNode "Param") = false
  /\ stmtText "    " (OtherNode "Param") = "    " ++ placeholder ++ nl
  /\ isDeclarationNode (OtherNode "Expression") = false
  /\ declText (OtherNode "Expression") = EmptyString.
Proof.
  pose proof (generate_total noFloat
                (mkProgram [FunctionDecl "void" "f" [] [OtherNode "Param"];
                            OtherNode "Expression"])) as (H1 & H2 & H3 & _).
  split; [rewrite H1; reflexivity|].
  split; [reflexivity|].
  split; [exact (H2 "    " (OtherNode "Param") eq_refl)|].
  split; [reflexivity|].
  exact (H3 (OtherNode "Expression") eq_refl).
Defined.

(** C2, as amended.  On the tokens of [int add(int a, int b) { return a; }],
    with the kinds that [tokenSpecs] names, [parse] returns a Program whose
    single declaration is a FunctionDecl with the return type [int], the
    name [add], the two parameters [(int,a)] and [(int,b)], and one body
    statement, which is a VarDecl of type [return] and name [a] without a
    default: [return] is an identifier, and two identifiers in a row are
    taken as a variable declaration. *)
Theorem parse_add :
  parse add_tokens
  = Done (mkProgram
            [FunctionDecl "int" "add" [mkParam "int" "a"; mkParam "int" "b"]
               [VarDecl "return" "a" (mkExpression EmptyString)]]) 14.
Proof. reflexivity. Qed.

(** C2 as stated fails: the body statement is not an expression
    statement, neither on these tokens nor on the tokens that [tokenize]
    returns for the text, which [parse] rejects at the first of them. *)
Lemma parse_add_counterexample :
  ~ (exists e pos,
       parse add_tokens
       = Done (mkProgram
                 [FunctionDecl "int" "add"
                    [mkParam "int" "a"; mkParam "int" "b"] [Statement e]])
              pos)
  /\ compile noFloat add_source
     = ParsingError (Expected ["ID"] (mkToken "LPAREN" "int" 1 0)).
Proof.
  split.
  - intros (e & pos & H). vm_compute in H. discriminate.
  - vm_compute. reflexivity.
Qed.

(** The text that the generator gives for that declaration. *)
Lemma generate_add :
  generate noFloat
    (mkProgram
       [FunctionDecl "int" "add" [mkParam "int" "a"; mkParam "int" "b"]
          [VarDecl "return" "a" (mkExpression EmptyString)]])
  = includes ++ "int add(int a, int b) {" ++ nl ++ "    return a;" ++ nl
    ++ "}" ++ nl ++ nl.
Proof. vm_compute. reflexivity. Qed.

(** C1, the code at the failing input.  The pipeline stops in the parser:
    [tokenize] gives the kind LPAREN to the identifier [class], which
    [consume("ID")] rejects.  With the kinds that [tokenSpecs] names, the
    parser stops at the parenthesis after [int get]: the members of a class
    are parsed by [parseStatement], which knows no function declaration.
    The generator does emit the struct and the function [Foo_get] from the
    tree that the property describes. *)
Theorem compile_Foo :
  compile noFloat Foo_source
  = ParsingError (Expected ["ID"] (mkToken "LPAREN" "class" 1 0))
  /\ parse Foo_tokens
     = Panic (Expected ["SEMICOLON"] (mkToken "LPAREN" "(" 1 32))
  /\ generate noFloat Foo_program
     = includes ++ "typedef struct Foo {" ++ nl ++ "    int x;" ++ nl
       ++ "} Foo;" ++ nl ++ nl
       ++ "int Foo_get(Foo* this) {" ++ nl ++ "    x;" ++ nl
       ++ "}" ++ nl ++ nl.
Proof. vm_compute. repeat split; reflexivity. Qed.

(** The property of the specification on a function without parameters
    holds on the tokens with the kinds that [tokenSpecs] names. *)
Lemma parse_noop :
  parse [ mkToken "ID" "void" 1 0; mkToken "ID" "noop" 1 5;
          mkToken "LPAREN" "(" 1 9; mkToken "RPAREN" ")" 1 10;
          mkToken "LBRACE" "{" 1 12; mkToken "RBRACE" "}" 1 14;
          mkToken "EOF" EmptyString 1 0 ]
  = Done (mkProgram [FunctionDecl "void" "noop" [] []]) 6
  /\ generate noFloat (mkProgram [FunctionDecl "void" "noop" [] []])
     = includes ++ "void noop() {" ++ nl ++ "}" ++ nl ++ nl.
Proof. vm_compute. split; reflexivity. Qed.

(** * Further properties *)

(** ** The groups of a match *)

Lemma idx_set_other (i j : nat) (v : Z) (m : Match) :
  i <> j -> idx (set i v m) j = idx m j.
Proof.
  unfold idx. revert i j; induction m as [|x m IH]; intros [|i] [|j] H;
    simpl; auto; try congruence.
Qed.

Lemma idx_set_same (i : nat) (v : Z) (m : Match) :
  (i < length m)%nat -> idx (set i v m) i = v.
Proof.
  unfold idx. revert i; induction m as [|x m IH]; intros [|i] H;
    simpl in *; auto; try lia. apply IH. lia.
Qed.

Lemma idx_setCap_other (g j : nat) (b e : Z) (m : Match) :
  j <> (2 * g)%nat -> j <> (2 * g + 1)%nat ->
  idx (setCap g b e m) j = idx m j.
Proof.
  intros H1 H2. unfold setCap. rewrite !idx_set_other; auto.
Qed.

Lemma idx_setCap_same (g : nat) (b e : Z) (m : Match) :
  (2 * g + 1 < length m)%nat ->
  idx (setCap g b e m) (2 * g) = b /\ idx (setCap g b e m) (2 * g + 1) = e.
Proof.
  intros H. unfold setCap. split.
  - rewrite idx_set_other by lia. apply idx_set_same. lia.
  - apply idx_set_same. rewrite set_length. lia.
Qed.

Lemma untouched_refl gs m : untouched gs m m.
Proof. intros j _. reflexivity. Qed.

Lemma untouched_trans gs m1 m2 m3 :
  untouched gs m1 m2 -> untouched gs m2 m3 -> untouched gs m1 m3.
Proof. intros H1 H2 j Hj. rewrite H2, H1; auto. Qed.

Lemma untouched_incl gs gs' m m' :
  incl gs gs' -> untouched gs m m' -> untouched gs' m m'.
Proof. intros Hi H j Hj. apply H. intros g Hg. apply Hj, Hi, Hg. Qed.

Lemma rune1_frames (re : Regexp) (p : N -> bool) s pos m k r :
  rune1 p s pos m k = Some r -> frames re s pos m k r.
Proof.
  unfold rune1.
  destruct (utf8.DecodeRuneInString s) as [c w] eqn:E.
  pose proof (DecodeRuneInString_width s) as [Hle _]. rewrite E in Hle.
  simpl in Hle.
  destruct w as [|w]; [discriminate|].
  destruct (p c); [|discriminate].
  intros H. exists (S w), m. repeat split; auto; try apply untouched_refl.
Qed.

Lemma star_frames (re : Regexp)
      (body : string -> Z -> Match -> cont -> option Match) :
  (forall s pos m k r, body s pos m k = Some r -> frames re s pos m k r) ->
  forall fuel s pos m k r,
    star body fuel s pos m k = Some r -> frames re s pos m k r.
Proof.
  intros Hbody fuel.
  assert (Hhere : forall s pos m k r,
             k s pos m = Some r -> frames re s pos m k r).
  { intros s pos m k r H. exists O, m. rewrite Z.add_0_r.
    repeat split; auto; try lia; try apply untouched_refl. }
  induction fuel as [|fuel IH]; intros s pos m k r; simpl; auto.
  destruct (body s pos m _) as [r'|] eqn:E; auto.
  intros [= ->]. apply Hbody in E.
  destruct E as (n1 & m1 & Hn1 & Hl1 & Hu1 & Hk).
  destruct (pos <? pos + Z.of_nat n1); [|discriminate].
  apply IH in Hk. destruct Hk as (n2 & m2 & Hn2 & Hl2 & Hu2 & Hk).
  rewrite drop_length in Hn2. rewrite drop_drop in Hk.
  exists (n1 + n2)%nat, m2. repeat split; try lia; try congruence.
  - eapply untouched_trans; eauto.
  - rewrite Nat2Z.inj_add, Z.add_assoc. exact Hk.
Qed.

Lemma frames_incl re re' s pos m k r :
  incl (groups re) (groups re') ->
  frames re s pos m k r -> frames re' s pos m k r.
Proof.
  intros Hi (n & m' & ? & ? & Hu & ?). exists n, m'.
  repeat split; auto. eapply untouched_incl; eauto.
Qed.

(** A successful run leaves the entries of the groups outside the
    expression as they were. *)
Lemma run_frames re : forall s pos m k r,
  run re s pos m k = Some r -> frames re s pos m k r.
Proof.
  induction re as [ | c | neg rs | | cap name sub IH | sub IH | sub IH
                    | sub IH | a IHa b IHb | a IHa b IHb ];
    intros s pos m k r; simpl;
    try (now apply rune1_frames).
  - intros H. exists O, m. rewrite Z.add_0_r.
    repeat split; auto; try lia; try apply untouched_refl.
  - intros H. apply IH in H. destruct H as (n & m' & Hn & Hl & Hu & Hk).
    exists n, (setCap cap pos (pos + Z.of_nat n) m').
    rewrite setCap_length. repeat split; auto.
    intros j Hj. simpl in Hj.
    destruct (Hj cap (or_introl eq_refl)) as [H1 H2].
    rewrite idx_setCap_other by auto. apply Hu.
    intros g Hg. apply Hj. now right.
  - intros H. apply (star_frames (OpStar sub)) in H; auto.
  - intros H. apply IH in H. destruct H as (n1 & m1 & Hn1 & Hl1 & Hu1 & Hk).
    apply (star_frames sub) in Hk; auto.
    destruct Hk as (n2 & m2 & Hn2 & Hl2 & Hu2 & Hk).
    rewrite drop_length in Hn2. rewrite drop_drop in Hk.
    exists (n1 + n2)%nat, m2. repeat split; try lia; try congruence.
    + eapply untouched_trans; eauto.
    + rewrite Nat2Z.inj_add, Z.add_assoc. exact Hk.
  - destruct (run sub s pos m k) as [r'|] eqn:E.
    + intros [= ->]. now apply IH in E.
    + intros H. exists O, m. rewrite Z.add_0_r.
      repeat split; auto; try lia; try apply untouched_refl.
  - intros H. apply IHa in H. destruct H as (n1 & m1 & Hn1 & Hl1 & Hu1 & Hk).
    apply IHb in Hk. destruct Hk as (n2 & m2 & Hn2 & Hl2 & Hu2 & Hk).
    rewrite drop_length in Hn2. rewrite drop_drop in Hk.
    exists (n1 + n2)%nat, m2. repeat split; try lia; try congruence.
    + eapply untouched_trans; eapply untouched_incl; eauto;
        [apply incl_appl | apply incl_appr]; apply incl_refl.
    + rewrite Nat2Z.inj_add, Z.add_assoc. exact Hk.
  - destruct (run a s pos m k) as [r'|] eqn:E.
    + intros [= ->]. apply IHa in E.
      eapply (frames_incl a); eauto. simpl. apply incl_appl, incl_refl.
    + intros H. apply IHb in H.
      eapply (frames_incl b); eauto. simpl. apply incl_appr, incl_refl.
Qed.

(** ** Expressions decided by the first rune *)

Lemma star_total (body : string -> Z -> Match -> cont -> option Match)
      fuel s pos m k :
  neverFails k -> exists r, star body fuel s pos m k = Some r.
Proof.
  intros Hk. destruct fuel; simpl; [apply Hk|].
  destruct (body s pos m _); eauto.
Qed.

Lemma total_run re : forall s pos m k,
  total re = true -> neverFails k -> exists r, run re s pos m k = Some r.
Proof.
  induction re; intros s pos m k Ht Hk; simpl in *; try discriminate.
  - apply Hk.
  - apply IHre; auto. intros s' pos' m'. apply Hk.
  - now apply star_total.
  - destruct (run re s pos m k); eauto.
  - apply andb_true_iff in Ht. destruct Ht as [Ha Hb].
    apply IHre1; auto. intros s' pos' m'. now apply IHre2.
Qed.

Lemma runeTest_run re p s pos m k :
  runeTest re = Some p ->
  run re s pos m k = rune1 p s pos m k.
Proof.
  destruct re; simpl; intros [= <-]; reflexivity.
Qed.

Lemma rune1_decided (p : N -> bool) s pos m k c w :
  utf8.DecodeRuneInString s = (c, S w) ->
  rune1 p s pos m k
  = if p c then k (drop (S w) s) (pos + Z.of_nat (S w)) m else None.
Proof. intros E. unfold rune1. rewrite E. reflexivity. Qed.

(** With a continuation that never fails, an expression decided by its
    first rune matches exactly when the rune passes the test. *)
Lemma headTest_run re : forall p s pos m k c w,
  headTest re = Some p ->
  utf8.DecodeRuneInString s = (c, S w) ->
  neverFails k ->
  (p c = true -> exists r, run re s pos m k = Some r)
  /\ (p c = false -> run re s pos m k = None).
Proof.
  induction re as [ | c0 | neg rs | | cap name sub IH | sub IH | sub IH
                    | sub IH | a IHa b IHb | a IHa b IHb ];
    intros p s pos m k c w Hh E Hk; simpl in Hh; try discriminate;
    try (rewrite (runeTest_run _ p) by exact Hh;
         rewrite (rune1_decided _ _ _ _ _ c w E);
         split; intros ->; [apply Hk | reflexivity]).
  - simpl. apply (IH p s pos m _ c w Hh E).
    intros s' pos' m'. apply Hk.
  - simpl. rewrite (runeTest_run _ p) by exact Hh.
    rewrite (rune1_decided _ _ _ _ _ c w E).
    split; intros ->; [|reflexivity]. now apply star_total.
  - destruct (total b) eqn:Hb; [|discriminate]. simpl.
    apply (IHa p s pos m _ c w Hh E).
    intros s' pos' m'. now apply total_run.
Qed.

(** ** The kind of a match *)

(** The kind that the inner loop of [tokenize] gives when the first group
    with both positions set is the group [g]: the type of the spec
    [g-1]. *)
Lemma tokTypeFrom_group (m : Match) (g : nat) :
  forall specs i,
    (i < g)%nat ->
    (forall j, (2 * (i + 1) <= j < 2 * g)%nat -> idx m j = -1) ->
    idx m (2 * g) <> -1 -> idx m (2 * g + 1) <> -1 ->
    tokTypeFrom i specs m = nth (g - 1 - i) (map fst specs) EmptyString.
Proof.
  induction specs as [|spec specs IH]; intros i Hi Hun H1 H2; simpl.
  - now destruct (g - 1 - i)%nat.
  - destruct (Nat.eq_dec (S i) g) as [<-|Hne].
    + replace (S i - 1 - i)%nat with O by lia.
      replace (i + 1 + (i + 1 + 0))%nat with (2 * S i)%nat by lia.
      replace (i + 1 + (i + 1 + 0) + 1)%nat with (2 * S i + 1)%nat
        by lia.
      apply Z.eqb_neq in H1, H2. rewrite H1, H2. reflexivity.
    + rewrite (Hun (i + 1 + (i + 1 + 0))%nat) by lia. simpl.
      rewrite IH; auto; try lia.
      * replace (g - 1 - i)%nat with (S (g - 1 - S i)) by lia. reflexivity.
      * intros j Hj. apply Hun. lia.
Qed.

(** The same when no group that the loop reads is set. *)
Lemma tokTypeFrom_none (m : Match) :
  forall specs i,
    (forall j, (2 * (i + 1) <= j < 2 * (i + 1 + length specs))%nat ->
               idx m j = -1) ->
    tokTypeFrom i specs m = EmptyString.
Proof.
  induction specs as [|spec specs IH]; intros i Hun; simpl; auto.
  rewrite (Hun (i + 1 + (i + 1 + 0))%nat) by (simpl; lia). simpl.
  apply IH. intros j Hj. apply Hun. simpl. lia.
Qed.

(** ** The first byte and the first rune *)

Lemma lor_ge_128 (a b : N) :
  (128 <= a \/ 128 <= b -> 128 <= N.lor a b)%N.
Proof.
  intros H. destruct (N.lt_ge_cases (N.lor a b) 128) as [Hlt|]; auto.
  apply (N.div_small_iff _ 128 ltac:(lia)) in Hlt.
  change 128%N with (2^7)%N in Hlt.
  rewrite <- N.shiftr_div_pow2, N.shiftr_lor in Hlt.
  apply N.lor_eq_0_iff in Hlt. destruct Hlt as [Ha Hb].
  rewrite N.shiftr_div_pow2 in Ha, Hb.
  apply N.div_small_iff in Ha, Hb; try (cbv; discriminate).
  change (2^7)%N with 128%N in *. lia.
Qed.

Lemma land_shiftl_ge (s0 mask lo hi k bound n : N) :
  (mask = N.ones n -> lo <= s0 <= hi ->
   (forall q r, lo <= 2^n * q + r <= hi -> r < 2^n -> bound <= r * 2^k) ->
   bound <= N.shiftl (N.land s0 mask) k)%N.
Proof.
  intros -> H Hqr. rewrite N.land_ones, N.shiftl_mul_pow2.
  apply (Hqr (s0 / 2^n) (s0 mod 2^n))%N.
  - rewrite <- N.Div0.div_mod. exact H.
  - apply N.mod_upper_bound. apply N.pow_nonzero. discriminate.
Qed.

Lemma first_cases (s0 : N) (sz : nat) (lo hi : N) :
  utf8.first s0 = Some (sz, lo, hi) ->
  (sz = 2%nat /\ 194 <= s0 <= 223)%N
  \/ (sz = 3%nat /\ s0 = 224 /\ lo = 160 /\ hi = 191)%N
  \/ (sz = 3%nat /\ 225 <= s0 <= 239)%N
  \/ (sz = 4%nat /\ s0 = 240 /\ lo = 144 /\ hi = 191)%N
  \/ (sz = 4%nat /\ 241 <= s0 <= 244)%N.
Proof.
  unfold utf8.first.
  repeat match goal with
         | |- context [if ?b then _ else _] => destruct b eqn:?
         end; intros [= <- <- <-];
    repeat match goal with
           | H : (_ && _) = true |- _ =>
             apply andb_true_iff in H; destruct H
           | H : (_ <=? _)%N = true |- _ => apply N.leb_le in H
           | H : (_ =? _)%N = true |- _ => apply N.eqb_eq in H
           end; try lia; auto 10.
Qed.

(** An ASCII byte is its own rune; the rune of any other first byte, the
    error rune included, is not an ASCII one. *)
Lemma DecodeRuneInString_first (ch : ascii) (rest : string) :
  exists c w,
    utf8.DecodeRuneInString (String ch rest) = (c, S w)
    /\ ((utf8.byte ch < 128)%N -> c = utf8.byte ch /\ w = O)
    /\ ((128 <= utf8.byte ch)%N -> (128 <= c)%N).
Proof.
  pose proof (DecodeRuneInString_width (String ch rest)) as [_ Hw].
  specialize (Hw ltac:(discriminate)).
  destruct (utf8.DecodeRuneInString (String ch rest)) as [c w] eqn:E.
  simpl in Hw. destruct w as [|w]; [lia|].
  exists c, w. split; [reflexivity|].
  unfold utf8.DecodeRuneInString in E.
  destruct (N.ltb_spec (utf8.byte ch) 128) as [Hlt|Hge].
  { injection E as <- <-. split; [auto|lia]. }
  split; [lia|]. intros _.
  assert (Herr : (128 <= utf8.RuneError)%N) by (cbv; discriminate).
  destruct (utf8.first (utf8.byte ch)) as [[[sz lo] hi]|] eqn:F;
    [|injection E as <- _; exact Herr].
  apply first_cases in F.
  destruct rest as [|c1 t1]; [injection E as <- _; exact Herr|].
  destruct (utf8.inRange lo hi (utf8.byte c1)) eqn:R1; cbn [negb] in E;
    [|injection E as <- _; exact Herr].
  unfold utf8.inRange in R1. apply andb_true_iff in R1.
  destruct R1 as [R1 R1']. apply N.leb_le in R1, R1'.
  destruct F as [[-> F]|[(-> & F & -> & ->)|[[-> F]|[(-> & F & -> & ->)
                                                     |[-> F]]]]];
    cbn [Nat.leb] in E.
  - injection E as <- _. apply lor_ge_128. left.
    apply (land_shiftl_ge _ 31 194 223 6 128 5); auto; try lia;
      try (intros q r; change (2^5)%N with 32%N; change (2^6)%N with 64%N; lia).
  - destruct t1 as [|c2 t2]; [injection E as <- _; exact Herr|].
    destruct (utf8.inRange _ _ (utf8.byte c2)); cbn [negb] in E;
      [|injection E as <- _; exact Herr].
    injection E as <- _. apply lor_ge_128. left. apply lor_ge_128. right.
    apply (land_shiftl_ge _ 63 160 191 6 128 6); auto; try lia;
      try (intros q r; change (2^6)%N with 64%N; lia).
  - destruct t1 as [|c2 t2]; [injection E as <- _; exact Herr|].
    destruct (utf8.inRange _ _ (utf8.byte c2)); cbn [negb] in E;
      [|injection E as <- _; exact Herr].
    injection E as <- _. apply lor_ge_128. left. apply lor_ge_128. left.
    apply (land_shiftl_ge _ 15 225 239 12 128 4); auto; try lia;
      try (intros q r; change (2^4)%N with 16%N;
           change (2^12)%N with 4096%N; lia).
  - destruct t1 as [|c2 t2]; [injection E as <- _; exact Herr|].
    destruct (utf8.inRange _ _ (utf8.byte c2)); cbn [negb] in E;
      [|injection E as <- _; exact Herr].
    destruct t2 as [|c3 t3]; [injection E as <- _; exact Herr|].
    destruct (utf8.inRange _ _ (utf8.byte c3)); cbn [negb] in E;
      [|injection E as <- _; exact Herr].
    injection E as <- _.
    apply lor_ge_128. left. apply lor_ge_128. left. apply lor_ge_128. right.
    apply (land_shiftl_ge _ 63 144 191 12 128 6); auto; try lia;
      try (intros q r; change (2^6)%N with 64%N;
           change (2^12)%N with 4096%N; lia).
  - destruct t1 as [|c2 t2]; [injection E as <- _; exact Herr|].
    destruct (utf8.inRange _ _ (utf8.byte c2)); cbn [negb] in E;
      [|injection E as <- _; exact Herr].
    destruct t2 as [|c3 t3]; [injection E as <- _; exact Herr|].
    destruct (utf8.inRange _ _ (utf8.byte c3)); cbn [negb] in E;
      [|injection E as <- _; exact Herr].
    injection E as <- _.
    apply lor_ge_128. left. apply lor_ge_128. left. apply lor_ge_128. left.
    apply (land_shiftl_ge _ 7 241 244 18 128 3); auto; try lia;
      try (intros q r; change (2^3)%N with 8%N;
           change (2^18)%N with 262144%N; lia).
Qed.

(** ** The kind of a match, by its text *)

Lemma whole_neverFails pos : neverFails (whole pos).
Proof. intros s pos' m. unfold whole. eauto. Qed.

Lemma idx_repeat (n j : nat) : idx (repeat (-1) n) j = -1.
Proof.
  unfold idx. revert j; induction n as [|n IH]; intros [|j]; simpl; auto.
Qed.

(** A match through the top-level group [g]: the loop of the lexer finds
    the group [g] first, and gives the type of the spec [g-1]. *)
Lemma capture_kind (g : nat) (name : string) (body : Regexp) s pos r :
  (1 <= g <= 18)%nat ->
  (forall g', In g' (groups body) -> (g < g')%nat) ->
  0 <= pos ->
  run (OpCapture g name body) s pos (repeat (-1) 38) (whole pos) = Some r ->
  exists n : nat,
    (n <= String.length s)%nat
    /\ (nullable body = false -> (0 < n)%nat)
    /\ idx r 0 = pos /\ idx r 1 = pos + Z.of_nat n
    /\ tokType r = nth (g - 1) (map fst tokenSpecs) EmptyString.
Proof.
  intros Hg Hnested Hpos H. cbn [run] in H.
  pose proof (run_sound _ _ _ _ _ _ H) as (n2 & m2 & _ & Hp2 & Hl2 & Hk2).
  apply run_frames in H. destruct H as (n & m' & Hn & Hl & Hu & Hk).
  unfold whole in Hk, Hk2. injection Hk as <-.
  rewrite repeat_length in Hl, Hl2.
  set (mg := setCap g pos (pos + Z.of_nat n) m').
  assert (Hlg : length mg = 38%nat) by (unfold mg; now rewrite setCap_length).
  destruct (setCap_0 pos (pos + Z.of_nat n) mg) as [H0 H1]; [lia|].
  assert (n2 = n) as ->.
  { injection Hk2 as Hk2. apply (f_equal (fun m => idx m 1)) in Hk2.
    fold mg in Hk2. rewrite H1 in Hk2.
    destruct (setCap_0 pos (pos + Z.of_nat n2)
                       (setCap g pos (pos + Z.of_nat n2) m2)) as [_ H1'];
      [rewrite setCap_length; lia|].
    rewrite H1' in Hk2. lia. }
  exists n. repeat split; auto.
  { intros E. apply Hp2. now rewrite E. }
  set (r := setCap 0 pos (pos + Z.of_nat n) mg).
  assert (Hout : forall j, (2 <= j)%nat -> (j < 2 * g)%nat -> idx r j = -1).
  { intros j Hj Hjg. unfold r, mg. rewrite !idx_setCap_other by lia.
    rewrite Hu; [apply idx_repeat|].
    intros g' Hg'. apply Hnested in Hg'. lia. }
  assert (Hin : idx r (2 * g) = pos /\ idx r (2 * g + 1) = pos + Z.of_nat n).
  { unfold r. rewrite !idx_setCap_other by lia.
    apply idx_setCap_same. lia. }
  destruct Hin as [Hin0 Hin1]. unfold tokType.
  destruct (le_lt_dec g 16) as [Hle|Hgt].
  - rewrite (tokTypeFrom_group r g); auto; try lia.
    + now rewrite Nat.sub_0_r.
    + intros j Hj. apply Hout; lia.
  - rewrite tokTypeFrom_none.
    + destruct Hg as [_ Hg].
      assert (g = 17 \/ g = 18)%nat as [-> | ->] by lia; reflexivity.
    + intros j Hj. simpl in Hj. apply Hout; lia.
Qed.

(** One alternative decided by the first rune: it is the match, or the
    match is among the alternatives after it. *)
Lemma alternate_decided a rest p s pos m k c w r :
  headTest a = Some p ->
  utf8.DecodeRuneInString s = (c, S w) ->
  neverFails k ->
  run (OpAlternate a rest) s pos m k = Some r ->
  (p c = true /\ run a s pos m k = Some r)
  \/ (p c = false /\ run rest s pos m k = Some r).
Proof.
  intros Hh E Hk H. cbn [run] in H.
  destruct (headTest_run a p s pos m k c w Hh E Hk) as [Hyes Hno].
  destruct (p c).
  - left. destruct (Hyes eq_refl) as [r' Hr']. rewrite Hr' in H.
    split; congruence.
  - right. rewrite (Hno eq_refl) in H. auto.
Qed.

(** No test of the lexer accepts a rune that is not an ASCII one, but the
    catch-all. *)
Lemma kindOfByte_high (c : N) (single : bool) :
  (128 <= c)%N -> kindOfByte c single = EmptyString.
Proof.
  intros H. unfold kindOfByte, inRanges, utf8.inRange.
  repeat match goal with
         | |- context [(?a <=? ?b)%N] =>
           destruct (N.leb_spec a b); try lia
         | |- context [(?a =? ?b)%N] =>
           destruct (N.eqb_spec a b); try lia
         end; reflexivity.
Qed.

Lemma run_alternate a b s pos m k :
  run (OpAlternate a b) s pos m k
  = match run a s pos m k with
    | Some r => Some r
    | None => run b s pos m k
    end.
Proof. reflexivity. Qed.

(** The end of a match through a group that holds one rune test. *)
Lemma rune_capture_end g name body p s pos r c w :
  runeTest body = Some p ->
  utf8.DecodeRuneInString s = (c, S w) ->
  run (OpCapture g name body) s pos (repeat (-1) 38) (whole pos) = Some r ->
  idx r 1 = pos + Z.of_nat (S w).
Proof.
  intros Hp E. cbn [run]. rewrite (runeTest_run _ p) by exact Hp.
  rewrite (rune1_decided _ _ _ _ _ c w E).
  destruct (p c); [|discriminate]. unfold whole. intros [= <-].
  apply setCap_0. rewrite setCap_length. simpl. lia.
Qed.

(** The end of a match of the STRING pattern: the text holds the two
    quotes at least. *)
Lemma string_capture g name rest s pos r c w :
  nullable rest = false ->
  utf8.DecodeRuneInString s = (c, S w) ->
  run (OpCapture g name (OpConcat (OpLiteral 34) rest)) s pos
      (repeat (-1) 38) (whole pos) = Some r ->
  N.eqb 34 c = true
  /\ exists n : nat, (2 <= n)%nat /\ idx r 1 = pos + Z.of_nat n.
Proof.
  intros Hnull E. cbn [run]. rewrite (rune1_decided _ _ _ _ _ c w E).
  destruct (N.eqb 34 c); [|discriminate]. intros H. split; [reflexivity|].
  apply run_sound in H. destruct H as (n & m' & _ & Hp & Hl & Hk).
  rewrite Hnull in Hp. specialize (Hp eq_refl).
  unfold whole in Hk. injection Hk as <-.
  exists (S w + n)%nat. split; [lia|].
  rewrite repeat_length in Hl.
  match goal with
  | |- context [idx (setCap 0 ?p ?e ?mm) 1] =>
    destruct (setCap_0 p e mm) as [_ ->]; [rewrite setCap_length; lia|]
  end.
  lia.
Qed.

Lemma inRanges_ascii (rs : list (N * N)) (c : N) :
  forallb (fun r => (snd r <? 128)%N) rs = true ->
  inRanges rs c = true -> (c < 128)%N.
Proof.
  induction rs as [|[lo hi] rs IH]; simpl; [discriminate|].
  intros Hrs Hc. apply andb_true_iff in Hrs. destruct Hrs as [Hhi Hrs].
  apply N.ltb_lt in Hhi. apply orb_true_iff in Hc.
  destruct Hc as [Hc|Hc]; auto.
  unfold utf8.inRange in Hc. apply andb_true_iff in Hc.
  destruct Hc as [_ Hc]. apply N.leb_le in Hc. lia.
Qed.

(** The tests of the earlier alternatives that are known to fail, and the
    one that passes, settle the chain of [kindOfByte]. *)
Ltac settle_kind :=
  unfold kindOfByte;
  repeat match goal with
         | H : ?t = _ |- context [if ?t then _ else _] => rewrite H
         end;
  try reflexivity.

(** A rune that passed the test of a literal is that literal. *)
Ltac literal_rune :=
  match goal with
  | H : N.eqb _ ?c = true |- _ => apply N.eqb_eq in H; subst c
  end;
  try discriminate.

(** A kind that is not one of [oneByteKinds]. *)
Ltac other_kind Hkind :=
  let Hin := fresh "Hin" in
  intros Hin; rewrite Hkind in Hin; simpl in Hin;
  repeat (destruct Hin as [Hin|Hin]; [discriminate Hin|]);
  destruct Hin.

(** The next alternative is one that a first rune decides. *)
Ltac next_alternative H E Hk T :=
  eapply alternate_decided in H; [|reflexivity|exact E|exact Hk];
  destruct H as [[T H]|[T H]]; cbn [xorb] in T.

(** The alternative of one rune test is the match: its group decides the
    kind, and the text is the rune. *)
Ltac one_rune_match H E Hw :=
  let He := fresh "He" in
  assert (He := H);
  eapply rune_capture_end in He; [|reflexivity|exact E];
  apply capture_kind in H; auto; try lia; [|simpl; tauto];
  let n := fresh "n" in
  let Hp := fresh "Hp" in
  let Hkind := fresh "Hkind" in
  destruct H as (n & ? & Hp & ? & ? & Hkind);
  specialize (Hp eq_refl); exists n;
  assert (n = 1%nat) by (rewrite Hw in He by (auto; reflexivity); lia);
  repeat split; auto; try lia; rewrite Hkind.

(** The kind of a match of the combined expression: the first rune decides
    the alternative that matches, and the group of the alternative decides
    the spec whose type the loop gives. *)
Lemma matchAt_kind_rune s pos m c w :
  0 <= pos ->
  utf8.DecodeRuneInString s = (c, S w) ->
  ((c < 128)%N -> w = O) ->
  matchAt compiled s pos = Some m ->
  exists n : nat,
    (1 <= n <= String.length s)%nat
    /\ idx m 0 = pos /\ idx m 1 = pos + Z.of_nat n
    /\ tokType m = kindOfByte c (n =? 1)%nat
    /\ (In (tokType m) oneByteKinds -> n = 1%nat).
Proof.
  intros Hpos E Hw H.
  unfold matchAt in H. cbn [expr numSubexp compiled] in H.
  change (2 * (18 + 1))%nat with 38%nat in H.
  change (fun (_ : string) (pos' : Z) (m : Match) =>
            Some (setCap 0 pos pos' m)) with (whole pos) in H.
  pose proof (whole_neverFails pos) as Hk.
  unfold combined in H.
  (* NUMBER *)
  next_alternative H E Hk T1.
  { apply capture_kind in H; auto; try lia;
      [|simpl; intros g' [<-|[]]; lia].
    destruct H as (n & Hn & Hp & H0 & H1 & Hkind).
    specialize (Hp eq_refl). exists n. repeat split; auto; try lia.
    - rewrite Hkind. settle_kind.
    - other_kind Hkind. }
  (* STRING *)
  rewrite run_alternate in H.
  match type of H with
  | match ?t with _ => _ end = _ => destruct t as [r|] eqn:Hs
  end.
  { injection H as ->.
    assert (Hstr := Hs).
    eapply string_capture in Hstr; [|reflexivity|exact E].
    destruct Hstr as (T2 & n2 & Hn2 & He2).
    apply capture_kind in Hs; auto; try lia;
      [|simpl; intros g' [<-|[]]; lia].
    destruct Hs as (n & Hn & Hp & H0 & H1 & Hkind).
    exists n. repeat split; auto; try lia.
    - rewrite Hkind. assert (n = n2) as -> by lia.
      destruct n2 as [|[|n2]]; try lia. settle_kind.
    - other_kind Hkind. }
  (* ID *)
  next_alternative H E Hk T3.
  { apply capture_kind in H; auto; try lia; [|simpl; tauto].
    destruct H as (n & Hn & Hp & H0 & H1 & Hkind).
    specialize (Hp eq_refl). exists n. repeat split; auto; try lia.
    - rewrite Hkind.
      destruct (N.eqb 34 c) eqn:T2; [literal_rune|]. settle_kind.
    - other_kind Hkind. }
  (* OP *)
  next_alternative H E Hk T4.
  { assert (Hc := T4). apply inRanges_ascii in Hc; [|reflexivity].
    one_rune_match H E Hw.
    destruct (N.eqb 34 c) eqn:T2; [literal_rune|]. settle_kind. }
  destruct (N.eqb 34 c) eqn:T2.
  { (* a quote that opens no string literal: only the catch-all is left *)
    apply N.eqb_eq in T2. subst c. specialize (Hw eq_refl). subst w.
    unfold lastAlternatives in H.
    do 11 (eapply alternate_decided in H; [|reflexivity|exact E|exact Hk];
           destruct H as [[T H]|[_ H]]; [cbv in T; discriminate T|]).
    assert (He := H).
    eapply rune_capture_end in He; [|reflexivity|exact E].
    apply capture_kind in H; auto; try lia; [|simpl; tauto].
    destruct H as (n & Hn & Hp & H0 & H1 & Hkind).
    exists n. assert (n = 1%nat) as -> by lia.
    repeat split; auto; lia. }
  (* the parentheses, the braces, the angle brackets, the colon, the
     semicolon and the comma *)
  do 9 (let T := fresh "T" in
        next_alternative H E Hk T;
        [ literal_rune; one_rune_match H E Hw; reflexivity | ]).
  (* NEWLINE *)
  unfold lastAlternatives in H.
  next_alternative H E Hk T16.
  { literal_rune; one_rune_match H E Hw; reflexivity. }
  (* SKIP and MISMATCH give the empty kind *)
  next_alternative H E Hk T17;
    (apply capture_kind in H; auto; try lia; [|simpl; tauto];
     destruct H as (n & Hn & Hp & H0 & H1 & Hkind);
     specialize (Hp eq_refl); exists n; repeat split; auto; try lia;
     [rewrite Hkind; settle_kind | other_kind Hkind]).
Qed.

(** ** The kind of a token, from its text *)

Lemma allMatches_origin fuel code : forall pos prev,
  0 <= pos <= Z.of_nat (String.length code) ->
  Forall (origin code) (allMatches fuel compiled code pos prev).
Proof.
  induction fuel as [|fuel IH]; intros pos prev Hpos; [constructor|].
  destruct (Z.eq_dec pos (Z.of_nat (String.length code))) as [Heq|Hne].
  - cbn [allMatches].
    destruct (Z.ltb_spec (Z.of_nat (String.length code)) pos) as [?|_]; [lia|].
    rewrite doExecute_eq.
    rewrite (drop_all (Z.to_nat pos)) by lia.
    rewrite matchAt_empty.
    destruct (String.length code); simpl; constructor.
  - destruct (matchAt_nonempty (drop (Z.to_nat pos) code) pos) as [m Hm].
    { intros E. apply (f_equal String.length) in E.
      rewrite drop_length in E. simpl in E. lia. }
    rewrite (allMatches_step _ _ _ _ m) by (auto; lia).
    constructor.
    + exists pos. split; [lia|exact Hm].
    + apply matchAt_sound in Hm.
      destruct Hm as (n & Hn & Hp & Hl & H0 & H1).
      rewrite drop_length in Hn. apply IH. lia.
Qed.

Lemma matches_origin (code : string) : Forall (origin code) (matches code).
Proof.
  unfold matches, FindAllStringSubmatchIndex.
  apply allMatches_origin. lia.
Qed.

Lemma substring_at_drop (a n : nat) : forall s,
  substring a n s = substring 0 n (drop a s).
Proof.
  induction a as [|a IH]; intros [|ch s]; simpl; auto.
  destruct n; reflexivity.
Qed.

Lemma substring_empty (n : nat) (s : string) :
  (n <= String.length s)%nat ->
  String.eqb (substring 0 n s) EmptyString = (n =? 0)%nat.
Proof. destruct n, s; simpl; auto; lia. Qed.

(** The text of a match is not empty; its first byte, and whether it is the
    only one, give the kind that the loop of [tokenize] finds for it; the
    matches of the kinds of one character have one byte. *)
Lemma origin_kind (code : string) (m : Match) :
  origin code m ->
  exists (ch : ascii) (text : string),
    value code m = String ch text
    /\ tokType m = kindOfByte (utf8.byte ch) (String.eqb text EmptyString)
    /\ (In (tokType m) oneByteKinds -> text = EmptyString).
Proof.
  intros (pos & Hpos & Hm).
  destruct (drop (Z.to_nat pos) code) as [|ch rest] eqn:Ed.
  { rewrite matchAt_empty in Hm. discriminate. }
  destruct (DecodeRuneInString_first ch rest) as (c & w & E & Hlow & Hhigh).
  eapply matchAt_kind_rune in Hm; [|lia|exact E|].
  2:{ intros Hc. destruct (N.lt_ge_cases (utf8.byte ch) 128) as [Hb|Hb].
      - apply Hlow, Hb.
      - specialize (Hhigh Hb). lia. }
  destruct Hm as (n & Hn & H0 & H1 & Hkind & Hone).
  destruct n as [|n]; [lia|].
  exists ch, (substring 0 n rest).
  assert (Hv : value code m = String ch (substring 0 n rest)).
  { unfold value, slice. rewrite H0, H1.
    replace (Z.to_nat (pos + Z.of_nat (S n) - pos)) with (S n) by lia.
    rewrite substring_at_drop, Ed. reflexivity. }
  cbn [String.length] in Hn.
  assert (Hs : String.eqb (substring 0 n rest) EmptyString = (S n =? 1)%nat).
  { rewrite substring_empty by lia. reflexivity. }
  repeat split; auto.
  - rewrite Hkind, Hs.
    destruct (N.lt_ge_cases (utf8.byte ch) 128) as [Hb|Hb].
    + destruct (Hlow Hb) as [-> _]. reflexivity.
    + rewrite !kindOfByte_high; auto.
  - intros Hin. specialize (Hone Hin).
    injection Hone as ->. destruct rest; reflexivity.
Qed.

Lemma matches_kind (code : string) (m : Match) :
  In m (matches code) -> tokType m = kindOfText (value code m).
Proof.
  intros Hin.
  pose proof (matches_origin code) as Ho.
  rewrite Forall_forall in Ho. apply Ho in Hin.
  apply origin_kind in Hin.
  destruct Hin as (ch & text & -> & -> & _). reflexivity.
Qed.

(** ** The tokens of the lexer *)

Lemma tokensOf_In (code : string) (ms : list Match) : forall pre t,
  In t (tokensOf code pre ms) ->
  exists ms1 m ms2,
    ms = (ms1 ++ m :: ms2)%list /\ discarded m = false
    /\ t = tokenOf code (pre ++ ms1) m.
Proof.
  induction ms as [|m ms IH]; intros pre t; simpl; [tauto|].
  rewrite in_app_iff. intros [H|H].
  - destruct (discarded m) eqn:E; [destruct H|].
    destruct H as [<-|[]]. exists [], m, ms. rewrite app_nil_r. auto.
  - apply IH in H. destruct H as (ms1 & m' & ms2 & -> & Hd & ->).
    exists (m :: ms1), m', ms2. rewrite <- app_assoc. auto.
Qed.

Lemma kindOfByte_cases (b : N) (single : bool) :
  In (kindOfByte b single)
     [ "NUMBER"; "ID"; "LPAREN"; "RPAREN"; "LBRACE"; "RBRACE"; "LANGLE";
       "RANGLE"; "COMMA"; EmptyString; "NEWLINE"; "SKIP"; "MISMATCH" ].
Proof.
  unfold kindOfByte.
  repeat match goal with
         | |- context [if ?c then _ else _] => destruct c
         end; simpl; tauto.
Qed.

(** The bytes of the three kinds that the switch of [tokenize] knows. *)
Lemma kindOfByte_switch (b : N) (single : bool) :
  (kindOfByte b single = "NEWLINE" -> b = 59%N)
  /\ (kindOfByte b single = "SKIP" -> b = 44%N)
  /\ (kindOfByte b single = "MISMATCH" -> b = 10%N).
Proof.
  unfold kindOfByte.
  repeat match goal with
         | |- context [if ?c then _ else _] => destruct c eqn:?
         end;
    repeat split; intros; try discriminate;
    match goal with
    | H : N.eqb _ b = true |- _ => apply N.eqb_eq in H; now subst b
    end.
Qed.

Lemma byte_inj (ch : ascii) (b : N) : utf8.byte ch = b -> ch = ascii_of_N b.
Proof. intros <-. symmetry. apply ascii_N_embedding. Qed.

(** The matches that the switch takes as NEWLINE, SKIP and MISMATCH are the
    semicolons, the commas and the newlines. *)
Lemma matches_switch (code : string) (m : Match) :
  In m (matches code) ->
  String.eqb (tokType m) "NEWLINE" = String.eqb (value code m) ";"
  /\ String.eqb (tokType m) "SKIP" = String.eqb (value code m) ","
  /\ String.eqb (tokType m) "MISMATCH" = String.eqb (value code m) nl.
Proof.
  intros Hin.
  pose proof (matches_origin code) as Ho.
  rewrite Forall_forall in Ho. apply Ho in Hin.
  apply origin_kind in Hin.
  destruct Hin as (ch & text & -> & Hk & Hone).
  destruct (kindOfByte_switch (utf8.byte ch) (String.eqb text EmptyString))
    as (H1 & H2 & H3).
  rewrite <- Hk in H1, H2, H3.
  repeat split;
    match goal with
    | |- String.eqb _ ?k = String.eqb _ ?v =>
      destruct (String.eqb_spec (tokType m) k) as [E|E];
        [ assert (Ht : text = EmptyString)
            by (apply Hone; rewrite E; simpl; tauto);
          subst text;
          first [ apply H1 in E | apply H2 in E | apply H3 in E ];
          apply byte_inj in E; subst ch; reflexivity
        | destruct (String.eqb_spec (String ch text) v) as [E'|E'];
            [|reflexivity];
          injection E' as -> ->; exfalso; apply E; rewrite Hk;
          reflexivity ]
    end.
Qed.

Lemma matches_discarded (code : string) (m : Match) :
  In m (matches code) -> discarded m = droppedText (value code m).
Proof.
  intros H. apply matches_switch in H. destruct H as (H1 & H2 & _).
  unfold discarded, droppedText. rewrite H1, H2. apply orb_comm.
Qed.

Lemma newlines_app (a b : string) :
  newlines (a ++ b) = (newlines a + newlines b)%nat.
Proof. induction a as [|c a IH]; simpl; auto. rewrite IH. lia. Qed.

Lemma newlines_cat (texts1 texts2 : list string) (text : string) :
  (newlines text <= newlines (cat (texts1 ++ text :: texts2)))%nat.
Proof.
  rewrite cat_app. simpl. rewrite !newlines_app. lia.
Qed.

Lemma last_cons (x d : Z) (l : list Z) : last (x :: l) d = last l x.
Proof.
  revert x d; induction l as [|y l IH]; intros x d; [reflexivity|].
  change (last (x :: y :: l) d) with (last (y :: l) d).
  rewrite !IH. reflexivity.
Qed.

(** The column origin is the end of a match before the current one. *)
Lemma chain_lineStart (m : Match) (ms : list Match) (e : Z) :
  forall pre p0 d,
  0 <= d <= p0 ->
  chain p0 (pre ++ m :: ms) e ->
  0 <= last (map (fun m => idx m 1) (filter isNEWLINE pre)) d <= idx m 0.
Proof.
  induction pre as [|a pre IH]; intros p0 d Hd; simpl.
  - intros (H0 & _). lia.
  - intros (H0 & H1 & _ & H).
    destruct (isNEWLINE a).
    + cbn [map]. rewrite last_cons. apply (IH (idx a 1)); auto. lia.
    + apply (IH (idx a 1)); auto. lia.
Qed.

Lemma matches_lineStart (code : string) (pre ms : list Match) (m : Match) :
  matches code = (pre ++ m :: ms)%list ->
  0 <= lineStartOf pre <= idx m 0.
Proof.
  intros E. pose proof (matches_chain code) as H. rewrite E in H.
  unfold lineStartOf. eapply chain_lineStart; [|exact H]. lia.
Qed.

Lemma chain_bounds (ms : list Match) (e : Z) : forall p0,
  0 <= p0 ->
  chain p0 ms e ->
  Forall (fun m => length m = 38%nat
                  /\ 0 <= idx m 0 /\ idx m 0 < idx m 1 /\ idx m 1 <= e) ms.
Proof.
  induction ms as [|m ms IH]; intros p0 Hp; simpl; [constructor|].
  intros (H0 & H1 & Hl & H). constructor; [repeat split; auto; lia|].
  apply (IH (idx m 1)); auto. lia.
Qed.

(** ** Matches without a newline *)

Lemma substring_0_0 (s : string) : substring 0 0 s = EmptyString.
Proof. destruct s; reflexivity. Qed.

Lemma newlines_substring (n1 n2 : nat) : forall s,
  (n1 <= String.length s)%nat ->
  newlines (substring 0 (n1 + n2) s)
  = (newlines (substring 0 n1 s) + newlines (substring 0 n2 (drop n1 s)))%nat.
Proof.
  induction n1 as [|n1 IH]; intros s Hn.
  - rewrite substring_0_0. reflexivity.
  - destruct s as [|ch s]; simpl in *; [lia|].
    rewrite IH by lia. lia.
Qed.

Lemma eqb_newline (ch : ascii) :
  Ascii.eqb ch "010" = true -> utf8.byte ch = 10%N.
Proof. intros H. apply Ascii.eqb_eq in H. subst ch. reflexivity. Qed.

Lemma first_lo (s0 : N) (sz : nat) (lo hi : N) :
  utf8.first s0 = Some (sz, lo, hi) -> (128 <= lo)%N.
Proof.
  unfold utf8.first, utf8.locb.
  repeat match goal with
         | |- context [if ?b then _ else _] => destruct b
         end; intros [= <- <- <-]; lia.
Qed.

(** A byte that is not the newline adds no newline. *)
Ltac not_newline :=
  match goal with
  | |- context [Ascii.eqb ?ch "010"] =>
    let E := fresh "E" in
    destruct (Ascii.eqb ch "010") eqn:E;
      [apply eqb_newline in E; exfalso|]
  end.

(** The bytes of a rune that is not the newline hold no newline. *)
Lemma rune_clean (s : string) (c : N) (w : nat) :
  utf8.DecodeRuneInString s = (c, w) -> c <> 10%N ->
  newlines (substring 0 w s) = 0%nat.
Proof.
  unfold utf8.DecodeRuneInString.
  destruct s as [|c0 t0]; [intros [= <- <-]; reflexivity|].
  destruct (N.ltb_spec (utf8.byte c0) 128) as [H0|H0].
  { intros [= <- <-] Hc. simpl. rewrite substring_0_0.
    not_newline; [congruence|reflexivity]. }
  assert (Hone : newlines (substring 0 1 (String c0 t0)) = 0%nat).
  { simpl. rewrite substring_0_0. not_newline; [lia|reflexivity]. }
  destruct (utf8.first (utf8.byte c0)) as [[[sz lo] hi]|] eqn:F;
    [|intros [= <- <-] _; exact Hone].
  apply first_lo in F.
  destruct t0 as [|c1 t1]; [intros [= <- <-] _; exact Hone|].
  destruct (utf8.inRange lo hi (utf8.byte c1)) eqn:R1; cbn [negb];
    [|intros [= <- <-] _; exact Hone].
  unfold utf8.inRange in R1. apply andb_true_iff in R1.
  destruct R1 as [R1 _]. apply N.leb_le in R1.
  destruct (sz <=? 2)%nat.
  { intros [= <- <-] _. simpl. rewrite substring_0_0.
    do 2 (not_newline; [lia|]). reflexivity. }
  destruct t1 as [|c2 t2]; [intros [= <- <-] _; exact Hone|].
  destruct (utf8.inRange utf8.locb utf8.hicb (utf8.byte c2)) eqn:R2;
    cbn [negb]; [|intros [= <- <-] _; exact Hone].
  unfold utf8.inRange, utf8.locb in R2. apply andb_true_iff in R2.
  destruct R2 as [R2 _]. apply N.leb_le in R2.
  destruct (sz <=? 3)%nat.
  { intros [= <- <-] _. simpl. rewrite substring_0_0.
    do 3 (not_newline; [lia|]). reflexivity. }
  destruct t2 as [|c3 t3]; [intros [= <- <-] _; exact Hone|].
  destruct (utf8.inRange utf8.locb utf8.hicb (utf8.byte c3)) eqn:R3;
    cbn [negb]; [|intros [= <- <-] _; exact Hone].
  unfold utf8.inRange, utf8.locb in R3. apply andb_true_iff in R3.
  destruct R3 as [R3 _]. apply N.leb_le in R3.
  intros [= <- <-] _. simpl. rewrite substring_0_0.
  do 4 (not_newline; [lia|]). reflexivity.
Qed.

Lemma rune1_clean (p : N -> bool) s pos m k r :
  (forall c, p c = true -> c <> 10%N) ->
  rune1 p s pos m k = Some r -> cleanly s pos k r.
Proof.
  intros Hp. unfold rune1.
  destruct (utf8.DecodeRuneInString s) as [c w] eqn:E.
  pose proof (DecodeRuneInString_width s) as [Hle _]. rewrite E in Hle.
  simpl in Hle.
  destruct w as [|w]; [discriminate|].
  destruct (p c) eqn:Hc; [|discriminate].
  intros H. exists (S w), m. repeat split; auto.
  eapply rune_clean; eauto.
Qed.

Lemma star_clean (body : string -> Z -> Match -> cont -> option Match) :
  (forall s pos m k r, body s pos m k = Some r -> cleanly s pos k r) ->
  forall fuel s pos m k r,
    star body fuel s pos m k = Some r -> cleanly s pos k r.
Proof.
  intros Hbody fuel.
  induction fuel as [|fuel IH]; intros s pos m k r; simpl.
  - intros H. exists O, m. rewrite Z.add_0_r, substring_0_0.
    repeat split; auto; lia.
  - destruct (body s pos m _) as [r'|] eqn:E.
    + intros [= ->].
      apply Hbody in E. destruct E as (n1 & m1 & Hn1 & Hc1 & Hk).
      destruct (pos <? pos + Z.of_nat n1); [|discriminate].
      apply IH in Hk. destruct Hk as (n2 & m2 & Hn2 & Hc2 & Hk).
      rewrite drop_length in Hn2. rewrite drop_drop in Hk.
      exists (n1 + n2)%nat, m2. repeat split; try lia.
      * rewrite newlines_substring by lia. lia.
      * rewrite Nat2Z.inj_add, Z.add_assoc. exact Hk.
    + intros H. exists O, m. rewrite Z.add_0_r, substring_0_0.
      repeat split; auto; lia.
Qed.

Lemma run_clean re : forall s pos m k r,
  clean re = true -> run re s pos m k = Some r -> cleanly s pos k r.
Proof.
  induction re as [ | c | neg rs | | cap name sub IH | sub IH | sub IH
                    | sub IH | a IHa b IHb | a IHa b IHb ];
    intros s pos m k r Hc; simpl in Hc |- *.
  - intros H. exists O, m. rewrite Z.add_0_r, substring_0_0.
    repeat split; auto; lia.
  - apply rune1_clean. intros c' E. apply N.eqb_eq in E. subst c'.
    apply negb_true_iff, N.eqb_neq in Hc. exact Hc.
  - apply rune1_clean. intros c' E ->.
    apply andb_true_iff in Hc. destruct Hc as [Hneg Hrs].
    apply negb_true_iff in Hneg, Hrs. rewrite Hneg, Hrs in E. discriminate.
  - apply rune1_clean. intros c' E. apply negb_true_iff, N.eqb_neq in E.
    exact E.
  - intros H. apply IH in H; auto. destruct H as (n & m' & Hn & Hcl & Hk).
    exists n, (setCap cap pos (pos + Z.of_nat n) m'). auto.
  - apply star_clean. intros; eapply IH; eauto.
  - intros H. apply IH in H; auto.
    destruct H as (n1 & m1 & Hn1 & Hc1 & Hk).
    apply star_clean in Hk; [|intros; eapply IH; eauto].
    destruct Hk as (n2 & m2 & Hn2 & Hc2 & Hk).
    rewrite drop_length in Hn2. rewrite drop_drop in Hk.
    exists (n1 + n2)%nat, m2. repeat split; try lia.
    + rewrite newlines_substring by lia. lia.
    + rewrite Nat2Z.inj_add, Z.add_assoc. exact Hk.
  - destruct (run sub s pos m k) as [r'|] eqn:E.
    + intros [= ->]. eapply IH; eauto.
    + intros H. exists O, m. rewrite Z.add_0_r, substring_0_0.
      repeat split; auto; lia.
  - apply andb_true_iff in Hc. destruct Hc as [Ha Hb].
    intros H. apply IHa in H; auto.
    destruct H as (n1 & m1 & Hn1 & Hc1 & Hk).
    apply IHb in Hk; auto. destruct Hk as (n2 & m2 & Hn2 & Hc2 & Hk).
    rewrite drop_length in Hn2. rewrite drop_drop in Hk.
    exists (n1 + n2)%nat, m2. repeat split; try lia.
    + rewrite newlines_substring by lia. lia.
    + rewrite Nat2Z.inj_add, Z.add_assoc. exact Hk.
  - apply andb_true_iff in Hc. destruct Hc as [Ha Hb].
    destruct (run a s pos m k) as [r'|] eqn:E.
    + intros [= ->]. eapply IHa; eauto.
    + intros H. eapply IHb; eauto.
Qed.

(** A match through a top-level group of such an expression. *)
Lemma capture_clean (g : nat) (name : string) (body : Regexp) s pos r :
  clean body = true ->
  run (OpCapture g name body) s pos (repeat (-1) 38) (whole pos) = Some r ->
  exists n : nat,
    idx r 1 = pos + Z.of_nat n /\ newlines (substring 0 n s) = 0%nat.
Proof.
  intros Hc H.
  pose proof (run_sound _ _ _ _ _ _ H) as (n2 & m2 & _ & _ & Hl2 & Hk2).
  apply run_clean in H; auto. destruct H as (n & m' & _ & Hcl & Hk).
  unfold whole in Hk, Hk2. injection Hk2 as <-. injection Hk as Hk.
  rewrite repeat_length in Hl2.
  assert (Hl : length m' = 38%nat).
  { apply (f_equal (@length _)) in Hk. rewrite !setCap_length in Hk. lia. }
  apply (f_equal (fun m => idx m 1)) in Hk.
  destruct (setCap_0 pos (pos + Z.of_nat n2) m2) as [_ H2]; [lia|].
  destruct (setCap_0 pos (pos + Z.of_nat n) m') as [_ H1]; [lia|].
  rewrite H1, H2 in Hk.
  exists n2. split; [exact H2|].
  assert (n = n2) as <- by lia. exact Hcl.
Qed.

Lemma alternate_cases a b s pos m k (P : Match -> Prop) :
  (forall r, run a s pos m k = Some r -> P r) ->
  (forall r, run b s pos m k = Some r -> P r) ->
  forall r, run (OpAlternate a b) s pos m k = Some r -> P r.
Proof.
  intros Ha Hb r. cbn [run].
  destruct (run a s pos m k) as [r'|] eqn:E; [intros [= <-]|]; auto.
Qed.

(** A match that starts with neither a double quote nor a newline holds no
    newline: it is not a match of the STRING pattern, nor of the NEWLINE
    pattern, and the other patterns are clean. *)
Lemma matchAt_clean s pos m c w :
  utf8.DecodeRuneInString s = (c, S w) ->
  c <> 34%N -> c <> 10%N ->
  matchAt compiled s pos = Some m ->
  exists n : nat,
    idx m 1 = pos + Z.of_nat n /\ newlines (substring 0 n s) = 0%nat.
Proof.
  intros E H34 H10. unfold matchAt. cbn [expr numSubexp compiled].
  change (2 * (18 + 1))%nat with 38%nat.
  change (fun (_ : string) (pos' : Z) (m : Match) =>
            Some (setCap 0 pos pos' m)) with (whole pos).
  revert m. unfold combined, lastAlternatives.
  repeat apply alternate_cases; intros r H;
    try (apply capture_clean in H; [exact H | reflexivity]).
  - eapply string_capture in H; [|reflexivity|exact E].
    destruct H as [T _]. apply N.eqb_eq in T. congruence.
  - cbn [run] in H. rewrite (rune1_decided _ _ _ _ _ c w E) in H.
    destruct (N.eqb_spec 10 c); [congruence|discriminate].
Qed.

(** The text of a match holds no newline, or is the newline, or starts
    with a double quote. *)
Lemma matches_clean (code : string) (m : Match) :
  In m (matches code) ->
  newlines (value code m) = 0%nat
  \/ value code m = nl
  \/ quoted (value code m) = true.
Proof.
  intros Hin.
  pose proof (matches_switch code m Hin) as (_ & _ & Hmis).
  pose proof (matches_origin code) as Ho.
  rewrite Forall_forall in Ho. apply Ho in Hin.
  pose proof (origin_kind code m Hin) as (ch & text & Hv & Hk & _).
  destruct Hin as (pos & Hpos & Hm).
  destruct (N.eqb_spec 34 (utf8.byte ch)) as [E34|E34].
  { right. right. rewrite Hv. simpl. rewrite <- E34. reflexivity. }
  destruct (N.eqb_spec 10 (utf8.byte ch)) as [E10|E10].
  { right. left. apply String.eqb_eq. rewrite <- Hmis, Hk, <- E10.
    reflexivity. }
  left.
  pose proof (matchAt_sound _ _ _ _ Hm) as (n' & Hn' & _ & _ & H0 & H1).
  assert (Hs : substring 0 n' (drop (Z.to_nat pos) code) = String ch text).
  { rewrite <- substring_at_drop, <- Hv. unfold value, slice.
    rewrite H0, H1. f_equal. lia. }
  destruct (drop (Z.to_nat pos) code) as [|ch' rest] eqn:Ed.
  { rewrite matchAt_empty in Hm. discriminate. }
  assert (ch' = ch) as ->.
  { destruct n'; simpl in Hs; [discriminate|]. congruence. }
  destruct (DecodeRuneInString_first ch rest) as (c & w & E & Hlow & Hhigh).
  eapply matchAt_clean in Hm; [|exact E| |].
  - destruct Hm as (n & Hn & Hcl). assert (n = n') as -> by lia.
    rewrite <- Hv in Hs. rewrite <- Hs. exact Hcl.
  - destruct (N.lt_ge_cases (utf8.byte ch) 128) as [Hb|Hb].
    + destruct (Hlow Hb) as [-> _]. congruence.
    + specialize (Hhigh Hb). lia.
  - destruct (N.lt_ge_cases (utf8.byte ch) 128) as [Hb|Hb].
    + destruct (Hlow Hb) as [-> _]. congruence.
    + specialize (Hhigh Hb). lia.
Qed.

Lemma quotes_app (a b : string) :
  quotes (a ++ b) = (quotes a + quotes b)%nat.
Proof. induction a as [|c a IH]; simpl; auto. rewrite IH. lia. Qed.

Lemma quotes_cat (texts : list string) (text : string) :
  In text texts -> (quotes text <= quotes (cat texts))%nat.
Proof.
  induction texts as [|t texts IH]; simpl; [tauto|].
  rewrite quotes_app. intros [->|H]; [lia|]. specialize (IH H). lia.
Qed.

Lemma quoted_quotes (text : string) :
  quoted text = true -> (0 < quotes text)%nat.
Proof.
  destruct text as [|ch text]; [discriminate|]. cbn [quoted]. intros H.
  apply N.eqb_eq, eq_sym, byte_inj in H. subst ch. simpl. lia.
Qed.

Lemma newlines_cat_some (texts : list string) :
  (0 < newlines (cat texts))%nat ->
  exists text, In text texts /\ (0 < newlines text)%nat.
Proof.
  induction texts as [|t texts IH]; simpl; [lia|].
  rewrite newlines_app. intros H.
  destruct (Nat.eq_dec (newlines t) 0) as [E|E].
  - destruct IH as (text & Hin & Hn); [lia|]. eauto.
  - exists t. split; [auto|lia].
Qed.

(** ** More on the lexer *)

(** X1.  When [tokenize] succeeds, no token before the end marker has an
    empty text, and the type of each is the one that the first byte of its
    text decides ([kindOfText]): a digit gives NUMBER, a string literal ID,
    a letter or an underscore LPAREN, an operator character RPAREN, the
    parentheses LBRACE and RBRACE, the braces LANGLE and RANGLE, the colon
    COMMA, and any other text, a blank one too, the empty type. *)
Theorem lexed_kind_of_text (code : string) (toks : list Token) :
  tokenize code = Tokens toks ->
  Forall (fun t => Value t <> EmptyString
                   /\ Type_ t = kindOfText (Value t))
         (removelast toks).
Proof.
  intros H. apply tokenize_Tokens in H. destruct H as [-> _].
  rewrite removelast_last. apply Forall_forall. intros t Ht.
  apply tokensOf_In in Ht. destruct Ht as (ms1 & m & ms2 & E & _ & ->).
  assert (Hin : In m (matches code))
    by (rewrite E; apply in_or_app; right; left; reflexivity).
  cbn [Value Type_ tokenOf]. split; [|now apply matches_kind].
  pose proof (matches_origin code) as Ho.
  rewrite Forall_forall in Ho. apply Ho, origin_kind in Hin.
  destruct Hin as (ch & text & -> & _). discriminate.
Qed.

(** X1 on a line of text. *)
Lemma lexed_kind_of_text_witness :
  tokenize line_source
  = Tokens [ mkToken "LPAREN" "f" 1 0; mkToken "LBRACE" "(" 1 1;
             mkToken "LPAREN" "x1" 1 2; mkToken "" " " 1 5;
             mkToken "NUMBER" "2.5" 1 6; mkToken "RBRACE" ")" 1 9;
             mkToken "" " " 1 10; mkToken "EOF" "" 2 0 ]
  /\ Forall (fun t => Value t <> EmptyString
                      /\ Type_ t = kindOfText (Value t))
            (removelast
               [ mkToken "LPAREN" "f" 1 0; mkToken "LBRACE" "(" 1 1;
                 mkToken "LPAREN" "x1" 1 2; mkToken "" " " 1 5;
                 mkToken "NUMBER" "2.5" 1 6; mkToken "RBRACE" ")" 1 9;
                 mkToken "" " " 1 10; mkToken "EOF" "" 2 0 ]).
Proof.
  assert (H : tokenize line_source
              = Tokens [ mkToken "LPAREN" "f" 1 0; mkToken "LBRACE" "(" 1 1;
                         mkToken "LPAREN" "x1" 1 2; mkToken "" " " 1 5;
                         mkToken "NUMBER" "2.5" 1 6; mkToken "RBRACE" ")" 1 9;
                         mkToken "" " " 1 10; mkToken "EOF" "" 2 0 ])
    by (vm_compute; reflexivity).
  split; [exact H|].
  exact (lexed_kind_of_text line_source _ H).
Defined.

(** X2.  The type of a token that [tokenize] returns is one of NUMBER, ID,
    LPAREN, RPAREN, LBRACE, RBRACE, LANGLE, RANGLE, COMMA, the empty type
    and EOF: no token has the type STRING, OP, COLON or SEMICOLON of
    [tokenSpecs]. *)
Theorem lexed_kinds (code : string) (toks : list Token) :
  tokenize code = Tokens toks ->
  Forall (fun t => In (Type_ t) lexedKinds) toks.
Proof.
  intros H. apply tokenize_Tokens in H. destruct H as [-> Hmis].
  apply Forall_app. split; [|repeat constructor; simpl; tauto].
  apply Forall_forall. intros t Ht.
  apply tokensOf_In in Ht. destruct Ht as (ms1 & m & ms2 & E & Hd & ->).
  assert (Hin : In m (matches code))
    by (rewrite E; apply in_or_app; right; left; reflexivity).
  rewrite Forall_forall in Hmis. specialize (Hmis m Hin).
  unfold discarded in Hd. apply orb_false_iff in Hd. destruct Hd as [H1 H2].
  unfold isMISMATCH in Hmis. apply String.eqb_neq in H1, H2, Hmis.
  cbn [Type_ tokenOf].
  pose proof (matches_kind code m Hin) as Hk.
  destruct (value code m) as [|ch text]; [rewrite Hk; simpl; tauto|].
  pose proof (kindOfByte_cases (utf8.byte ch) (String.eqb text EmptyString))
    as Hc.
  cbn [kindOfText] in Hk. rewrite <- Hk in Hc. unfold lexedKinds.
  simpl in Hc |- *. intuition congruence.
Qed.

(** X2 on a line of text. *)
Lemma lexed_kinds_witness :
  tokenize line_source
  = Tokens [ mkToken "LPAREN" "f" 1 0; mkToken "LBRACE" "(" 1 1;
             mkToken "LPAREN" "x1" 1 2; mkToken "" " " 1 5;
             mkToken "NUMBER" "2.5" 1 6; mkToken "RBRACE" ")" 1 9;
             mkToken "" " " 1 10; mkToken "EOF" "" 2 0 ]
  /\ Forall (fun t => In (Type_ t) lexedKinds)
            [ mkToken "LPAREN" "f" 1 0; mkToken "LBRACE" "(" 1 1;
              mkToken "LPAREN" "x1" 1 2; mkToken "" " " 1 5;
              mkToken "NUMBER" "2.5" 1 6; mkToken "RBRACE" ")" 1 9;
              mkToken "" " " 1 10; mkToken "EOF" "" 2 0 ].
Proof.
  assert (H : tokenize line_source
              = Tokens [ mkToken "LPAREN" "f" 1 0; mkToken "LBRACE" "(" 1 1;
                         mkToken "LPAREN" "x1" 1 2; mkToken "" " " 1 5;
                         mkToken "NUMBER" "2.5" 1 6; mkToken "RBRACE" ")" 1 9;
                         mkToken "" " " 1 10; mkToken "EOF" "" 2 0 ])
    by (vm_compute; reflexivity).
  split; [exact H|].
  exact (lexed_kinds line_source _ H).
Defined.

(** X3.  The only text that [tokenize] reports as unexpected is the
    newline: a LexError has the newline as its value, a line number of at
    least 1 and a column that is not negative, and the input has a newline
    byte. *)
Theorem lex_error_newline (code : string) (err : LexError) :
  tokenize code = LexErr err ->
  errValue err = nl /\ 1 <= errLine err /\ 0 <= errCol err
  /\ (0 < newlines code)%nat.
Proof.
  intros H. apply tokenize_LexErr in H.
  destruct H as (ms1 & m & ms2 & E & _ & Hm & ->).
  assert (Hin : In m (matches code))
    by (rewrite E; apply in_or_app; right; left; reflexivity).
  apply matches_switch in Hin. destruct Hin as (_ & _ & H3).
  unfold isMISMATCH in Hm. rewrite H3 in Hm. apply String.eqb_eq in Hm.
  cbn [errValue errLine errCol]. repeat split; auto.
  - unfold lineOf. lia.
  - pose proof (matches_lineStart code ms1 ms2 m E). lia.
  - pose proof (matches_partition code) as Hp. rewrite E, map_app in Hp.
    cbn [map] in Hp. rewrite Hm in Hp.
    pose proof (newlines_cat (map (value code) ms1) (map (value code) ms2) nl)
      as Hn.
    rewrite Hp in Hn. simpl in Hn. lia.
Qed.

(** X3 on an identifier followed by a newline. *)
Lemma lex_error_newline_witness :
  tokenize ("a" ++ nl) = LexErr (mkLexError nl 1 1)
  /\ errValue (mkLexError nl 1 1) = nl
  /\ 1 <= errLine (mkLexError nl 1 1)
  /\ 0 <= errCol (mkLexError nl 1 1)
  /\ (0 < newlines ("a" ++ nl))%nat.
Proof.
  assert (H : tokenize ("a" ++ nl) = LexErr (mkLexError nl 1 1))
    by (vm_compute; reflexivity).
  split; [exact H|].
  exact (lex_error_newline _ _ H).
Defined.

(** X4.  A text without a newline byte always lexes: [tokenize] returns a
    token slice for it. *)
Theorem lex_one_line (code : string) :
  newlines code = 0%nat -> exists toks, tokenize code = Tokens toks.
Proof.
  intros Hn. destruct (tokenize code) as [toks|err|] eqn:H; eauto.
  - apply tokenize_LexErr in H.
    destruct H as (ms1 & m & ms2 & E & _ & Hm & _).
    assert (Hin : In m (matches code))
      by (rewrite E; apply in_or_app; right; left; reflexivity).
    apply matches_switch in Hin. destruct Hin as (_ & _ & H3).
    unfold isMISMATCH in Hm. rewrite H3 in Hm. apply String.eqb_eq in Hm.
    pose proof (matches_partition code) as Hp. rewrite E, map_app in Hp.
    cbn [map] in Hp. rewrite Hm in Hp.
    pose proof (newlines_cat (map (value code) ms1) (map (value code) ms2) nl)
      as Hc.
    rewrite Hp in Hc. simpl in Hc. lia.
  - exfalso. exact (tokenize_no_panic code H).
Qed.

(** X4 on a line of text. *)
Lemma lex_one_line_witness :
  newlines line_source = 0%nat
  /\ exists toks, tokenize line_source = Tokens toks.
Proof.
  split; [reflexivity|]. apply lex_one_line. reflexivity.
Defined.

(** X5.  The matches that [tokenize] leaves out of the token slice are the
    semicolons and the commas, and nothing else: the texts of the tokens
    before the end marker are the texts of the matches without the texts
    [;] and [,], in order.  The blanks stay, as tokens of their own. *)
Theorem lexed_texts (code : string) (toks : list Token) :
  tokenize code = Tokens toks ->
  map Value (removelast toks)
  = filter (fun text => negb (droppedText text))
           (map (value code) (matches code)).
Proof.
  intros H. apply tokenize_Tokens in H. destruct H as [-> _].
  rewrite removelast_last, tokensOf_Values.
  pose proof (matches_discarded code) as Hd. revert Hd.
  induction (matches code) as [|m ms IH]; intros Hd; [reflexivity|].
  cbn [filter map]. rewrite <- (Hd m) by (left; reflexivity).
  rewrite <- IH by (intros m' Hm'; apply Hd; right; exact Hm').
  destruct (discarded m); reflexivity.
Qed.

(** X5 on a line of text. *)
Lemma lexed_texts_witness :
  tokenize line_source
  = Tokens [ mkToken "LPAREN" "f" 1 0; mkToken "LBRACE" "(" 1 1;
             mkToken "LPAREN" "x1" 1 2; mkToken "" " " 1 5;
             mkToken "NUMBER" "2.5" 1 6; mkToken "RBRACE" ")" 1 9;
             mkToken "" " " 1 10; mkToken "EOF" "" 2 0 ]
  /\ map Value
         (removelast
            [ mkToken "LPAREN" "f" 1 0; mkToken "LBRACE" "(" 1 1;
              mkToken "LPAREN" "x1" 1 2; mkToken "" " " 1 5;
              mkToken "NUMBER" "2.5" 1 6; mkToken "RBRACE" ")" 1 9;
              mkToken "" " " 1 10; mkToken "EOF" "" 2 0 ])
     = filter (fun text => negb (droppedText text))
              (map (value line_source) (matches line_source)).
Proof.
  assert (H : tokenize line_source
              = Tokens [ mkToken "LPAREN" "f" 1 0; mkToken "LBRACE" "(" 1 1;
                         mkToken "LPAREN" "x1" 1 2; mkToken "" " " 1 5;
                         mkToken "NUMBER" "2.5" 1 6; mkToken "RBRACE" ")" 1 9;
                         mkToken "" " " 1 10; mkToken "EOF" "" 2 0 ])
    by (vm_compute; reflexivity).
  split; [exact H|].
  exact (lexed_texts line_source _ H).
Defined.

(** X6.  [tokenize] raises no run-time panic: the pattern compiles, every
    index array of a match has 38 entries, so the reads up to the index 33
    are inside it, and the bounds of a match are inside the text, the start
    before the end, so the slice of the text is defined and not empty. *)
Theorem tokenize_reads_in_range (code : string) :
  tokenize code <> CompilePanic
  /\ Forall (fun m => length m = 38%nat
                      /\ 0 <= idx m 0 /\ idx m 0 < idx m 1
                      /\ idx m 1 <= Z.of_nat (String.length code))
            (matches code).
Proof.
  split; [apply tokenize_no_panic|].
  apply (chain_bounds _ _ 0); [lia|apply matches_chain].
Qed.

(** X7.  The positions of the tokens: every line number is at least 1 and
    no column is negative. *)
Theorem lexed_positions (code : string) (toks : list Token) :
  tokenize code = Tokens toks ->
  Forall (fun t => 1 <= Line t /\ 0 <= Column t) toks.
Proof.
  intros H. apply tokenize_Tokens in H. destruct H as [-> _].
  apply Forall_app. split.
  - apply Forall_forall. intros t Ht.
    apply tokensOf_In in Ht. destruct Ht as (ms1 & m & ms2 & E & _ & ->).
    cbn [Line Column tokenOf]. rewrite app_nil_l.
    pose proof (matches_lineStart code ms1 ms2 m E).
    unfold lineOf. lia.
  - repeat constructor; cbn [Line Column]; unfold lineOf; lia.
Qed.

(** X7 on a line of text. *)
Lemma lexed_positions_witness :
  tokenize line_source
  = Tokens [ mkToken "LPAREN" "f" 1 0; mkToken "LBRACE" "(" 1 1;
             mkToken "LPAREN" "x1" 1 2; mkToken "" " " 1 5;
             mkToken "NUMBER" "2.5" 1 6; mkToken "RBRACE" ")" 1 9;
             mkToken "" " " 1 10; mkToken "EOF" "" 2 0 ]
  /\ Forall (fun t => 1 <= Line t /\ 0 <= Column t)
            [ mkToken "LPAREN" "f" 1 0; mkToken "LBRACE" "(" 1 1;
              mkToken "LPAREN" "x1" 1 2; mkToken "" " " 1 5;
              mkToken "NUMBER" "2.5" 1 6; mkToken "RBRACE" ")" 1 9;
              mkToken "" " " 1 10; mkToken "EOF" "" 2 0 ].
Proof.
  assert (H : tokenize line_source
              = Tokens [ mkToken "LPAREN" "f" 1 0; mkToken "LBRACE" "(" 1 1;
                         mkToken "LPAREN" "x1" 1 2; mkToken "" " " 1 5;
                         mkToken "NUMBER" "2.5" 1 6; mkToken "RBRACE" ")" 1 9;
                         mkToken "" " " 1 10; mkToken "EOF" "" 2 0 ])
    by (vm_compute; reflexivity).
  split; [exact H|].
  exact (lexed_positions line_source _ H).
Defined.

(** X8.  A text with a newline and without a double quote does not lex:
    [tokenize] returns a LexError for it.  Outside a string literal, the
    newline is a match of its own, which the switch takes as MISMATCH. *)
Theorem lex_newline_rejected (code : string) :
  (0 < newlines code)%nat -> quotes code = 0%nat ->
  exists err, tokenize code = LexErr err.
Proof.
  intros Hn Hq.
  pose proof (matches_partition code) as Hp.
  rewrite <- Hp in Hn. apply newlines_cat_some in Hn.
  destruct Hn as (text & Hin & Hn).
  pose proof (quotes_cat _ _ Hin) as Hqt. rewrite Hp, Hq in Hqt.
  apply in_map_iff in Hin. destruct Hin as (m & <- & Hin).
  destruct (matches_clean code m Hin) as [Hc|[Hc|Hc]]; [lia| |].
  - pose proof (matches_switch code m Hin) as (_ & _ & Hmis).
    rewrite Hc in Hmis. simpl in Hmis.
    destruct (tokenize code) as [toks|err|] eqn:H; eauto.
    + apply tokenize_Tokens in H. destruct H as [_ H].
      rewrite Forall_forall in H. specialize (H m Hin).
      unfold isMISMATCH in H. congruence.
    + exfalso. exact (tokenize_no_panic code H).
  - apply quoted_quotes in Hc. lia.
Qed.

(** X8 on two lines. *)
Lemma lex_newline_rejected_witness :
  (0 < newlines ("a" ++ nl ++ "b"))%nat
  /\ quotes ("a" ++ nl ++ "b") = 0%nat
  /\ exists err, tokenize ("a" ++ nl ++ "b") = LexErr err.
Proof.
  split; [simpl; lia|]. split; [reflexivity|].
  apply lex_newline_rejected; [simpl; lia|reflexivity].
Defined.

Lemma filter_switch (code : string) (ms : list Match) :
  (forall m, In m ms -> isNEWLINE m = String.eqb (value code m) ";") ->
  length (filter isNEWLINE ms)
  = length (filter (fun text => String.eqb text ";") (map (value code) ms)).
Proof.
  induction ms as [|m ms IH]; intros H; [reflexivity|].
  cbn [filter map]. rewrite <- (H m) by (left; reflexivity).
  destruct (isNEWLINE m); cbn [length]; rewrite IH; auto;
    intros m' Hm'; apply H; right; exact Hm'.
Qed.

(** X9.  The line counter counts semicolons: when [tokenize] succeeds,
    the line of the end marker is one plus the number of the matches whose
    text is [;], whatever the number of lines of the input. *)
Theorem lexed_lines_count_semicolons (code : string) (toks : list Token) :
  tokenize code = Tokens toks ->
  exists body eof,
    toks = (body ++ [eof])%list /\ Type_ eof = "EOF"
    /\ Line eof
       = 1 + Z.of_nat (length (filter (fun text => String.eqb text ";")
                                      (map (value code) (matches code)))).
Proof.
  intros H. apply tokenize_Tokens in H. destruct H as [-> _].
  eexists. eexists. split; [reflexivity|]. split; [reflexivity|].
  cbn [Line]. unfold lineOf. rewrite (filter_switch code); [reflexivity|].
  intros m Hm. apply matches_switch in Hm. unfold isNEWLINE. tauto.
Qed.

(** X9 on a line of text with one semicolon. *)
Lemma lexed_lines_count_semicolons_witness :
  tokenize line_source
  = Tokens [ mkToken "LPAREN" "f" 1 0; mkToken "LBRACE" "(" 1 1;
             mkToken "LPAREN" "x1" 1 2; mkToken "" " " 1 5;
             mkToken "NUMBER" "2.5" 1 6; mkToken "RBRACE" ")" 1 9;
             mkToken "" " " 1 10; mkToken "EOF" "" 2 0 ]
  /\ exists body eof,
       [ mkToken "LPAREN" "f" 1 0; mkToken "LBRACE" "(" 1 1;
         mkToken "LPAREN" "x1" 1 2; mkToken "" " " 1 5;
         mkToken "NUMBER" "2.5" 1 6; mkToken "RBRACE" ")" 1 9;
         mkToken "" " " 1 10; mkToken "EOF" "" 2 0 ]
       = (body ++ [eof])%list /\ Type_ eof = "EOF"
       /\ Line eof
          = 1 + Z.of_nat
                  (length (filter (fun text => String.eqb text ";")
                                  (map (value line_source)
                                       (matches line_source)))).
Proof.
  assert (H : tokenize line_source
              = Tokens [ mkToken "LPAREN" "f" 1 0; mkToken "LBRACE" "(" 1 1;
                         mkToken "LPAREN" "x1" 1 2; mkToken "" " " 1 5;
                         mkToken "NUMBER" "2.5" 1 6; mkToken "RBRACE" ")" 1 9;
                         mkToken "" " " 1 10; mkToken "EOF" "" 2 0 ])
    by (vm_compute; reflexivity).
  split; [exact H|].
  exact (lexed_lines_count_semicolons line_source _ H).
Defined.

(** ** The parser on the tokens of the lexer *)

Lemma kindOfText_ID (text : string) :
  kindOfText text = "ID" -> quoted text = true.
Proof.
  destruct text as [|ch text]; [discriminate|]. simpl. unfold kindOfByte.
  repeat match goal with
         | |- context [if ?c then _ else _] => destruct c eqn:?
         end; try discriminate; auto.
Qed.

Lemma kindOfText_NUMBER (text : string) :
  kindOfText text = "NUMBER" -> numeric text = true.
Proof.
  destruct text as [|ch text]; [discriminate|]. simpl. unfold kindOfByte.
  repeat match goal with
         | |- context [if ?c then _ else _] => destruct c eqn:?
         end; try discriminate; auto.
Qed.

Lemma kindOfText_cases (text : string) :
  In (kindOfText text)
     [ "NUMBER"; "ID"; "LPAREN"; "RPAREN"; "LBRACE"; "RBRACE"; "LANGLE";
       "RANGLE"; "COMMA"; EmptyString; "NEWLINE"; "SKIP"; "MISMATCH" ].
Proof.
  destruct text as [|ch text]; [simpl; tauto|]. apply kindOfByte_cases.
Qed.

Lemma lexedToken_ID (tok : Token) :
  lexedToken tok -> Type_ tok = "ID" -> quoted (Value tok) = true.
Proof.
  intros [[H _]|H] E; rewrite E in H; [discriminate|].
  now apply kindOfText_ID.
Qed.

Lemma lexedToken_NUMBER (tok : Token) :
  lexedToken tok -> Type_ tok = "NUMBER" -> numeric (Value tok) = true.
Proof.
  intros [[H _]|H] E; rewrite E in H; [discriminate|].
  now apply kindOfText_NUMBER.
Qed.

Lemma lexedToken_kinds (tok : Token) :
  lexedToken tok ->
  Type_ tok <> "STRING" /\ Type_ tok <> "OP" /\ Type_ tok <> "COLON"
  /\ Type_ tok <> "SEMICOLON".
Proof.
  intros [[H _]|H]; [rewrite H; repeat split; discriminate|].
  pose proof (kindOfText_cases (Value tok)) as Hc. rewrite <- H in Hc.
  simpl in Hc. repeat split; intros E; rewrite E in Hc;
    repeat (destruct Hc as [Hc|Hc]; [discriminate Hc|]); exact Hc.
Qed.

Section Lexed.

Variable tokens : list Token.
Hypothesis Hlex : Forall lexedToken tokens.

(** The token that a read returns, and the cursor after it; nothing is
    asked of a panic, nor of the bound of the model. *)
Abbreviation reads Q := (post Q (fun _ => True) True).

Lemma current_reads (pos : nat) :
  reads (fun tok p => p = pos /\ nth_error tokens pos = Some tok
                      /\ lexedToken tok)
        (current tokens pos).
Proof.
  unfold current, tokenAt.
  destruct (nth_error tokens pos) as [tok|] eqn:E; simpl; auto.
  repeat split. rewrite Forall_forall in Hlex.
  eapply Hlex, nth_error_In, E.
Qed.

Lemma consume_reads (expectedType : list string) (pos : nat) :
  reads (fun tok p =>
           p = S pos /\ nth_error tokens pos = Some tok /\ lexedToken tok
           /\ ((0 <? length expectedType)%nat = true ->
               existsb (fun typ => String.eqb (Type_ tok) typ
                                   || String.eqb (Value tok) typ)
                       expectedType = true))
        (consume tokens expectedType pos).
Proof.
  unfold consume.
  eapply post_bind; [apply current_reads | intros tok p (-> & Hn & Hl)].
  destruct (0 <? length expectedType)%nat; simpl.
  - destruct (existsb _ expectedType) eqn:Ex; simpl; auto.
  - repeat split; auto. discriminate.
Qed.

Lemma consume_ID (pos : nat) :
  reads (fun tok p => p = S pos /\ lexedName (Value tok) = true)
        (consume tokens ["ID"] pos).
Proof.
  eapply post_weaken; [apply consume_reads|].
  intros tok p (-> & _ & Hl & Hacc). split; [reflexivity|].
  specialize (Hacc eq_refl). simpl in Hacc. rewrite !orb_false_r in Hacc.
  unfold lexedName. apply orb_true_iff in Hacc. apply orb_true_iff.
  destruct Hacc as [H|H]; [left|right; exact H].
  apply String.eqb_eq in H. now apply lexedToken_ID.
Qed.

Lemma parseExpression_lexed (pos : nat) :
  reads (fun e _ => quoted (ExprValue e) || numeric (ExprValue e) = true)
        (parseExpression tokens pos).
Proof.
  unfold parseExpression.
  eapply post_bind; [apply consume_reads | intros tok p (_ & _ & Hl & _)].
  destruct (String.eqb_spec (Type_ tok) "NUMBER") as [E1|_]; simpl.
  { rewrite (lexedToken_NUMBER tok Hl E1). apply orb_true_r. }
  destruct (String.eqb_spec (Type_ tok) "STRING") as [E2|_]; simpl.
  { now apply lexedToken_kinds in Hl. }
  destruct (String.eqb_spec (Type_ tok) "ID") as [E3|_]; simpl; auto.
  now rewrite (lexedToken_ID tok Hl E3).
Qed.

(** The assignment of a declaration is never read: the token [=] has the
    type RPAREN, which [consume("OP")] turns down. *)
Lemma parseStatement_lexed (pos : nat) :
  reads (fun stmt _ => lexedStatement stmt = true)
        (parseStatement tokens pos).
Proof.
  unfold parseStatement.
  eapply post_bind; [apply shaped_any | intros isDecl p _].
  destruct isDecl.
  - eapply post_bind; [apply consume_ID | intros varType p1 [-> Ht]].
    eapply post_bind; [apply consume_ID | intros varName p2 [-> Hn]].
    eapply post_bind;
      [apply current_reads | intros tok p3 (-> & Hnth & Hl)].
    eapply post_bind with (Q1 := fun def _ => ExprValue def = EmptyString).
    + destruct (String.eqb_spec (Value tok) "=") as [E|_]; [|reflexivity].
      eapply post_bind;
        [apply consume_reads | intros tok' p4 (_ & Hnth' & _ & Hacc)].
      exfalso. rewrite Hnth in Hnth'. injection Hnth' as <-.
      specialize (Hacc eq_refl). simpl in Hacc. rewrite E in Hacc.
      simpl in Hacc. rewrite !orb_false_r in Hacc.
      apply String.eqb_eq in Hacc. now apply lexedToken_kinds in Hl.
    + intros def p4 Hdef.
      eapply post_bind; [apply shaped_any | intros ? ? _].
      simpl. rewrite Ht, Hn, Hdef. reflexivity.
  - eapply post_bind; [apply parseExpression_lexed | intros e p1 He].
    eapply post_bind; [apply shaped_any | intros ? ? _].
    exact He.
Qed.

Lemma parseBlockLoop_lexed (fuel : nat) : forall stmts pos,
  forallb lexedStatement stmts = true ->
  reads (fun stmts' _ => forallb lexedStatement stmts' = true)
        (parseBlockLoop tokens fuel stmts pos).
Proof.
  induction fuel as [|fuel IH]; intros stmts pos Hs; cbn [parseBlockLoop];
    (eapply post_bind; [apply shaped_any | intros tok p _]);
    destruct (negb _); simpl; auto.
  eapply post_bind; [apply parseStatement_lexed | intros stmt p' Hstmt].
  apply IH. rewrite forallb_app, Hs. simpl. now rewrite Hstmt.
Qed.

Lemma parseBlock_lexed (pos : nat) :
  reads (fun stmts _ => forallb lexedStatement stmts = true)
        (parseBlock tokens pos).
Proof.
  unfold parseBlock.
  eapply post_bind; [apply shaped_any | intros ? ? _].
  eapply post_bind; [now apply parseBlockLoop_lexed | intros stmts p' Hs].
  eapply post_bind; [apply shaped_any | intros ? ? _].
  exact Hs.
Qed.

Lemma parseParamsLoop_lexed (fuel : nat) : forall params pos,
  forallb lexedParam params = true ->
  reads (fun params' _ => forallb lexedParam params' = true)
        (parseParamsLoop tokens fuel params pos).
Proof.
  induction fuel as [|fuel IH]; intros params pos Hp;
    cbn [parseParamsLoop];
    (eapply post_bind; [apply consume_ID | intros paramType p1 [-> Ht]]);
    (eapply post_bind; [apply consume_ID | intros paramName p2 [-> Hn]]);
    (eapply post_bind; [apply shaped_any | intros tok p3 _]);
    assert (Hp' : forallb lexedParam
                    (params ++ [mkParam (Value paramType) (Value paramName)])
                  = true)
      by (rewrite forallb_app, Hp; unfold lexedParam; simpl;
          now rewrite Ht, Hn);
    destruct (String.eqb (Type_ tok) "COMMA"); simpl; auto;
    (eapply post_bind; [apply shaped_any | intros ? ? _]); simpl; auto.
Qed.

Lemma parseParams_lexed (pos : nat) :
  reads (fun params _ => forallb lexedParam params = true)
        (parseParams tokens pos).
Proof.
  unfold parseParams.
  eapply post_bind; [apply shaped_any | intros tok p _].
  destruct (String.eqb (Type_ tok) "RPAREN"); simpl; auto.
  now apply parseParamsLoop_lexed.
Qed.

Lemma parseFunction_lexed (pos : nat) :
  reads (fun decl _ => lexedDecl decl = true) (parseFunction tokens pos).
Proof.
  unfold parseFunction.
  eapply post_bind; [apply consume_ID | intros retType p1 [-> Hr]].
  eapply post_bind; [apply consume_ID | intros name p2 [-> Hn]].
  eapply post_bind; [apply shaped_any | intros ? ? _].
  eapply post_bind; [apply parseParams_lexed | intros params p3 Hp].
  eapply post_bind; [apply shaped_any | intros ? ? _].
  eapply post_bind; [apply parseBlock_lexed | intros body p4 Hb].
  simpl. now rewrite Hr, Hn, Hp, Hb.
Qed.

(** The token [class] has the type LPAREN, which the first [consume("ID")]
    of [parseClass] turns down. *)
Lemma parseClass_lexed (pos : nat) (tok : Token) :
  nth_error tokens pos = Some tok -> lexedToken tok ->
  Value tok = "class" ->
  reads (fun _ _ => False) (parseClass tokens pos).
Proof.
  intros Hnth Hl E. unfold parseClass.
  eapply post_bind;
    [apply consume_reads | intros tok' p (_ & Hnth' & _ & Hacc)].
  exfalso. rewrite Hnth in Hnth'. injection Hnth' as <-.
  specialize (Hacc eq_refl). simpl in Hacc. rewrite E in Hacc.
  simpl in Hacc. rewrite !orb_false_r in Hacc. apply String.eqb_eq in Hacc.
  destruct Hl as [[H _]|H]; rewrite Hacc in H; [discriminate|].
  rewrite E in H. discriminate.
Qed.

Lemma parseLoop_lexed (fuel : nat) : forall decls pos,
  forallb lexedDecl decls = true ->
  reads (fun decls' _ => forallb lexedDecl decls' = true)
        (parseLoop tokens fuel decls pos).
Proof.
  induction fuel as [|fuel IH]; intros decls pos Hd; cbn [parseLoop];
    (eapply post_bind;
       [apply current_reads | intros tok p (-> & Hnth & Hl)]);
    destruct (negb _); simpl; auto.
  eapply post_bind with (Q1 := fun decl _ => lexedDecl decl = true).
  - destruct (String.eqb_spec (Value tok) "class") as [E|_];
      [|apply parseFunction_lexed].
    eapply post_weaken; [apply (parseClass_lexed pos tok); auto|].
    intros ? ? [].
  - intros decl p' Hdecl. apply IH.
    rewrite forallb_app, Hd. simpl. now rewrite Hdecl.
Qed.

(** [parse] returns with the cursor on a token of the type EOF. *)
Lemma parseLoop_EOF (fuel : nat) : forall decls pos,
  reads (fun _ p => exists tok,
                      nth_error tokens p = Some tok /\ Type_ tok = "EOF")
        (parseLoop tokens fuel decls pos).
Proof.
  induction fuel as [|fuel IH]; intros decls pos; cbn [parseLoop];
    unfold bind at 1, current, tokenAt;
    destruct (nth_error tokens pos) as [tok|] eqn:Hnth; simpl; auto;
    destruct (String.eqb_spec (Type_ tok) "EOF") as [E|E]; simpl; eauto.
  eapply post_bind; [apply shaped_any | intros decl p' _]. apply IH.
Qed.

End Lexed.

Lemma parse_lexed (tokens : list Token) (p : Program) (pos : nat) :
  Forall lexedToken tokens ->
  parse tokens = Done p pos -> forallb lexedDecl (Declarations p) = true.
Proof.
  intros Hlex. unfold parse.
  pose proof (parseLoop_lexed tokens Hlex (length tokens) [] 0%nat eq_refl)
    as H.
  destruct (parseLoop tokens (length tokens) [] 0%nat); try discriminate.
  intros [= <- <-]. exact H.
Qed.

Lemma tokenize_lexed (code : string) (toks : list Token) :
  tokenize code = Tokens toks -> Forall lexedToken toks.
Proof.
  intros H. apply tokenize_Tokens in H. destruct H as [-> _].
  apply Forall_app. split; [|repeat constructor; left; auto].
  apply Forall_forall. intros t Ht.
  apply tokensOf_In in Ht. destruct Ht as (ms1 & m & ms2 & E & _ & ->).
  right. cbn [Type_ Value tokenOf]. apply matches_kind.
  rewrite E. apply in_or_app. right. left. reflexivity.
Qed.

(** ** More on the parser *)

(** X10.  [parse] ends on every token slice, with a Program or with a
    panic: every round of the loops of [parse], [parseBlock] and
    [parseParams] moves the cursor forward, so the loops stop at the latest
    when the cursor leaves the slice. *)
Theorem parse_ends (tokens : list Token) :
  (exists p pos, parse tokens = Done p pos)
  \/ (exists f, parse tokens = Panic f).
Proof.
  pose proof (parse_fuel tokens) as H.
  destruct (parse tokens) as [p pos|f|]; eauto. now destruct H.
Qed.

(** X11.  When [parse] returns a Program, the cursor is on a token of the
    slice, and that token has the type EOF: [parse] stops at the first end
    marker that a declaration does not swallow, and reads nothing after
    it. *)
Theorem parse_stops_at_EOF (tokens : list Token) (p : Program) (pos : nat) :
  parse tokens = Done p pos ->
  exists tok, nth_error tokens pos = Some tok /\ Type_ tok = "EOF".
Proof.
  unfold parse.
  pose proof (parseLoop_EOF tokens (length tokens) [] 0%nat) as H.
  destruct (parseLoop tokens (length tokens) [] 0%nat); try discriminate.
  intros [= <- <-]. exact H.
Qed.

(** X11 on the tokens of a function. *)
Lemma parse_stops_at_EOF_witness :
  parse add_tokens
  = Done (mkProgram
            [ FunctionDecl "int" "add"
                [mkParam "int" "a"; mkParam "int" "b"]
                [VarDecl "return" "a" (mkExpression EmptyString)] ]) 14
  /\ exists tok, nth_error add_tokens 14 = Some tok /\ Type_ tok = "EOF".
Proof.
  split; [reflexivity|].
  apply (parse_stops_at_EOF add_tokens
           (mkProgram
              [ FunctionDecl "int" "add"
                  [mkParam "int" "a"; mkParam "int" "b"]
                  [VarDecl "return" "a" (mkExpression EmptyString)] ])).
  reflexivity.
Defined.

(** X12.  [parse] needs the end marker: on a token slice without a token
    of the type EOF, the empty slice too, it never returns a Program, it
    panics. *)
Theorem parse_needs_EOF (tokens : list Token) :
  (forall tok, In tok tokens -> Type_ tok <> "EOF") ->
  exists f, parse tokens = Panic f.
Proof.
  intros Hno.
  pose proof (parse_fuel tokens) as Hfuel.
  pose proof (parseLoop_EOF tokens (length tokens) [] 0%nat) as H.
  unfold parse in *.
  destruct (parseLoop tokens (length tokens) [] 0%nat) as [decls pos|f|];
    [|eauto|now destruct Hfuel].
  simpl in H. destruct H as (tok & Hnth & E).
  apply nth_error_In in Hnth. now apply Hno in Hnth.
Qed.

(** X12 on the empty slice: the read of the current token is out of
    range. *)
Lemma parse_needs_EOF_witness : exists f, parse [] = Panic f.
Proof. apply parse_needs_EOF. intros tok []. Defined.

(** X13.  The trees of the parser have two levels: every declaration that
    [parse] returns, on any token slice, is a FunctionDecl or a ClassDecl,
    and every node of its block is a VarDecl or a Statement.  On such a
    tree each type switch of the generator finds its case: no declaration
    is passed over, and no statement of a function gets the placeholder
    comment. *)
Theorem parse_tree_shape (tokens : list Token) (p : Program) (pos : nat) :
  parse tokens = Done p pos ->
  forall decl, In decl (Declarations p) ->
    isDeclarationNode decl = true
    /\ forall stmt, In stmt (flat_map nodes
                               match decl with
                               | FunctionDecl _ _ _ Body => Body
                               | ClassDecl _ _ Members => Members
                               | _ => []
                               end) ->
         isStatementNode stmt = true.
Proof.
  intros H decl Hin. apply parse_shape in H.
  rewrite forallb_forall in H. specialize (H decl Hin).
  destruct decl as [r n ps body|n par ms| | |]; try discriminate;
    simpl in H; (split; [reflexivity|]);
    rewrite (statements_nodes _ H); now apply forallb_forall.
Qed.

(** X13 on the tokens of a function. *)
Lemma parse_tree_shape_witness :
  parse add_tokens = Done add_program 14
  /\ isDeclarationNode
       (FunctionDecl "int" "add" [mkParam "int" "a"; mkParam "int" "b"]
          [VarDecl "return" "a" (mkExpression EmptyString)]) = true
  /\ isStatementNode (VarDecl "return" "a" (mkExpression EmptyString))
     = true.
Proof.
  split; [reflexivity|].
  destruct (parse_tree_shape add_tokens add_program 14 eq_refl
              (FunctionDecl "int" "add"
                 [mkParam "int" "a"; mkParam "int" "b"]
                 [VarDecl "return" "a" (mkExpression EmptyString)]))
    as [Hd Hs]; [left; reflexivity|].
  split; [exact Hd|]. apply Hs. left. reflexivity.
Defined.

(** ** The panics of the parser *)

Section Faults.

Variable tokens : list Token.

(** Nothing is asked of a value; a panic tells the truth. *)
Abbreviation faults o := (post (fun _ _ => True) (truthful tokens) True o).

Lemma tokenAt_faults (i pos : nat) :
  post (fun tok _ => In tok tokens) (truthful tokens) True
       (tokenAt tokens i pos).
Proof.
  unfold tokenAt. destruct (nth_error tokens i) as [tok|] eqn:E; simpl.
  - eapply nth_error_In, E.
  - apply nth_error_None, E.
Qed.

Lemma consume_faults (expectedType : list string) (pos : nat) :
  post (fun tok _ => In tok tokens) (truthful tokens) True
       (consume tokens expectedType pos).
Proof.
  unfold consume.
  eapply post_bind; [apply tokenAt_faults | intros tok p Hin].
  fold (meets expectedType tok).
  destruct expectedType as [|typ types]; [simpl; auto|].
  cbn [length Nat.ltb Nat.leb andb].
  destruct (meets (typ :: types) tok) eqn:E; simpl; auto.
  repeat split; auto. discriminate.
Qed.

Lemma parseExpression_faults (pos : nat) :
  faults (parseExpression tokens pos).
Proof.
  unfold parseExpression.
  eapply post_bind; [apply consume_faults | intros tok p Hin].
  destruct (String.eqb_spec (Type_ tok) "NUMBER"); simpl; auto.
  destruct (String.eqb_spec (Type_ tok) "STRING"); simpl; auto.
  destruct (String.eqb_spec (Type_ tok) "ID"); simpl; auto.
Qed.

(** A step of a method that reads a token. *)
Ltac read_step :=
  eapply post_bind;
    [ first [ apply consume_faults | apply tokenAt_faults ]
    | intros ? ? _ ].

Lemma twoIDs_faults (pos : nat) : faults (twoIDs tokens pos).
Proof.
  unfold twoIDs, current. read_step.
  destruct (String.eqb _ "ID"); simpl; auto.
  eapply post_bind with (Q1 := fun _ _ => True); [simpl; auto|].
  intros pos0 ? _. read_step. simpl. auto.
Qed.

Lemma parseStatement_faults (pos : nat) :
  faults (parseStatement tokens pos).
Proof.
  unfold parseStatement, current.
  eapply post_bind; [apply twoIDs_faults | intros isDecl ? _].
  destruct isDecl.
  - do 3 read_step.
    eapply post_bind with (Q1 := fun _ _ => True).
    + destruct (String.eqb _ "="); simpl; auto.
      read_step. apply parseExpression_faults.
    + intros ? ? _. read_step. simpl. auto.
  - eapply post_bind; [apply parseExpression_faults | intros ? ? _].
    read_step. simpl. auto.
Qed.

Lemma parseBlockLoop_faults (fuel : nat) : forall stmts pos,
  faults (parseBlockLoop tokens fuel stmts pos).
Proof.
  induction fuel as [|fuel IH]; intros stmts pos; cbn [parseBlockLoop];
    unfold current; read_step; destruct (negb _); simpl; auto.
  eapply post_bind; [apply parseStatement_faults | intros ? ? _].
  apply IH.
Qed.

Lemma parseBlock_faults (pos : nat) : faults (parseBlock tokens pos).
Proof.
  unfold parseBlock. read_step.
  eapply post_bind; [apply parseBlockLoop_faults | intros ? ? _].
  read_step. simpl. auto.
Qed.

Lemma parseParamsLoop_faults (fuel : nat) : forall params pos,
  faults (parseParamsLoop tokens fuel params pos).
Proof.
  induction fuel as [|fuel IH]; intros params pos; cbn [parseParamsLoop];
    unfold current; do 3 read_step;
    destruct (String.eqb _ "COMMA"); simpl; auto;
    read_step; simpl; auto.
Qed.

Lemma parseParams_faults (pos : nat) : faults (parseParams tokens pos).
Proof.
  unfold parseParams, current. read_step.
  destruct (String.eqb _ "RPAREN"); simpl; auto.
  apply parseParamsLoop_faults.
Qed.

Lemma parseFunction_faults (pos : nat) : faults (parseFunction tokens pos).
Proof.
  unfold parseFunction. do 3 read_step.
  eapply post_bind; [apply parseParams_faults | intros ? ? _].
  read_step.
  eapply post_bind; [apply parseBlock_faults | intros ? ? _].
  simpl. auto.
Qed.

Lemma parseClass_faults (pos : nat) : faults (parseClass tokens pos).
Proof.
  unfold parseClass, current. do 3 read_step.
  eapply post_bind with (Q1 := fun _ _ => True).
  - destruct (String.eqb _ "COLON"); simpl; auto.
    do 2 read_step. simpl. auto.
  - intros ? ? _.
    eapply post_bind; [apply parseBlock_faults | intros ? ? _].
    simpl. auto.
Qed.

Lemma parseLoop_faults (fuel : nat) : forall decls pos,
  faults (parseLoop tokens fuel decls pos).
Proof.
  induction fuel as [|fuel IH]; intros decls pos; cbn [parseLoop];
    unfold current; read_step; destruct (negb _); simpl; auto.
  eapply post_bind with (Q1 := fun _ _ => True).
  - destruct (String.eqb _ "class");
      [apply parseClass_faults | apply parseFunction_faults].
  - intros ? ? _. apply IH.
Qed.

End Faults.

(** X14.  The panics of the parser tell the truth.  When [parse] panics
    with "Expected ... but got ...", the token of the message is a token
    of the slice, the list of expectations is not empty, and neither the
    type nor the text of the token is among them; when it panics with
    "Unexpected token in expression", the token is a token of the slice
    whose type is none of NUMBER, STRING and ID; and an index panic is at
    an index outside the slice. *)
Theorem parse_fault_truthful (tokens : list Token) (f : Fault) :
  parse tokens = Panic f -> truthful tokens f.
Proof.
  unfold parse.
  pose proof (parseLoop_faults tokens (length tokens) [] 0%nat) as H.
  destruct (parseLoop tokens (length tokens) [] 0%nat); try discriminate.
  intros [= <-]. exact H.
Qed.

(** X14 on a slice whose first token is an identifier as the lexer types
    it: it is not an ID. *)
Lemma parse_fault_truthful_witness :
  parse [ mkToken "LPAREN" "int" 1 0; mkToken "EOF" EmptyString 1 0 ]
  = Panic (Expected ["ID"] (mkToken "LPAREN" "int" 1 0))
  /\ truthful [ mkToken "LPAREN" "int" 1 0; mkToken "EOF" EmptyString 1 0 ]
              (Expected ["ID"] (mkToken "LPAREN" "int" 1 0)).
Proof.
  split; [reflexivity|].
  apply parse_fault_truthful. reflexivity.
Defined.

(** ** The parser on the tokens that spell a tree *)

Lemma skipn_nth (A : Type) (pos : nat) : forall (l : list A) x rest,
  skipn pos l = x :: rest ->
  nth_error l pos = Some x /\ skipn (S pos) l = rest.
Proof.
  induction pos as [|pos IH]; intros [|y l] x rest; simpl;
    try discriminate.
  - intros [= -> ->]. auto.
  - apply IH.
Qed.

Lemma statements_spelled (body : list Node) :
  forallb isStatementNode body = true ->
  (length body <= length (flat_map spellStatement body))%nat.
Proof.
  induction body as [|stmt body IH]; simpl; auto.
  intros H. apply andb_true_iff in H. destruct H as [Hs Hb].
  rewrite length_app. specialize (IH Hb).
  destruct stmt; try discriminate; simpl; lia.
Qed.

Lemma params_spelled (params : list Param) :
  (length params <= length (spellParams params))%nat.
Proof.
  induction params as [|param params IH]; simpl; auto.
  destruct params; simpl in *; lia.
Qed.

Lemma decls_spelled (decls : list Node) :
  forallb spellable decls = true ->
  (length decls <= length (flat_map spellDecl decls))%nat.
Proof.
  induction decls as [|decl decls IH]; simpl; auto.
  intros H. apply andb_true_iff in H. destruct H as [Hs Hb].
  rewrite length_app. specialize (IH Hb).
  destruct decl; try discriminate; simpl; lia.
Qed.

Section Spelled.

Variable tokens : list Token.

Lemma ahead_cons pos k v l :
  ahead tokens pos ((k, v) :: l) ->
  exists t, nth_error tokens pos = Some t /\ Type_ t = k /\ Value t = v
            /\ ahead tokens (S pos) l.
Proof.
  intros [rest H].
  destruct (skipn pos tokens) as [|t r] eqn:E; [discriminate|].
  apply skipn_nth in E. destruct E as [Hn Hs].
  simpl in H. injection H as Hk Hv Hr.
  exists t. repeat split; auto. exists rest. now rewrite Hs.
Qed.

Lemma ahead_app pos l1 : forall l2,
  ahead tokens pos (l1 ++ l2) -> ahead tokens (length l1 + pos) l2.
Proof.
  revert pos; induction l1 as [|[k v] l1 IH]; intros pos l2 H; auto.
  simpl in H. apply ahead_cons in H. destruct H as (t & _ & _ & _ & H).
  apply IH in H. simpl. now rewrite Nat.add_succ_r in H.
Qed.

Lemma ahead_length pos l :
  ahead tokens pos l -> (length l <= length tokens)%nat.
Proof.
  intros [rest H]. apply (f_equal (@length _)) in H.
  rewrite length_map, length_skipn, length_app in H. lia.
Qed.

(** The value and the cursor that a method gives: no panic, and the bound
    of the model is not hit. *)
Abbreviation gives Q := (post Q (fun _ => False) False).

Lemma gives_Done {A : Type} (x : A) (q : nat) (o : Outcome A) :
  gives (fun a p => a = x /\ p = q) o -> o = Done x q.
Proof. destruct o; simpl; intros H; try tauto. now destruct H as [-> ->]. Qed.

Lemma current_gives pos k v l :
  ahead tokens pos ((k, v) :: l) ->
  gives (fun t p => p = pos /\ Type_ t = k /\ Value t = v)
        (current tokens pos).
Proof.
  intros H. apply ahead_cons in H. destruct H as (t & Hn & Hk & Hv & _).
  unfold current, tokenAt. rewrite Hn. simpl. auto.
Qed.

Lemma consume_gives expectedType pos k v l :
  ahead tokens pos ((k, v) :: l) ->
  (0 <? length expectedType)%nat
  && negb (existsb (fun typ => String.eqb k typ || String.eqb v typ)
                   expectedType) = false ->
  gives (fun t p => p = S pos /\ Type_ t = k /\ Value t = v)
        (consume tokens expectedType pos).
Proof.
  intros H Hacc. unfold consume.
  eapply post_bind; [eapply current_gives, H | intros t p (-> & Hk & Hv)].
  rewrite Hk, Hv, Hacc. simpl. auto.
Qed.

Lemma parseExpression_gives pos e l :
  ahead tokens pos ((exprKind e, ExprValue e) :: l) ->
  gives (fun e' p => e' = e /\ p = S pos) (parseExpression tokens pos).
Proof.
  intros H. unfold parseExpression.
  eapply post_bind;
    [eapply consume_gives; [exact H|reflexivity]
    | intros t p (-> & Hk & Hv)].
  rewrite Hk, Hv. destruct e as [v]. unfold exprKind. simpl.
  destruct (quoted v), (numeric v); simpl; auto.
Qed.

(** The lookahead of [parseStatement] on an expression statement and on a
    declaration. *)
Lemma twoIDs_expression pos e l :
  ahead tokens pos ((exprKind e, ExprValue e) :: ("SEMICOLON", ";") :: l) ->
  gives (fun b p => b = false /\ p = pos) (twoIDs tokens pos).
Proof.
  intros H. unfold twoIDs.
  eapply post_bind; [eapply current_gives, H | intros t p (-> & Hk & _)].
  apply ahead_cons in H. destruct H as (_ & _ & _ & _ & H).
  apply ahead_cons in H. destruct H as (t2 & Hn2 & Hk2 & _).
  rewrite Hk. destruct (String.eqb (exprKind e) "ID"); simpl; auto.
  unfold bind, getPos, tokenAt. rewrite Nat.add_1_r, Hn2. simpl.
  rewrite Hk2. auto.
Qed.

Lemma twoIDs_declaration pos t n l :
  ahead tokens pos (("ID", t) :: ("ID", n) :: l) ->
  gives (fun b p => b = true /\ p = pos) (twoIDs tokens pos).
Proof.
  intros H. unfold twoIDs.
  eapply post_bind; [eapply current_gives, H | intros t1 p (-> & Hk & _)].
  apply ahead_cons in H. destruct H as (_ & _ & _ & _ & H).
  apply ahead_cons in H. destruct H as (t2 & Hn2 & Hk2 & _).
  rewrite Hk. simpl.
  unfold bind, getPos, tokenAt. rewrite Nat.add_1_r, Hn2. simpl.
  rewrite Hk2. auto.
Qed.

(** The value is the tree, and the cursor has moved over its tokens. *)
Ltac counted :=
  unfold ret; cbn [post]; split; [reflexivity|];
  unfold spellBlock; rewrite ?length_app; cbn [length]; lia.

(** The next token is the one that [H] tells, and the cursor moves over
    it. *)
Ltac next_token H :=
  let t := fresh "t" in
  let p := fresh "p" in
  eapply post_bind;
    [ eapply consume_gives; [exact H|reflexivity]
    | intros t p (-> & _ & ?) ];
  apply ahead_cons in H; destruct H as (_ & _ & _ & _ & H).

Lemma parseStatement_gives pos stmt l :
  isStatementNode stmt = true ->
  ahead tokens pos (spellStatement stmt ++ l) ->
  gives (fun stmt' p => stmt' = stmt
                        /\ p = (length (spellStatement stmt) + pos)%nat)
        (parseStatement tokens pos).
Proof.
  intros Hs H. unfold parseStatement.
  destruct stmt as [| |VarType Name Default|Expr|]; try discriminate;
    cbn [spellStatement] in *.
  - rewrite <- !app_assoc in H. cbn [app] in H.
    eapply post_bind;
      [eapply twoIDs_declaration, H | intros b p (-> & ->)].
    do 2 next_token H. subst.
    destruct Default as [d]. cbn [ExprValue] in *.
    destruct (String.eqb_spec d EmptyString) as [->|Hd]; cbn [app] in H.
    + eapply post_bind;
        [eapply current_gives, H | intros tok p' (-> & _ & Hv)].
      rewrite Hv. simpl.
      eapply post_bind
        with (Q1 := fun def p => def = mkExpression EmptyString
                                 /\ p = S (S pos));
        [simpl; auto | intros def p (-> & ->)].
      next_token H. simpl. auto.
    + eapply post_bind;
        [eapply current_gives, H | intros tok p' (-> & _ & Hv)].
      rewrite Hv. simpl.
      eapply post_bind
        with (Q1 := fun def p => def = mkExpression d
                                 /\ p = S (S (S (S pos)))).
      * next_token H.
        eapply parseExpression_gives with (e := mkExpression d). exact H.
      * intros def p (-> & ->).
        do 2 (apply ahead_cons in H; destruct H as (_ & _ & _ & _ & H)).
        next_token H. simpl. auto.
  - cbn [app] in H.
    eapply post_bind;
      [eapply twoIDs_expression, H | intros b p (-> & ->)].
    eapply post_bind;
      [eapply parseExpression_gives, H | intros e p (-> & ->)].
    apply ahead_cons in H. destruct H as (_ & _ & _ & _ & H).
    next_token H. simpl. auto.
Qed.

(** A statement starts with a token that does not close the block. *)
Lemma statement_head (stmt : Node) (l : list (string * string)) :
  isStatementNode stmt = true ->
  exists k v l',
    (spellStatement stmt ++ l)%list = (k, v) :: l'
    /\ String.eqb k "RBRACE" = false.
Proof.
  destruct stmt as [| |VarType Name Default|Expr|]; try discriminate;
    intros _; simpl; eauto.
  exists (exprKind Expr), (ExprValue Expr). eexists. split; [reflexivity|].
  unfold exprKind.
  destruct (quoted (ExprValue Expr)), (numeric (ExprValue Expr));
    reflexivity.
Qed.

Lemma parseBlockLoop_gives (body : list Node) : forall fuel acc pos l,
  (length body <= fuel)%nat ->
  forallb isStatementNode body = true ->
  ahead tokens pos (flat_map spellStatement body ++ ("RBRACE", "}") :: l) ->
  gives (fun stmts p =>
           stmts = (acc ++ body)%list
           /\ p = (length (flat_map spellStatement body) + pos)%nat)
        (parseBlockLoop tokens fuel acc pos).
Proof.
  induction body as [|stmt body IH]; intros fuel acc pos l Hfuel Hb H.
  - simpl in H.
    destruct fuel; cbn [parseBlockLoop];
      (eapply post_bind;
         [eapply current_gives, H | intros tok p (-> & Hk & _)]);
      rewrite Hk; simpl; rewrite app_nil_r; auto.
  - destruct fuel as [|fuel]; [simpl in Hfuel; lia|].
    cbn [forallb] in Hb. apply andb_true_iff in Hb. destruct Hb as [Hs Hb].
    cbn [flat_map] in H. rewrite <- app_assoc in H.
    cbn [parseBlockLoop].
    destruct (statement_head stmt
                (flat_map spellStatement body ++ ("RBRACE", "}") :: l) Hs)
      as (k & v & l' & E & Hk).
    eapply post_bind.
    { eapply current_gives. rewrite E in H. exact H. }
    intros tok p (-> & Hk' & _). rewrite Hk', Hk. simpl.
    eapply post_bind;
      [eapply parseStatement_gives; [exact Hs|exact H]
      | intros stmt' p (-> & ->)].
    apply ahead_app in H.
    eapply post_weaken;
      [apply (IH fuel (acc ++ [stmt])%list _ l); auto; simpl in Hfuel; lia|].
    intros stmts p [-> ->]. cbn [flat_map]. rewrite length_app.
    rewrite <- app_assoc. split; [reflexivity|lia].
Qed.

Lemma parseBlock_gives pos body l :
  forallb isStatementNode body = true ->
  ahead tokens pos (spellBlock body ++ l) ->
  gives (fun stmts p => stmts = body
                        /\ p = (length (spellBlock body) + pos)%nat)
        (parseBlock tokens pos).
Proof.
  intros Hb H. unfold parseBlock, spellBlock in *.
  rewrite <- !app_assoc in H. cbn [app] in H.
  next_token H.
  assert (Hfuel : (length body <= length tokens)%nat).
  { pose proof (statements_spelled body Hb).
    apply ahead_length in H. rewrite length_app in H. lia. }
  eapply post_bind;
    [eapply (parseBlockLoop_gives body (length tokens) []); eauto
    | intros stmts p (-> & ->)].
  apply ahead_app in H.
  next_token H. counted.
Qed.

Lemma parseParamsLoop_gives (params : list Param) : forall fuel acc pos l,
  params <> [] ->
  (length params <= S fuel)%nat ->
  ahead tokens pos (spellParams params ++ ("RPAREN", ")") :: l) ->
  gives (fun params' p =>
           params' = (acc ++ params)%list
           /\ p = (length (spellParams params) + pos)%nat)
        (parseParamsLoop tokens fuel acc pos).
Proof.
  induction params as [|[ty name] params IH]; intros fuel acc pos l Hne Hfuel H;
    [congruence|].
  cbn [spellParams ParamType ParamName] in H.
  rewrite <- app_assoc in H. cbn [app] in H.
  assert (Hloop :
    gives (fun params' p =>
             params' = (acc ++ mkParam ty name :: params)%list
             /\ p = (length (spellParams (mkParam ty name :: params))
                     + pos)%nat)
          ((paramType <- consume tokens ["ID"] ;;
            paramName <- consume tokens ["ID"] ;;
            tok <- current tokens ;;
            if String.eqb (Type_ tok) "COMMA" then
              consume tokens ["COMMA"] ;;;
              match fuel with
              | O => fun _ => OutOfFuel
              | S fuel' =>
                parseParamsLoop tokens fuel'
                  (acc ++ [mkParam (Value paramType) (Value paramName)])%list
              end
            else ret (acc ++ [mkParam (Value paramType)
                                      (Value paramName)])%list)
             pos)).
  { do 2 next_token H. subst.
    destruct params as [|param2 params].
    - cbn [app] in H.
      eapply post_bind;
        [eapply current_gives, H | intros tok p (-> & Hk & _)].
      rewrite Hk. simpl. auto.
    - cbn [app] in H.
      eapply post_bind;
        [eapply current_gives, H | intros tok p (-> & Hk & _)].
      rewrite Hk. simpl.
      next_token H.
      destruct fuel as [|fuel]; [simpl in Hfuel; lia|].
      eapply post_weaken;
        [eapply (IH fuel _ _ l);
           [discriminate|simpl in *; lia|exact H]|].
      intros params' p [-> ->]. rewrite <- app_assoc.
      split; [reflexivity|].
      cbn [spellParams length app]. rewrite ?length_app. simpl. lia. }
  destruct fuel; exact Hloop.
Qed.

Lemma parseParams_gives pos params l :
  ahead tokens pos (spellParams params ++ ("RPAREN", ")") :: l) ->
  gives (fun params' p => params' = params
                          /\ p = (length (spellParams params) + pos)%nat)
        (parseParams tokens pos).
Proof.
  intros H. unfold parseParams.
  destruct params as [|param params].
  - simpl in H.
    eapply post_bind;
      [eapply current_gives, H | intros tok p (-> & Hk & _)].
    rewrite Hk. simpl. auto.
  - assert (Hfuel : (length (param :: params) <= S (length tokens))%nat).
    { pose proof (params_spelled (param :: params)).
      apply ahead_length in H. rewrite length_app in H. lia. }
    eapply post_bind.
    { eapply current_gives. cbn [spellParams] in H.
      rewrite <- app_assoc in H. exact H. }
    intros tok p (-> & Hk & _). rewrite Hk. simpl.
    eapply post_weaken;
      [eapply (parseParamsLoop_gives (param :: params) _ [] _ l);
         [discriminate|exact Hfuel|exact H]|].
    intros params' p [-> ->]. auto.
Qed.

Lemma parseFunction_gives pos RetType Name Params Body l :
  forallb isStatementNode Body = true ->
  ahead tokens pos (spellDecl (FunctionDecl RetType Name Params Body) ++ l) ->
  gives (fun decl p =>
           decl = FunctionDecl RetType Name Params Body
           /\ p = (length (spellDecl (FunctionDecl RetType Name Params Body))
                   + pos)%nat)
        (parseFunction tokens pos).
Proof.
  intros Hb H. unfold parseFunction. cbn [spellDecl] in *.
  rewrite <- !app_assoc in H. cbn [app] in H.
  do 3 next_token H. subst.
  eapply post_bind;
    [eapply parseParams_gives, H | intros params p (-> & ->)].
  apply ahead_app in H.
  next_token H.
  eapply post_bind;
    [eapply parseBlock_gives; [exact Hb|exact H] | intros body p (-> & ->)].
  counted.
Qed.

Lemma parseClass_gives pos Name Parent Members l :
  forallb isStatementNode Members = true ->
  ahead tokens pos (spellDecl (ClassDecl Name Parent Members) ++ l) ->
  gives (fun decl p =>
           decl = ClassDecl Name Parent Members
           /\ p = (length (spellDecl (ClassDecl Name Parent Members))
                   + pos)%nat)
        (parseClass tokens pos).
Proof.
  intros Hb H. unfold parseClass. cbn [spellDecl] in *.
  rewrite <- !app_assoc in H. cbn [app] in H.
  do 2 next_token H. subst.
  destruct (String.eqb_spec Parent EmptyString) as [->|Hp]; cbn [app] in H.
  - eapply post_bind.
    { eapply current_gives. unfold spellBlock in H.
      rewrite <- !app_assoc in H. exact H. }
    intros tok p (-> & Hk & _). rewrite Hk. simpl.
    eapply post_bind
      with (Q1 := fun parent p => parent = EmptyString /\ p = S (S pos));
      [simpl; auto | intros parent p (-> & ->)].
    eapply post_bind;
      [eapply parseBlock_gives; [exact Hb|exact H]
      | intros body p (-> & ->)].
    counted.
  - eapply post_bind;
      [eapply current_gives, H | intros tok p (-> & Hk & _)].
    rewrite Hk. simpl.
    eapply post_bind
      with (Q1 := fun parent p => parent = Parent /\ p = S (S (S (S pos)))).
    + do 2 next_token H. simpl. auto.
    + intros parent p (-> & ->).
      do 2 (apply ahead_cons in H; destruct H as (_ & _ & _ & _ & H)).
      eapply post_bind;
        [eapply parseBlock_gives; [exact Hb|exact H]
        | intros body p (-> & ->)].
      counted.
Qed.

Lemma parseLoop_gives (decls : list Node) : forall fuel acc pos text,
  (length decls <= fuel)%nat ->
  forallb spellable decls = true ->
  ahead tokens pos (flat_map spellDecl decls ++ [("EOF", text)]) ->
  gives (fun decls' p =>
           decls' = (acc ++ decls)%list
           /\ p = (length (flat_map spellDecl decls) + pos)%nat)
        (parseLoop tokens fuel acc pos).
Proof.
  induction decls as [|decl decls IH]; intros fuel acc pos text Hfuel Hd H.
  - simpl in H.
    destruct fuel; cbn [parseLoop];
      (eapply post_bind;
         [eapply current_gives, H | intros tok p (-> & Hk & _)]);
      rewrite Hk; simpl; rewrite app_nil_r; auto.
  - destruct fuel as [|fuel]; [simpl in Hfuel; lia|].
    cbn [forallb] in Hd. apply andb_true_iff in Hd. destruct Hd as [Hs Hd].
    cbn [flat_map] in H. rewrite <- app_assoc in H.
    cbn [parseLoop].
    assert (Hrest :
      gives (fun decls' p =>
               decls' = ((acc ++ [decl]) ++ decls)%list
               /\ p = (length (flat_map spellDecl decls)
                       + (length (spellDecl decl) + pos))%nat)
            (parseLoop tokens fuel (acc ++ [decl])
                       (length (spellDecl decl) + pos)%nat)).
    { apply (IH fuel _ _ text); auto; [simpl in Hfuel; lia|].
      apply ahead_app in H. exact H. }
    assert (Hdecl :
      gives (fun decl' p => decl' = decl
                            /\ p = (length (spellDecl decl) + pos)%nat)
            ((if String.eqb match decl with
                            | FunctionDecl RetType _ _ _ => RetType
                            | _ => "class"
                            end "class"
              then parseClass tokens else parseFunction tokens) pos)).
    { destruct decl as [RetType Name Params Body|Name Parent Members| | |];
        try discriminate; simpl in Hs.
      - apply andb_true_iff in Hs. destruct Hs as [Hr Hb].
        apply negb_true_iff in Hr. rewrite Hr.
        eapply parseFunction_gives; [exact Hb|exact H].
      - eapply parseClass_gives; [exact Hs|exact H]. }
    assert (Hhead :
      gives (fun tok p =>
               p = pos /\ Type_ tok = "ID"
               /\ Value tok = match decl with
                               | FunctionDecl RetType _ _ _ => RetType
                               | _ => "class"
                               end)
            (current tokens pos)).
    { destruct decl as [RetType Name Params Body|Name Parent Members| | |];
        try discriminate; eapply current_gives, H. }
    eapply post_bind; [exact Hhead | intros tok p (-> & Hk & Hv)].
    rewrite Hk, Hv. simpl.
    eapply post_bind; [exact Hdecl | intros decl' p (-> & ->)].
    eapply post_weaken; [exact Hrest|].
    intros decls' p [-> ->]. cbn [flat_map]. rewrite length_app.
    rewrite <- app_assoc. split; [reflexivity|lia].
Qed.

End Spelled.

(** X15.  The parser accepts the grammar of its comments when the tokens
    have the types that [tokenSpecs] names: for a Program of functions
    (whose return type is not the text [class]) and classes, with
    declarations and expression statements in their blocks, a token slice
    whose types and texts spell the Program ([spell]) and end with the end
    marker, at any positions, is parsed back to that Program, with the
    cursor on the end marker. *)
Theorem parse_spelled (tokens : list Token) (p : Program) (text : string) :
  forallb spellable (Declarations p) = true ->
  map kv tokens = (spell p ++ [("EOF", text)])%list ->
  parse tokens = Done p (length (spell p)).
Proof.
  intros Hd H. destruct p as [decls]. unfold spell in *.
  cbn [Declarations] in *.
  assert (Ha : ahead tokens 0 (flat_map spellDecl decls ++ [("EOF", text)])).
  { exists []. rewrite app_nil_r. exact H. }
  assert (Hfuel : (length decls <= length tokens)%nat).
  { pose proof (decls_spelled decls Hd).
    apply (f_equal (@length _)) in H.
    rewrite length_map, length_app in H. lia. }
  pose proof (parseLoop_gives tokens decls (length tokens) [] 0%nat text
                Hfuel Hd Ha) as Hl.
  unfold parse.
  destruct (parseLoop tokens (length tokens) [] 0%nat); simpl in Hl;
    try tauto.
  destruct Hl as [-> ->]. now rewrite Nat.add_0_r.
Qed.

(** X15 on the tokens of a function. *)
Lemma parse_spelled_witness :
  forallb spellable (Declarations add_program) = true
  /\ map kv add_tokens = (spell add_program ++ [("EOF", EmptyString)])%list
  /\ parse add_tokens = Done add_program (length (spell add_program)).
Proof.
  split; [reflexivity|]. split; [reflexivity|].
  apply (parse_spelled add_tokens add_program EmptyString); reflexivity.
Defined.

(** ** More on the pipeline and on the generator *)

(** X16.  What the pipeline can build: when [tokenize] succeeds and
    [parse] returns a Program for its tokens, every declaration is a
    function, never a class; every name that [consume("ID")] read (return
    type, function name, parameter and variable types and names) is a text
    that starts with a double quote or the text [ID]; every expression
    statement starts with a double quote or a digit; and no variable
    declaration has a default value. *)
Theorem lexed_program_shape (code : string) (toks : list Token)
        (p : Program) (pos : nat) :
  tokenize code = Tokens toks ->
  parse toks = Done p pos ->
  forallb lexedDecl (Declarations p) = true.
Proof.
  intros Ht Hp. apply tokenize_lexed in Ht.
  exact (parse_lexed toks p pos Ht Hp).
Qed.

(** X16 on a text that the pipeline accepts. *)
Lemma lexed_program_shape_witness :
  tokenize accepted_source = Tokens accepted_tokens
  /\ parse accepted_tokens = Done accepted_program 8
  /\ forallb lexedDecl (Declarations accepted_program) = true.
Proof.
  assert (Ht : tokenize accepted_source = Tokens accepted_tokens)
    by (vm_compute; reflexivity).
  assert (Hp : parse accepted_tokens = Done accepted_program 8)
    by (vm_compute; reflexivity).
  split; [exact Ht|]. split; [exact Hp|].
  exact (lexed_program_shape accepted_source accepted_tokens
           accepted_program 8 Ht Hp).
Defined.

(** X17.  The first token decides: when [tokenize] succeeds on a text
    whose first token is not the end marker, and the text of that token
    neither starts with a double quote nor is the text [ID], [parse]
    panics at once with "Expected [ID]" on that token.  A text that starts
    with a type name, with [class] or with any other identifier is never
    compiled. *)
Theorem parse_first_token (code : string) (tok : Token) (rest : list Token) :
  tokenize code = Tokens (tok :: rest) ->
  Type_ tok <> "EOF" ->
  lexedName (Value tok) = false ->
  parse (tok :: rest) = Panic (Expected ["ID"] tok).
Proof.
  intros Ht Heof Hname.
  apply tokenize_lexed in Ht. inversion Ht as [|? ? Hl _]; subst.
  unfold lexedName in Hname. apply orb_false_iff in Hname.
  destruct Hname as [Hq Hid].
  assert (Hty : String.eqb (Type_ tok) "ID" = false).
  { apply String.eqb_neq. intros E.
    apply (lexedToken_ID tok Hl) in E. congruence. }
  apply String.eqb_neq in Heof.
  unfold parse. cbn [length parseLoop].
  unfold bind at 1, current, tokenAt. cbn [nth_error].
  rewrite Heof. cbn [negb].
  assert (Hc : forall (A : Type) (k : Token -> M A),
             bind (consume (tok :: rest) ["ID"]) k 0%nat
             = Panic (Expected ["ID"] tok)).
  { intros A k. unfold consume, bind, current, tokenAt. cbn [nth_error].
    simpl. rewrite Hty, Hid. reflexivity. }
  unfold bind at 1.
  destruct (String.eqb (Value tok) "class");
    unfold parseClass, parseFunction; rewrite Hc; reflexivity.
Qed.

(** X17 on a text that starts with a type name. *)
Lemma parse_first_token_witness :
  tokenize "int main"
  = Tokens [ mkToken "LPAREN" "int" 1 0; mkToken "" " " 1 3;
             mkToken "LPAREN" "main" 1 4; mkToken "EOF" "" 1 0 ]
  /\ parse [ mkToken "LPAREN" "int" 1 0; mkToken "" " " 1 3;
             mkToken "LPAREN" "main" 1 4; mkToken "EOF" "" 1 0 ]
     = Panic (Expected ["ID"] (mkToken "LPAREN" "int" 1 0)).
Proof.
  assert (H : tokenize "int main"
              = Tokens [ mkToken "LPAREN" "int" 1 0; mkToken "" " " 1 3;
                         mkToken "LPAREN" "main" 1 4; mkToken "EOF" "" 1 0 ])
    by (vm_compute; reflexivity).
  split; [exact H|].
  apply (parse_first_token "int main" _ _ H); [discriminate|reflexivity].
Defined.

(** X18.  The test of [strconv.ParseFloat] in [emitStatement] has no
    effect: whatever it answers, [generate] returns the same text. *)
Theorem generate_ignores_ParseFloat
        (ParseFloatOk ParseFloatOk' : string -> bool) (p : Program) :
  generate ParseFloatOk p = generate ParseFloatOk' p.
Proof. rewrite !generate_text. reflexivity. Qed.

Lemma declText_eraseParent (decl : Node) :
  declText (eraseParent decl) = declText decl.
Proof.
  destruct decl as [| Name Parent Members | | |]; try reflexivity.
  cbn [eraseParent declText]. rewrite !map_map.
  assert (Hf : map (fun mem => fieldText (eraseDefault mem)) Members
               = map fieldText Members)
    by (apply map_ext; intros []; reflexivity).
  assert (Hm : map (fun mem => methodText Name (eraseDefault mem)) Members
               = map (methodText Name) Members)
    by (apply map_ext; intros []; reflexivity).
  now rewrite Hf, Hm.
Qed.

(** X19.  The generator drops the inheritance: the parent of a class, and
    the default value of a field of a class, leave no trace in the text
    that [generate] returns. *)
Theorem generate_ignores_Parent (ParseFloatOk : string -> bool)
        (p : Program) :
  generate ParseFloatOk (mkProgram (map eraseParent (Declarations p)))
  = generate ParseFloatOk p.
Proof.
  rewrite !generate_text. cbn [Declarations]. rewrite map_map. f_equal.
  f_equal. apply map_ext. apply declText_eraseParent.
Qed.

(** X20.  What [main] can come to, for every text of the input file: a
    lexing error, and then on a newline; a parsing error, and then one of
    the two panics that the parser raises itself, never an index out of
    range; or the generated text of a Program that holds functions only,
    of the shape of [lexedDecl].  Nothing else happens: the pattern
    compiles and the loops of the parser end. *)
Theorem compile_outcomes (ParseFloatOk : string -> bool) (code : string) :
  match compile ParseFloatOk code with
  | LexingError err => errValue err = nl
  | ParsingError f => explicit f
  | Generated cCode =>
    exists p, forallb lexedDecl (Declarations p) = true
              /\ cCode = generate ParseFloatOk p
  | Crash => False
  end.
Proof.
  unfold compile.
  destruct (tokenize code) as [toks|err|] eqn:Ht.
  - pose proof (tokenize_lexed code toks Ht) as Hlex.
    pose proof (parse_lexed toks) as Hshape.
    apply tokenize_Tokens in Ht. destruct Ht as [-> _].
    pose proof (parse_safe (tokensOf code [] (matches code))
                  (lineOf (matches code)) 0) as Hsafe.
    cbv zeta in Hsafe.
    destruct (parse _) as [p pos|f|]; simpl in Hsafe; auto.
    exists p. split; [|reflexivity]. eapply Hshape; eauto.
  - apply tokenize_LexErr in Ht.
    destruct Ht as (ms1 & m & ms2 & E & _ & Hm & ->).
    assert (Hin : In m (matches code))
      by (rewrite E; apply in_or_app; right; left; reflexivity).
    apply matches_switch in Hin. destruct Hin as (_ & _ & H3).
    unfold isMISMATCH in Hm. rewrite H3 in Hm. apply String.eqb_eq in Hm.
    exact Hm.
  - exact (tokenize_no_panic code Ht).
Qed.
